(** * Belt balancer: the constraint systems of [pyomo_model_1.py] and
      [sympy_system.py]

    The two scripts build, from three integer counts, the index sets, the
    traffic parameters and the constraints of a splitter network.  This file
    embeds both constructions and proves what the generated systems
    guarantee.

    Numbers.  Python integers are [Z].  The traffic values are quotients of
    integers: exact rationals in [sympy_system.py] ([sp.Integer] division),
    binary64 floats in [pyomo_model_1.py] (Python's [/]).  A finite float is
    kept as the rational it denotes, so the quotients of [pyomo_model_1.py]
    are the roundings [round64] of the exact ones.  Variable values are
    rationals; integer-valued variables ([Binary], [NonNegativeIntegers]) are
    [Z] and enter the constraints through [inject_Z]. *)

From Stdlib Require Import ZArith QArith Qminmax Qround Qabs Qpower Qreduction.
From Stdlib Require Import String Ascii List Bool Lia Lqa.
From Stdlib Require Import DecimalString DecimalZ DecimalPos.
Import ListNotations.

(** ** Python primitives used by both scripts *)

Module Py.

(** The exceptions the two scripts can raise. *)
Inductive exception : Set :=
| ZeroDivisionError
| ValueError
| KeyError
| TypeError
| AssertionError
| OverflowError.

Definition result (A : Type) : Type := (exception + A)%type.

Definition Ok {A : Type} (a : A) : result A := inr a.
Definition raise {A : Type} (x : exception) : result A := inl x.

Definition bind {A B : Type} (r : result A) (k : A -> result B) : result B :=
  match r with
  | inl x => inl x
  | inr a => k a
  end.

(** [range(n)]: empty when [n <= 0]. *)
Definition range (n : Z) : list Z := map Z.of_nat (seq 0 (Z.to_nat n)).

(** [str(z)] / [f"{z}"] of an integer: decimal digits, ["-"] in front of a
    negative one. *)
Definition str (z : Z) : string := NilZero.string_of_int (Z.to_int z).

(** [int(s)] for a string made of an optional ["-"] and decimal digits;
    [ValueError] otherwise (the empty string included). *)
Definition int (s : string) : result Z :=
  match NilZero.int_of_string s with
  | Some d => Ok (Z.of_int d)
  | None => raise ValueError
  end.

(** [string.digits] and [string.ascii_letters]. *)
Definition digits : string := "0123456789".
Definition ascii_letters : string :=
  "abcdefghijklmnopqrstuvwxyzABCDEFGHIJKLMNOPQRSTUVWXYZ".

Fixpoint mem (a : ascii) (chars : string) : bool :=
  match chars with
  | EmptyString => false
  | String b chars' => Ascii.eqb a b || mem a chars'
  end.

(** [s.lstrip(chars)]: drop the leading characters that are in [chars]. *)
Fixpoint lstrip (chars s : string) : string :=
  match s with
  | EmptyString => EmptyString
  | String a s' => if mem a chars then lstrip chars s' else s
  end.

(** [s.rstrip(chars)]: drop the trailing characters that are in [chars]. *)
Fixpoint rstrip (chars s : string) : string :=
  match s with
  | EmptyString => EmptyString
  | String a s' =>
      match rstrip chars s' with
      | EmptyString => if mem a chars then EmptyString else String a EmptyString
      | r => String a r
      end
  end.

(** *** Floats

    A Python float is an IEEE 754 binary64 number: 53 bits of precision,
    least exponent [-1074], overflow from [2 ^ 1024] on.  A finite float is
    kept as the rational it denotes (the sign of a zero shows in none of the
    operations of the scripts). *)
Inductive float : Set :=
| Finite (r : Q)
| Infinite (negative : bool).

Local Open Scope Q_scope.

(** The integer part of the binary logarithm of a positive rational. *)
Definition floor_log2 (q : Q) : Z :=
  let k := (Z.log2 (Qnum q) - Z.log2 (Zpos (Qden q)))%Z in
  if Qle_bool (2 ^ k) q then k else (k - 1)%Z.

(** The nearest integer, the even one of the two when they are equally
    near. *)
Definition round_half_even (q : Q) : Z :=
  let f := Qfloor q in
  match Qcompare (q - inject_Z f) (1 # 2) with
  | Lt => f
  | Gt => (f + 1)%Z
  | Eq => if Z.even f then f else (f + 1)%Z
  end.

(** The exponent of the last of the 53 bits of a positive rational, and the
    least exponent for the subnormal ones. *)
Definition ulp_exponent (a : Q) : Z := Z.max (floor_log2 a - 52) (-1074).

Definition round_magnitude (a : Q) : Q :=
  let e := ulp_exponent a in
  inject_Z (round_half_even (a / 2 ^ e)) * 2 ^ e.

(** The float nearest to a rational, ties to even. *)
Definition round64 (q : Q) : float :=
  if Qeq_bool q 0 then Finite 0 else
  let r := round_magnitude (Qabs q) in
  if Qle_bool (2 ^ 1024) r then Infinite (negb (Qle_bool 0 q))
  else Finite (Qred (if Qle_bool 0 q then r else - r)).

Local Close Scope Q_scope.

(** The least positive integer that rounds out of the range of the
    floats. *)
Definition float_limit : Z := 2 ^ 1024 - 2 ^ 970.

(** [float(k)], the conversion applied to an integer operand of a float
    operation: [OverflowError] when the integer rounds out of range. *)
Definition float_of_int (k : Z) : result Q :=
  match round64 (inject_Z k) with
  | Finite r => Ok r
  | Infinite _ => raise OverflowError
  end.

(** [a / b] on two integers: the correctly rounded quotient;
    [ZeroDivisionError] on a zero divisor, [OverflowError] when the quotient
    rounds out of range. *)
Definition truediv (a b : Z) : result float :=
  if (b =? 0)%Z then raise ZeroDivisionError
  else
    match round64 (inject_Z a / inject_Z b) with
    | Finite r => Ok (Finite r)
    | Infinite _ => raise OverflowError
    end.

(** [x / k] on a float and an integer: the integer is converted, then the
    floats are divided. *)
Definition float_truediv (x : float) (k : Z) : result float :=
  bind (float_of_int k) (fun d =>
  if Qeq_bool d 0 then raise ZeroDivisionError
  else
    Ok (match x with
        | Finite r => round64 (r / d)
        | Infinite s => Infinite (xorb s (negb (Qle_bool 0 d)))
        end)).

(** [sum(...)]: left to right from the integer [0]. *)
Definition sum (l : list Q) : Q := fold_left Qplus l 0%Q.

(** A filter whose predicate may raise, applied in order. *)
Fixpoint filterM {A : Type} (h : A -> result bool) (l : list A)
  : result (list A) :=
  match l with
  | [] => Ok []
  | a :: l' =>
      bind (h a) (fun b =>
      bind (filterM h l') (fun r =>
      Ok (if b then a :: r else r)))
  end.

(** A comprehension whose body may raise, evaluated in order. *)
Fixpoint mapM {A B : Type} (h : A -> result B) (l : list A)
  : result (list B) :=
  match l with
  | [] => Ok []
  | a :: l' =>
      bind (h a) (fun b =>
      bind (mapM h l') (fun r =>
      Ok (b :: r)))
  end.

(** A loop whose body may raise and returns nothing. *)
Fixpoint forM {A : Type} (h : A -> result unit) (l : list A) : result unit :=
  match l with
  | [] => Ok tt
  | a :: l' => bind (h a) (fun _ => forM h l')
  end.

End Py.

Notation "x <- c1 ;; c2" := (Py.bind c1 (fun x => c2))
  (at level 61, c1 at next level, right associativity).

(** The three constants at the top of each script. *)
Record config : Set := Config {
  inbounds : Z;   (* Number of inbound belts *)
  outbounds : Z;  (* Number of outbound belts *)
  splitters : Z   (* Number of splitters allowed *)
}.

(** Membership tests on the index sets. *)
Definition mem_str (x : string) (l : list string) : bool :=
  existsb (String.eqb x) l.

Definition route_eqb (r1 r2 : string * string) : bool :=
  String.eqb (fst r1) (fst r2) && String.eqb (snd r1) (snd r2).

Definition mem_route (r : string * string) (l : list (string * string)) : bool :=
  existsb (route_eqb r) l.

(** Union of two sets, [a | b]: the members of [a], then those of [b] that
    are not in [a]. *)
Definition union (a b : list string) : list string :=
  a ++ filter (fun x => negb (mem_str x a)) b.

(** Relational expressions returned by constraint rules, evaluated at an
    assignment of the variables. *)
Inductive constraint : Set :=
| CEq (lhs rhs : Q)   (* lhs == rhs *)
| CLe (lhs rhs : Q)   (* lhs <= rhs *)
| CGe (lhs rhs : Q).  (* lhs >= rhs *)

Definition holds (k : constraint) : bool :=
  match k with
  | CEq l r => Qeq_bool l r
  | CLe l r => Qle_bool l r
  | CGe l r => Qle_bool r l
  end.

(** ** [pyomo_model_1.py] *)

Module Pyomo.
Import Py.

Local Open Scope string_scope.

(** *** Derived values for inbound and outbound traffic *)

Definition cargos (cfg : config) : Z := inbounds cfg.
Definition throughput (cfg : config) : Z := Z.min (inbounds cfg) (outbounds cfg).
Definition v_in (cfg : config) : result float :=
  truediv (throughput cfg) (inbounds cfg).
Definition v_out (cfg : config) : result float :=
  truediv (throughput cfg) (outbounds cfg).
Definition t_in (cfg : config) : result float :=
  v <- v_in cfg ;; float_truediv v 1.
Definition t_out (cfg : config) : result float :=
  v <- v_out cfg ;; float_truediv v (cargos cfg).

(** The four divisions in script order; the values kept are [t_in] and
    [t_out]. *)
Definition derived (cfg : config) : result (float * float) :=
  _ <- v_in cfg ;;
  _ <- v_out cfg ;;
  ti <- t_in cfg ;;
  to <- t_out cfg ;;
  Ok (ti, to).

(** *** Functions for set utility operations *)

Definition init_set (letter : string) (size : Z) : list string :=
  map (fun x => letter ++ str (x + 1)) (range size).
Definition get_letter (member : string) : string := rstrip digits member.
Definition get_int (member : string) : result Z :=
  int (lstrip ascii_letters member).

Definition B_filter (p q : string) : result bool :=
  if (get_letter p =? "i") && (get_letter q =? "j") then
    Ok false  (* Don't allow belts that bypass the splitters entirely *)
  else if (get_letter p =? get_letter q) && (get_letter q =? "s") then
    np <- get_int p ;;
    nq <- get_int q ;;
    if (np =? nq)%Z then
      Ok false  (* Don't allow a splitter to loop right back on itself *)
    else Ok true
  else Ok true.

(** *** Parameters *)

(** An indexed [Param]: its index set, the data set at construction and
    the default.  [param_get] is [prm[i, c]]. *)
Record param : Set := Param {
  index : list (string * string);
  data : list (string * string * Q);
  default : option Q
}.

Fixpoint lookup (k : string * string) (d : list (string * string * Q))
  : option Q :=
  match d with
  | [] => None
  | (k', v) :: d' => if route_eqb k k' then Some v else lookup k d'
  end.

Definition param_get (prm : param) (i c : string) : result Q :=
  if mem_route (i, c) (index prm) then
    match lookup (i, c) (data prm) with
    | Some v => Ok v
    | None =>
        match default prm with
        | Some v => Ok v
        | None => raise ValueError
        end
    end
  else raise KeyError.

(** Domains. *)
Definition Binary (k : Z) : bool := ((0 <=? k) && (k <=? 1))%Z.
Definition NonNegativeIntegers (k : Z) : bool := (0 <=? k)%Z.
Definition PercentFraction (r : Q) : bool := Qle_bool 0 r && Qle_bool r 1.
Definition NonNegativeReals (r : Q) : bool := Qle_bool 0 r.
Definition PositiveReals (r : Q) : bool := negb (Qle_bool r 0).

(** [value in domain] when a parameter is built: the value is kept, or
    refused with [ValueError]. *)
Definition validate (domain : Q -> bool) (value : float) : result Q :=
  match value with
  | Finite r => if domain r then Ok r else raise ValueError
  | Infinite _ => raise ValueError
  end.

Definition f_init (t_in : float) (i c : string) : result float :=
  ni <- get_int i ;;
  nc <- get_int c ;;
  if (ni =? nc)%Z then Ok t_in else Ok (Finite 0).

(** *** The model: sets and parameters

    [model.I], [model.J], ... are the fields [setI], [setJ], ...: the bare
    letters are taken in Rocq ([I], [S], [Q]).  An index [(p, q, c)] of
    [BxC] or [WxC] is the pair of a route and a cargo. *)

Record model : Set := Model {
  setI : list string;                       (* model.I *)
  setJ : list string;                       (* model.J *)
  setS : list string;                       (* model.S *)
  setC : list string;                       (* model.C *)
  setP : list string;                       (* model.P *)
  setQ : list string;                       (* model.Q *)
  setB : list (string * string);            (* model.B *)
  setIxC : list (string * string);
  setJxC : list (string * string);
  setSxC : list (string * string);
  setBxC : list (string * string * string);
  setW : list (string * string);            (* model.W *)
  setWxC : list (string * string * string);
  f : param;
  g : param;
  u_t : Q;
  u_x : Q
}.

(** The script up to the declaration of the variables.  A value of [f]
    outside its domain is refused with [ValueError] when the parameter is
    built, and so is the default of [g], whether or not an index will read
    it. *)
Definition generate (cfg : config) : result model :=
  tr <- derived cfg ;;
  let I := init_set "i" (inbounds cfg) in
  let J := init_set "j" (outbounds cfg) in
  let S := init_set "s" (splitters cfg) in
  let C := init_set "c" (cargos cfg) in
  let P := union I S in
  let Q := union S J in
  B <- filterM (fun r => B_filter (fst r) (snd r)) (list_prod P Q) ;;
  let IxC := list_prod I C in
  let JxC := list_prod J C in
  let SxC := list_prod S C in
  let BxC := list_prod B C in
  let W := filter (fun r => mem_route r B) (list_prod S Q) in
  let WxC := list_prod W C in
  fdata <- mapM (fun ic =>
                   v <- f_init (fst tr) (fst ic) (snd ic) ;;
                   r <- validate PercentFraction v ;;
                   Ok (ic, r))
                IxC ;;
  gdefault <- validate PercentFraction (snd tr) ;;
  if PositiveReals 1 && PositiveReals 2 then
    Ok {| setI := I; setJ := J; setS := S; setC := C; setP := P; setQ := Q;
          setB := B; setIxC := IxC; setJxC := JxC; setSxC := SxC;
          setBxC := BxC; setW := W; setWxC := WxC;
          f := {| index := IxC; data := fdata; default := None |};
          g := {| index := JxC; data := []; default := Some gdefault |};
          u_t := 1; u_x := 2 |}
  else raise ValueError.

(** *** Variables *)

Record assignment : Type := Assignment {
  e : string -> string -> Z;             (* Binary, over B *)
  t : string -> string -> string -> Q;   (* PercentFraction, over BxC *)
  v : string -> string -> Q;             (* PercentFraction, over B *)
  n : string -> Z;                       (* NonNegativeIntegers, over S *)
  m : string -> Z;                       (* NonNegativeIntegers, over S *)
  x : string -> string -> Q;             (* NonNegativeReals, over SxC *)
  y : string -> string -> Q;             (* NonNegativeReals, over SxC *)
  z : string -> Z;                       (* Binary, over S *)
  xe : string -> string -> string -> Q;  (* NonNegativeReals, over WxC *)
  tz : string -> string -> string -> Q   (* PercentFraction, over WxC *)
}.

Definition domains (mo : model) (a : assignment) : bool :=
  forallb (fun r => Binary (e a (fst r) (snd r))) (setB mo)
  && forallb (fun k => PercentFraction (t a (fst (fst k)) (snd (fst k)) (snd k)))
       (setBxC mo)
  && forallb (fun r => PercentFraction (v a (fst r) (snd r))) (setB mo)
  && forallb (fun s => NonNegativeIntegers (n a s)) (setS mo)
  && forallb (fun s => NonNegativeIntegers (m a s)) (setS mo)
  && forallb (fun k => NonNegativeReals (x a (fst k) (snd k))) (setSxC mo)
  && forallb (fun k => NonNegativeReals (y a (fst k) (snd k))) (setSxC mo)
  && forallb (fun s => Binary (z a s)) (setS mo)
  && forallb (fun k => NonNegativeReals (xe a (fst (fst k)) (snd (fst k)) (snd k)))
       (setWxC mo)
  && forallb (fun k => PercentFraction (tz a (fst (fst k)) (snd (fst k)) (snd k)))
       (setWxC mo).

(** Routes of [B] out of / into a node: [for p, q in model.B if p == s]. *)
Definition routes_from (mo : model) (s : string) : list (string * string) :=
  filter (fun r => fst r =? s) (setB mo).
Definition routes_into (mo : model) (s : string) : list (string * string) :=
  filter (fun r => snd r =? s) (setB mo).

Local Open Scope Q_scope.

(** *** Constraint rules

    What a rule returns: a relational expression over the variables or,
    when no variable occurs in it, the plain bool of a comparison of two
    numbers. *)
Inductive expression : Set :=
| Relational (k : constraint)
| Trivial (b : bool).

(** [sum(<terms over the variables>) == number]: with no term the sum is the
    integer [0] and the comparison a plain bool. *)
Definition sum_equals (terms : list Q) (number : Q) : expression :=
  match terms with
  | [] => Trivial (Qeq_bool 0 number)
  | _ :: _ => Relational (CEq (sum terms) number)
  end.

(** [pyo.Constraint(..., rule=...)] at one index: a plain bool is refused
    with [ValueError]. *)
Definition declare (x : expression) : result constraint :=
  match x with
  | Relational k => Ok k
  | Trivial _ => raise ValueError
  end.

Definition define_volume_rule (mo : model) (a : assignment) (p q : string) :=
  CEq (v a p q) (sum (map (fun c => t a p q c) (setC mo))).

Definition define_num_inputs_rule (mo : model) (a : assignment) (s : string) :=
  CEq (inject_Z (n a s))
      (sum (map (fun r => inject_Z (e a (fst r) (snd r))) (routes_into mo s))).
Definition define_num_outputs_rule (mo : model) (a : assignment) (s : string) :=
  CEq (inject_Z (m a s))
      (sum (map (fun r => inject_Z (e a (fst r) (snd r))) (routes_from mo s))).

Definition define_inflow_rule (mo : model) (a : assignment) (s c : string) :=
  CEq (x a s c) (sum (map (fun r => t a (fst r) (snd r) c) (routes_into mo s))).
Definition define_outflow_rule (mo : model) (a : assignment) (s c : string) :=
  CEq (y a s c) (sum (map (fun r => t a (fst r) (snd r) c) (routes_from mo s))).

Definition force_xe_1_rule (mo : model) (a : assignment) (s q c : string) :=
  CLe (xe a s q c) (u_x mo * inject_Z (e a s q)).
Definition force_xe_2_rule (mo : model) (a : assignment) (s q c : string) :=
  CLe (xe a s q c) (x a s c).
Definition force_xe_3_rule (mo : model) (a : assignment) (s q c : string) :=
  CGe (xe a s q c) (x a s c - u_x mo * (1 - inject_Z (e a s q))).

Definition force_tz_1_rule (mo : model) (a : assignment) (s q c : string) :=
  CLe (tz a s q c) (u_t mo * inject_Z (z a s)).
Definition force_tz_2_rule (mo : model) (a : assignment) (s q c : string) :=
  CLe (tz a s q c) (t a s q c).
Definition force_tz_3_rule (mo : model) (a : assignment) (s q c : string) :=
  CGe (tz a s q c) (t a s q c - u_t mo * (1 - inject_Z (z a s))).

Definition connect_inbounds_rule (mo : model) (a : assignment) (i : string)
  : expression :=
  sum_equals (map (fun r => inject_Z (e a (fst r) (snd r))) (routes_from mo i)) 1.
Definition connect_outbounds_rule (mo : model) (a : assignment) (j : string)
  : expression :=
  sum_equals (map (fun r => inject_Z (e a (fst r) (snd r))) (routes_into mo j)) 1.

Definition consume_inbounds_rule (mo : model) (a : assignment) (i c : string)
  : result expression :=
  fic <- param_get (f mo) i c ;;
  Ok (sum_equals (map (fun r => t a (fst r) (snd r) c) (routes_from mo i)) fic).
Definition produce_outbounds_rule (mo : model) (a : assignment) (j c : string)
  : result expression :=
  gjc <- param_get (g mo) j c ;;
  Ok (sum_equals (map (fun r => t a (fst r) (snd r) c) (routes_into mo j)) gjc).

Definition respect_capacity_rule (mo : model) (a : assignment) (p q : string) :=
  CLe (v a p q) (inject_Z (e a p q)).

Definition splitters_conserve_rule (mo : model) (a : assignment) (s c : string) :=
  CEq (x a s c) (y a s c).

Definition min_inputs_rule (mo : model) (a : assignment) (s : string) :=
  CGe (inject_Z (n a s)) (inject_Z (z a s)).
Definition max_inputs_rule (mo : model) (a : assignment) (s : string) :=
  CLe (inject_Z (n a s)) 2.
Definition min_outputs_rule (mo : model) (a : assignment) (s : string) :=
  CGe (inject_Z (m a s)) (2 * inject_Z (z a s)).
Definition max_outputs_rule (mo : model) (a : assignment) (s : string) :=
  CLe (inject_Z (m a s)) (1 + inject_Z (z a s)).

Definition split_evenly_rule (mo : model) (a : assignment) (s q c : string) :=
  CEq (xe a s q c) (t a s q c + tz a s q c).

(** Instantiate a rule over an index set of pairs or triples. *)
Definition over2 {A : Type} (rule : string -> string -> A)
  (idx : list (string * string)) : list A :=
  map (fun k => rule (fst k) (snd k)) idx.
Definition over3 {A : Type} (rule : string -> string -> string -> A)
  (idx : list (string * string * string)) : list A :=
  map (fun k => rule (fst (fst k)) (snd (fst k)) (snd k)) idx.

(** Every constraint of the model, in declaration order.  The rules that
    compare a sum with a number are the only ones that can fail, and are
    declared in this order. *)
Definition constraints (mo : model) (a : assignment) : result (list constraint) :=
  connect_in <- mapM (fun i => declare (connect_inbounds_rule mo a i)) (setI mo) ;;
  connect_out <- mapM (fun j => declare (connect_outbounds_rule mo a j)) (setJ mo) ;;
  consume <- mapM (fun k =>
                     x <- consume_inbounds_rule mo a (fst k) (snd k) ;; declare x)
                  (setIxC mo) ;;
  produce <- mapM (fun k =>
                     x <- produce_outbounds_rule mo a (fst k) (snd k) ;; declare x)
                  (setJxC mo) ;;
  Ok (over2 (define_volume_rule mo a) (setB mo)
      ++ map (define_num_inputs_rule mo a) (setS mo)
      ++ map (define_num_outputs_rule mo a) (setS mo)
      ++ over2 (define_inflow_rule mo a) (setSxC mo)
      ++ over2 (define_outflow_rule mo a) (setSxC mo)
      ++ over3 (force_xe_1_rule mo a) (setWxC mo)
      ++ over3 (force_xe_2_rule mo a) (setWxC mo)
      ++ over3 (force_xe_3_rule mo a) (setWxC mo)
      ++ over3 (force_tz_1_rule mo a) (setWxC mo)
      ++ over3 (force_tz_2_rule mo a) (setWxC mo)
      ++ over3 (force_tz_3_rule mo a) (setWxC mo)
      ++ connect_in
      ++ connect_out
      ++ consume
      ++ produce
      ++ over2 (respect_capacity_rule mo a) (setB mo)
      ++ over2 (splitters_conserve_rule mo a) (setSxC mo)
      ++ map (min_inputs_rule mo a) (setS mo)
      ++ map (max_inputs_rule mo a) (setS mo)
      ++ map (min_outputs_rule mo a) (setS mo)
      ++ map (max_outputs_rule mo a) (setS mo)
      ++ over3 (split_evenly_rule mo a) (setWxC mo))%list.

(** A feasible assignment: every variable in its domain and every
    constraint satisfied. *)
Definition feasible (mo : model) (a : assignment) : bool :=
  domains mo a
  && match constraints mo a with
     | inr ks => forallb holds ks
     | inl _ => false
     end.

(** *** Objective *)

Definition simultaneous_volume_rule (mo : model) (a : assignment) : Q :=
  sum (map (fun r => v a (fst r) (snd r)) (setB mo)).

(** *** Printing the solution in a friendlier way *)

(** The values the solver loaded into [e] and [v]; [None] is a variable
    that holds no value. *)
Record solution : Type := Solution {
  e_value : string -> string -> option Q;
  v_value : string -> string -> option Q
}.

(** [pyo.value(var)]: [ValueError] on a variable without a value. *)
Definition value (var : option Q) : result Q :=
  match var with
  | Some r => Ok r
  | None => raise ValueError
  end.

(** The final loop over [model.B]: the lines printed, as (producer,
    consumer, volume) triples, and the exception that stopped the loop, if
    any.  A printed line shows the volume with eight decimals; the triple
    carries the value itself. *)
Fixpoint report (sol : solution) (B : list (string * string))
  : list (string * string * Q) * option exception :=
  match B with
  | [] => ([], None)
  | (p, q) :: B' =>
      match value (e_value sol p q) with
      | inl err => ([], Some err)
      | inr ev =>
          if negb (Qle_bool ev (1 # 2)) then
            match value (v_value sol p q) with
            | inl err => ([], Some err)
            | inr vv =>
                let (out, err) := report sol B' in ((p, q, vv) :: out, err)
            end
          else report sol B'
      end
  end.

End Pyomo.

(** ** [sympy_system.py] *)

Module Sympy.
Import Py.

Local Open Scope string_scope.

(** A sympy number of this script: [Some r] is the rational [r]; [None] is
    what a division by zero leaves ([zoo] or [nan]), which no later
    division by an integer turns back into a rational. *)
Definition number : Set := option Q.

Definition sp_div (a : number) (b : Q) : number :=
  match a with
  | Some r => if Qeq_bool b 0 then None else Some (r / b)%Q
  | None => None
  end.

(** *** Derived values for inbound and outbound traffic *)

Definition cargos (cfg : config) : Z := inbounds cfg.
Definition throughput (cfg : config) : Z := Z.min (inbounds cfg) (outbounds cfg).
Definition v_in (cfg : config) : number :=
  sp_div (Some (inject_Z (throughput cfg))) (inject_Z (inbounds cfg)).
Definition v_out (cfg : config) : number :=
  sp_div (Some (inject_Z (throughput cfg))) (inject_Z (outbounds cfg)).
Definition t_in (cfg : config) : number := sp_div (v_in cfg) 1.
Definition t_out (cfg : config) : number :=
  sp_div (v_out cfg) (inject_Z (cargos cfg)).

(** *** Basic and composite sets

    Python sets, kept as duplicate-free lists in generation order. *)

Definition setI (cfg : config) : list string :=
  map (fun i => "i" ++ str (i + 1)) (range (inbounds cfg)).
Definition setJ (cfg : config) : list string :=
  map (fun j => "j" ++ str (j + 1)) (range (outbounds cfg)).
Definition setS (cfg : config) : list string :=
  map (fun s => "s" ++ str (s + 1)) (range (splitters cfg)).
Definition setC (cfg : config) : list string :=
  map (fun c => "c" ++ str (c + 1)) (range (cargos cfg)).

Definition setP (cfg : config) : list string := union (setI cfg) (setS cfg).
Definition setQ (cfg : config) : list string := union (setJ cfg) (setS cfg).

(** [B = {(p, q) for p in P for q in Q}]. *)
Definition setB (cfg : config) : list (string * string) :=
  list_prod (setP cfg) (setQ cfg).

Definition setIxC (cfg : config) : list (string * string) :=
  list_prod (setI cfg) (setC cfg).
Definition setJxC (cfg : config) : list (string * string) :=
  list_prod (setJ cfg) (setC cfg).

(** *** Parameters *)

Definition f_init (cfg : config) (i c : string) : result number :=
  n_i <- int (lstrip ascii_letters i) ;;
  n_c <- int (lstrip ascii_letters c) ;;
  if (n_i =? n_c)%Z then Ok (t_in cfg) else Ok (Some 0%Q).

(** [assert 0 <= value <= 1]; comparing [zoo] or [nan] is a [TypeError]. *)
Definition assert_fraction (value : number) : result unit :=
  match value with
  | None => raise TypeError
  | Some r =>
      if Qle_bool 0 r && Qle_bool r 1 then Ok tt else raise AssertionError
  end.

(** [assert u > 0]. *)
Definition assert_positive (u : Q) : result unit :=
  if negb (Qle_bool u 0) then Ok tt else raise AssertionError.

Record parameters : Set := Parameters {
  f : list (string * string * number);
  g : list (string * string * number);
  u_t : Q;
  u_x : Q
}.

(** The parameter section of the script, asserts included. *)
Definition build_parameters (cfg : config) : result parameters :=
  fd <- mapM (fun ic => val <- f_init cfg (fst ic) (snd ic) ;; Ok (ic, val))
             (setIxC cfg) ;;
  _ <- forM (fun kv => assert_fraction (snd kv)) fd ;;
  let gd := map (fun jc => (jc, t_out cfg)) (setJxC cfg) in
  _ <- forM (fun kv => assert_fraction (snd kv)) gd ;;
  _ <- assert_positive 1 ;;
  _ <- assert_positive 2 ;;
  Ok {| f := fd; g := gd; u_t := 1; u_x := 2 |}.

(** *** Variables and the system of equations and inequalities

    The symbols are [e] (integer, nonnegative), [t] (nonnegative) and [z]
    (integer, nonnegative); [v], [n], [m], [x] and [y] are the expressions
    the script builds from them.  Every key the script reads in [e] and [t]
    is a key of the dictionary, since [B] is the whole product [P x Q]. *)

Definition setSxC (cfg : config) : list (string * string) :=
  list_prod (setS cfg) (setC cfg).
Definition setBxC (cfg : config) : list (string * string * string) :=
  list_prod (setB cfg) (setC cfg).

Definition triple_eqb (k1 k2 : string * string * string) : bool :=
  route_eqb (fst k1) (fst k2) && String.eqb (snd k1) (snd k2).

(** [{(s, q, c) for s in S for q in Q for c in C} & BxC]. *)
Definition setSxQxC (cfg : config) : list (string * string * string) :=
  filter (fun k => existsb (triple_eqb k) (setBxC cfg))
         (list_prod (list_prod (setS cfg) (setQ cfg)) (setC cfg)).

Record assignment : Type := Assignment {
  e : string -> string -> Z;            (* e_p_q, integer, nonnegative *)
  t : string -> string -> string -> Q;  (* t_p_q_c, nonnegative *)
  z : string -> Z                       (* z_s, integer, nonnegative *)
}.

(** The assumptions carried by the symbols. *)
Definition assumptions (cfg : config) (a : assignment) : bool :=
  forallb (fun r => (0 <=? e a (fst r) (snd r))%Z) (setB cfg)
  && forallb (fun k => Qle_bool 0 (t a (fst (fst k)) (snd (fst k)) (snd k)))
       (setBxC cfg)
  && forallb (fun s => (0 <=? z a s)%Z) (setS cfg).

Local Open Scope Q_scope.

Definition v (cfg : config) (a : assignment) (p q : string) : Q :=
  sum (map (fun c => t a p q c) (setC cfg)).
Definition n (cfg : config) (a : assignment) (s : string) : Q :=
  sum (map (fun p => inject_Z (e a p s)) (setP cfg)).
Definition m (cfg : config) (a : assignment) (s : string) : Q :=
  sum (map (fun q => inject_Z (e a s q)) (setQ cfg)).
Definition x (cfg : config) (a : assignment) (s c : string) : Q :=
  sum (map (fun p => t a p s c) (setP cfg)).
Definition y (cfg : config) (a : assignment) (s c : string) : Q :=
  sum (map (fun q => t a s q c) (setQ cfg)).

(** [d[k]] on a dictionary: [KeyError] on a missing key. *)
Fixpoint dict_get (d : list (string * string * number)) (k : string * string)
  : result number :=
  match d with
  | [] => raise KeyError
  | (k', val) :: d' => if route_eqb k k' then Ok val else dict_get d' k
  end.

(** [sp.Eq(lhs, value)]: an equation with a rational, and the relation
    [False] when the value is [zoo] or [nan]. *)
Definition eq_number (lhs : Q) (value : number) : constraint :=
  match value with
  | Some r => CEq lhs r
  | None => CLe 1 0
  end.

(** The list [system], in the order of the script. *)
Definition system (cfg : config) (prm : parameters) (a : assignment)
  : result (list constraint) :=
  consume <- mapM (fun ic =>
                     fic <- dict_get (f prm) ic ;;
                     Ok (eq_number
                           (sum (map (fun q => t a (fst ic) q (snd ic)) (setQ cfg)))
                           fic))
                  (setIxC cfg) ;;
  produce <- mapM (fun jc =>
                     gjc <- dict_get (g prm) jc ;;
                     Ok (eq_number
                           (sum (map (fun p => t a p (fst jc) (snd jc)) (setP cfg)))
                           gjc))
                  (setJxC cfg) ;;
  Ok (map (fun r => CLe (inject_Z (e a (fst r) (snd r))) 1) (setB cfg)
      ++ map (fun k => CLe (t a (fst (fst k)) (snd (fst k)) (snd k)) 1) (setBxC cfg)
      ++ map (fun r => CLe (v cfg a (fst r) (snd r)) 1) (setB cfg)
      ++ map (fun s => CLe (inject_Z (z a s)) 1) (setS cfg)
      ++ map (fun i => CEq (sum (map (fun q => inject_Z (e a i q)) (setQ cfg))) 1)
           (setI cfg)
      ++ map (fun j => CEq (sum (map (fun p => inject_Z (e a p j)) (setP cfg))) 1)
           (setJ cfg)
      ++ consume
      ++ produce
      ++ map (fun r => CLe (v cfg a (fst r) (snd r)) (inject_Z (e a (fst r) (snd r))))
           (setB cfg)
      ++ map (fun k => CEq (x cfg a (fst k) (snd k)) (y cfg a (fst k) (snd k)))
           (setSxC cfg)
      ++ map (fun s => CGe (n cfg a s) (inject_Z (z a s))) (setS cfg)
      ++ map (fun s => CLe (n cfg a s) 2) (setS cfg)
      ++ map (fun s => CGe (m cfg a s) (2 * inject_Z (z a s))) (setS cfg)
      ++ map (fun s => CLe (m cfg a s) (1 + inject_Z (z a s))) (setS cfg)
      ++ map (fun k =>
                CEq (t a (fst (fst k)) (snd (fst k)) (snd k))
                    (inject_Z (e a (fst (fst k)) (snd (fst k)))
                     * x cfg a (fst (fst k)) (snd k)
                     / (1 + inject_Z (z a (fst (fst k))))))
           (setSxQxC cfg))%list.

(** An assignment of the symbols that satisfies the whole system. *)
Definition satisfies (cfg : config) (prm : parameters) (a : assignment) : bool :=
  assumptions cfg a
  && match system cfg prm a with
     | inr ks => forallb holds ks
     | inl _ => false
     end.


End Sympy.

(** * Definitions used by the statements *)

Import Py.
Local Open Scope string_scope.

Definition all_in (chars s : string) : Prop :=
  forall a, In a (list_ascii_of_string s) -> mem a chars = true.

(** A member [letter ++ str k] made of one letter and the digits of [k]. *)
Definition is_letter (a : ascii) : Prop :=
  mem a ascii_letters = true /\ mem a digits = false.

Ltac inject_consts :=
  change (inject_Z 0) with 0%Q in *; change (inject_Z 1) with 1%Q in *.

(** The seven linear constraints emitted for one index [(s, q, c)] of
    [WxC]: [force_xe_1..3], [force_tz_1..3] and [split_evenly]. *)
Definition linearization (mo : Pyomo.model) (a : Pyomo.assignment)
  (s q c : string) : bool :=
  holds (Pyomo.force_xe_1_rule mo a s q c)
  && holds (Pyomo.force_xe_2_rule mo a s q c)
  && holds (Pyomo.force_xe_3_rule mo a s q c)
  && holds (Pyomo.force_tz_1_rule mo a s q c)
  && holds (Pyomo.force_tz_2_rule mo a s q c)
  && holds (Pyomo.force_tz_3_rule mo a s q c)
  && holds (Pyomo.split_evenly_rule mo a s q c).

(** Some nonnegative values of [xe[s,q,c]] and [tz[s,q,c]] complete the
    values that [a] gives to [e], [z], [t] and [x] into a solution of the
    seven constraints. *)
Definition linearization_satisfiable (mo : Pyomo.model) (a : Pyomo.assignment)
  (s q c : string) : Prop :=
  exists a' : Pyomo.assignment,
    Pyomo.e a' = Pyomo.e a /\ Pyomo.z a' = Pyomo.z a /\
    Pyomo.t a' = Pyomo.t a /\ Pyomo.x a' = Pyomo.x a /\
    (0 <= Pyomo.xe a' s q c)%Q /\ (0 <= Pyomo.tz a' s q c)%Q /\
    linearization mo a' s q c = true.

(** The same assignment with other values for the two auxiliary families. *)
Definition with_aux (a : Pyomo.assignment) (xe' tz' : Q) : Pyomo.assignment :=
  {| Pyomo.e := Pyomo.e a; Pyomo.t := Pyomo.t a; Pyomo.v := Pyomo.v a;
     Pyomo.n := Pyomo.n a; Pyomo.m := Pyomo.m a; Pyomo.x := Pyomo.x a;
     Pyomo.y := Pyomo.y a; Pyomo.z := Pyomo.z a;
     Pyomo.xe := fun _ _ _ => xe'; Pyomo.tz := fun _ _ _ => tz' |}.

(** ** Concrete configurations *)

(** One inbound belt, one outbound belt, two splitters. *)
Definition cfg_1_1_2 : config := Config 1 1 2.

(** The model generated from [cfg_1_1_2]. *)
Definition model_1_1_2 : Pyomo.model :=
  {| Pyomo.setI := ["i1"]; Pyomo.setJ := ["j1"]; Pyomo.setS := ["s1"; "s2"];
     Pyomo.setC := ["c1"];
     Pyomo.setP := ["i1"; "s1"; "s2"]; Pyomo.setQ := ["s1"; "s2"; "j1"];
     Pyomo.setB := [("i1", "s1"); ("i1", "s2"); ("s1", "s2"); ("s1", "j1");
                    ("s2", "s1"); ("s2", "j1")];
     Pyomo.setIxC := [("i1", "c1")]; Pyomo.setJxC := [("j1", "c1")];
     Pyomo.setSxC := [("s1", "c1"); ("s2", "c1")];
     Pyomo.setBxC := [("i1", "s1", "c1"); ("i1", "s2", "c1"); ("s1", "s2", "c1");
                      ("s1", "j1", "c1"); ("s2", "s1", "c1"); ("s2", "j1", "c1")];
     Pyomo.setW := [("s1", "s2"); ("s1", "j1"); ("s2", "s1"); ("s2", "j1")];
     Pyomo.setWxC := [("s1", "s2", "c1"); ("s1", "j1", "c1"); ("s2", "s1", "c1");
                      ("s2", "j1", "c1")];
     Pyomo.f := Pyomo.Param [("i1", "c1")] [("i1", "c1", 1%Q)] None;
     Pyomo.g := Pyomo.Param [("j1", "c1")] [] (Some 1%Q);
     Pyomo.u_t := 1; Pyomo.u_x := 2 |}.

(** The chain [i1 -> s1 -> j1]; the second splitter is left unconnected. *)
Definition on_chain (p q : string) : bool :=
  ((p =? "i1") && (q =? "s1")) || ((p =? "s1") && (q =? "j1")).

Definition chain_assignment : Pyomo.assignment :=
  {| Pyomo.e := fun p q => if on_chain p q then 1%Z else 0%Z;
     Pyomo.t := fun p q _ => if on_chain p q then 1%Q else 0%Q;
     Pyomo.v := fun p q => if on_chain p q then 1%Q else 0%Q;
     Pyomo.n := fun s => if s =? "s1" then 1%Z else 0%Z;
     Pyomo.m := fun s => if s =? "s1" then 1%Z else 0%Z;
     Pyomo.x := fun s _ => if s =? "s1" then 1%Q else 0%Q;
     Pyomo.y := fun s _ => if s =? "s1" then 1%Q else 0%Q;
     Pyomo.z := fun _ => 0%Z;
     Pyomo.xe := fun s q _ => if on_chain s q then 1%Q else 0%Q;
     Pyomo.tz := fun _ _ _ => 0%Q |}.

(** The families of [constraints] that do not read a parameter; the two
    families of connection rules count with the relations they return. *)
Definition plain_family (mo : Pyomo.model) (a : Pyomo.assignment)
  (k : constraint) : Prop :=
  In k (Pyomo.over2 (Pyomo.define_volume_rule mo a) (Pyomo.setB mo))
  \/ In k (map (Pyomo.define_num_inputs_rule mo a) (Pyomo.setS mo))
  \/ In k (map (Pyomo.define_num_outputs_rule mo a) (Pyomo.setS mo))
  \/ In k (Pyomo.over2 (Pyomo.define_inflow_rule mo a) (Pyomo.setSxC mo))
  \/ In k (Pyomo.over2 (Pyomo.define_outflow_rule mo a) (Pyomo.setSxC mo))
  \/ In k (Pyomo.over3 (Pyomo.force_xe_1_rule mo a) (Pyomo.setWxC mo))
  \/ In k (Pyomo.over3 (Pyomo.force_xe_2_rule mo a) (Pyomo.setWxC mo))
  \/ In k (Pyomo.over3 (Pyomo.force_xe_3_rule mo a) (Pyomo.setWxC mo))
  \/ In k (Pyomo.over3 (Pyomo.force_tz_1_rule mo a) (Pyomo.setWxC mo))
  \/ In k (Pyomo.over3 (Pyomo.force_tz_2_rule mo a) (Pyomo.setWxC mo))
  \/ In k (Pyomo.over3 (Pyomo.force_tz_3_rule mo a) (Pyomo.setWxC mo))
  \/ In (Pyomo.Relational k) (map (Pyomo.connect_inbounds_rule mo a) (Pyomo.setI mo))
  \/ In (Pyomo.Relational k) (map (Pyomo.connect_outbounds_rule mo a) (Pyomo.setJ mo))
  \/ In k (Pyomo.over2 (Pyomo.respect_capacity_rule mo a) (Pyomo.setB mo))
  \/ In k (Pyomo.over2 (Pyomo.splitters_conserve_rule mo a) (Pyomo.setSxC mo))
  \/ In k (map (Pyomo.min_inputs_rule mo a) (Pyomo.setS mo))
  \/ In k (map (Pyomo.max_inputs_rule mo a) (Pyomo.setS mo))
  \/ In k (map (Pyomo.min_outputs_rule mo a) (Pyomo.setS mo))
  \/ In k (map (Pyomo.max_outputs_rule mo a) (Pyomo.setS mo))
  \/ In k (Pyomo.over3 (Pyomo.split_evenly_rule mo a) (Pyomo.setWxC mo)).


(** ** Supply and demand of one cargo

    Total inbound supply [sum over i of f[i, c]] and total outbound demand
    [sum over j of g[j, c]], read in the parameters of the model as the
    constraints read them. *)
Definition supply (mo : Pyomo.model) (c : string) : result Q :=
  vals <- mapM (fun i => Pyomo.param_get (Pyomo.f mo) i c) (Pyomo.setI mo) ;;
  Ok (sum vals).

Definition demand (mo : Pyomo.model) (c : string) : result Q :=
  vals <- mapM (fun j => Pyomo.param_get (Pyomo.g mo) j c) (Pyomo.setJ mo) ;;
  Ok (sum vals).

(** The exact quotients of the spec, [throughput / |I|] and
    [(throughput / |J|) / |C|], which the floats [t_in] and [t_out] round. *)
Definition exact_t_in (cfg : config) : Q :=
  (inject_Z (Pyomo.throughput cfg) / inject_Z (inbounds cfg))%Q.
Definition exact_t_out (cfg : config) : Q :=
  (inject_Z (Pyomo.throughput cfg) / inject_Z (outbounds cfg)
   / inject_Z (Pyomo.cargos cfg))%Q.

(** A rational that is a float: rounding leaves it as it is. *)
Definition is_float (q : Q) : Prop :=
  exists r, round64 q = Finite r /\ (r == q)%Q.

(** ** The rows that bound [t] and [x]

    The domains of [e] and [t] and the five constraint families from which
    the bounds on [t] and [x] follow; none of them mentions [u_t] or
    [u_x]. *)
Definition bounding_rows (mo : Pyomo.model) (a : Pyomo.assignment) : bool :=
  forallb (fun r => Pyomo.Binary (Pyomo.e a (fst r) (snd r))) (Pyomo.setB mo)
  && forallb (fun k => Pyomo.PercentFraction
                         (Pyomo.t a (fst (fst k)) (snd (fst k)) (snd k)))
       (Pyomo.setBxC mo)
  && forallb holds
       (Pyomo.over2 (Pyomo.define_volume_rule mo a) (Pyomo.setB mo)
        ++ map (Pyomo.define_num_inputs_rule mo a) (Pyomo.setS mo)
        ++ Pyomo.over2 (Pyomo.define_inflow_rule mo a) (Pyomo.setSxC mo)
        ++ Pyomo.over2 (Pyomo.respect_capacity_rule mo a) (Pyomo.setB mo)
        ++ map (Pyomo.max_inputs_rule mo a) (Pyomo.setS mo))%list.

(** ** The report of the result extractor, in the words of the spec

    The routes of [B] whose existence value is above [0.5], each with its
    resolved volume, in the order of [B]. *)
Definition above_half (var : option Q) : bool :=
  match var with
  | Some ev => negb (Qle_bool ev (1 # 2))
  | None => false
  end.

Definition reported (sol : Pyomo.solution) (B : list (string * string))
  : list (string * string * Q) :=
  flat_map (fun r =>
              match Pyomo.e_value sol (fst r) (snd r),
                    Pyomo.v_value sol (fst r) (snd r) with
              | Some ev, Some vv =>
                  if negb (Qle_bool ev (1 # 2)) then [(r, vv)] else []
              | _, _ => []
              end) B.

(** A solved assignment gives a value to [e] and [v] on every route of [B]. *)
Definition solved (sol : Pyomo.solution) (B : list (string * string)) : Prop :=
  forall p q, In (p, q) B ->
    Pyomo.e_value sol p q <> None /\ Pyomo.v_value sol p q <> None.

(** No variable holds a value: the solve was not run, or loaded nothing. *)
Definition unsolved : Pyomo.solution :=
  {| Pyomo.e_value := fun _ _ => None; Pyomo.v_value := fun _ _ => None |}.

(** The values of [chain_assignment], as a solver would load them. *)
Definition chain_solution : Pyomo.solution :=
  {| Pyomo.e_value := fun p q => Some (inject_Z (Pyomo.e chain_assignment p q));
     Pyomo.v_value := fun p q => Some (Pyomo.v chain_assignment p q) |}.

(** ** Definitions for the further properties *)

(** The value [f_init] of [sympy_system.py] gives to a pair of [IxC]. *)
Definition sympy_f_value (cfg : config) (ic : string * string) : Sympy.number :=
  match Pyomo.get_int (fst ic), Pyomo.get_int (snd ic) with
  | inr ni, inr nc => if (ni =? nc)%Z then Sympy.t_in cfg else Some 0%Q
  | _, _ => None
  end.

(** The values of an assignment, as the solver loads them into [e] and [v]. *)
Definition solution_of (a : Pyomo.assignment) : Pyomo.solution :=
  {| Pyomo.e_value := fun p q => Some (inject_Z (Pyomo.e a p q));
     Pyomo.v_value := fun p q => Some (Pyomo.v a p q) |}.

(** The float quotients of [pyomo_model_1.py] are the exact rationals of
    [sympy_system.py]: nothing is lost in the roundings. *)
Definition exact_traffic (cfg : config) : bool :=
  match Pyomo.derived cfg, Sympy.t_in cfg, Sympy.t_out cfg with
  | inr (Finite ti, Finite to), Some si, Some so =>
      Qeq_bool ti si && Qeq_bool to so
  | _, _, _ => false
  end.

(** The values of a Pyomo assignment on the symbols of [sympy_system.py]:
    the same on the routes of [B], zero on the bypasses and self-loops that
    only the unfiltered route set has. *)
Definition restrict (mo : Pyomo.model) (a : Pyomo.assignment) : Sympy.assignment :=
  {| Sympy.e := fun p q =>
       if mem_route (p, q) (Pyomo.setB mo) then Pyomo.e a p q else 0%Z;
     Sympy.t := fun p q c =>
       if mem_route (p, q) (Pyomo.setB mo) then Pyomo.t a p q c else 0%Q;
     Sympy.z := Pyomo.z a |}.

(** [sum] on the integers. *)
Definition zsum (l : list Z) : Z := fold_left Z.add l 0%Z.

(** The values of a solution of the symbolic system on the variables of the
    Pyomo model: [e], [t] and [z] as they are, [v], [n], [m], [x], [y] by
    the expressions that define them in [sympy_system.py], and the two
    auxiliary families by the products they stand for. *)
Definition lift (cfg : config) (sa : Sympy.assignment) : Pyomo.assignment :=
  {| Pyomo.e := Sympy.e sa;
     Pyomo.t := Sympy.t sa;
     Pyomo.v := Sympy.v cfg sa;
     Pyomo.n := fun s => zsum (map (fun p => Sympy.e sa p s) (Sympy.setP cfg));
     Pyomo.m := fun s => zsum (map (fun q => Sympy.e sa s q) (Sympy.setQ cfg));
     Pyomo.x := Sympy.x cfg sa;
     Pyomo.y := Sympy.y cfg sa;
     Pyomo.z := Sympy.z sa;
     Pyomo.xe := fun s q c => (Sympy.x cfg sa s c * inject_Z (Sympy.e sa s q))%Q;
     Pyomo.tz := fun s q c => (Sympy.t sa s q c * inject_Z (Sympy.z sa s))%Q |}.

(** The direct belt [i1 -> j1] carrying the whole cargo. *)
Definition direct_assignment : Sympy.assignment :=
  {| Sympy.e := fun _ _ => 1%Z; Sympy.t := fun _ _ _ => 1%Q;
     Sympy.z := fun _ => 0%Z |}.

(** The value read in a parameter at an index where the read succeeds. *)
Definition param_value (prm : Pyomo.param) (k : string * string) : Q :=
  match Pyomo.param_get prm (fst k) (snd k) with
  | inr v => v
  | inl _ => 0%Q
  end.

(** ** Two networks with a traffic of one third

    An assignment of the symbols of [sympy_system.py] given by the routes it
    builds, the traffic on them and the splitters that split; zero
    elsewhere. *)
Definition network (routes : list (string * string))
  (traffic : list (string * string * string * Q)) (splitting : list string)
  : Sympy.assignment :=
  {| Sympy.e := fun p q => if mem_route (p, q) routes then 1%Z else 0%Z;
     Sympy.t := fun p q c =>
       match find (fun k => Sympy.triple_eqb (fst k) (p, q, c)) traffic with
       | Some k => snd k
       | None => 0%Q
       end;
     Sympy.z := fun s => if existsb (String.eqb s) splitting then 1%Z else 0%Z |}.

(** The float nearest to one third, [0.3333333333333333]. *)
Definition float_third : Q := 6004799503160661 # 18014398509481984.

(** Three inbound belts merged into one outbound belt,
    [i1, i2 -> s1 -> s2 <- i3] and [s2 -> j1], each cargo at the float
    nearest to one third. *)
Definition merge_network : Sympy.assignment :=
  network [("i1", "s1"); ("i2", "s1"); ("s1", "s2"); ("i3", "s2"); ("s2", "j1")]
    [("i1", "s1", "c1", float_third); ("i2", "s1", "c2", float_third);
     ("s1", "s2", "c1", float_third); ("s1", "s2", "c2", float_third);
     ("i3", "s2", "c3", float_third);
     ("s2", "j1", "c1", float_third); ("s2", "j1", "c2", float_third);
     ("s2", "j1", "c3", float_third)]
    [].

(** One inbound belt split into three outbound belts: [s1] splits what it
    gets from [i1] and [s3] between [s2] and [s3], [s2] feeds [j1] and [j2],
    [s3] feeds [j3] and sends one third back to [s1]. *)
Definition loop_network : Sympy.assignment :=
  network [("i1", "s1"); ("s1", "s2"); ("s1", "s3"); ("s2", "j1"); ("s2", "j2");
           ("s3", "j3"); ("s3", "s1")]
    [("i1", "s1", "c1", 1%Q);
     ("s1", "s2", "c1", 2 # 3); ("s1", "s3", "c1", 2 # 3);
     ("s2", "j1", "c1", 1 # 3); ("s2", "j2", "c1", 1 # 3);
     ("s3", "j3", "c1", 1 # 3); ("s3", "s1", "c1", 1 # 3)]
    ["s1"; "s2"; "s3"].

(** * The embedding on concrete inputs *)

Example init_set_s3 : Pyomo.init_set "s" 3 = ["s1"; "s2"; "s3"].
Proof. reflexivity. Qed.

Example init_set_negative : Pyomo.init_set "s" (-2) = [].
Proof. reflexivity. Qed.

Example get_letter_s10 : Pyomo.get_letter "s10" = "s".
Proof. reflexivity. Qed.

Example get_int_s10 : Pyomo.get_int "s10" = Ok 10%Z.
Proof. reflexivity. Qed.

Example B_filter_bypass : Pyomo.B_filter "i1" "j2" = Ok false.
Proof. reflexivity. Qed.

Example B_filter_self_loop : Pyomo.B_filter "s12" "s12" = Ok false.
Proof. reflexivity. Qed.

Example B_filter_between_splitters : Pyomo.B_filter "s1" "s12" = Ok true.
Proof. reflexivity. Qed.

Example generate_1_1_2 : Pyomo.generate cfg_1_1_2 = Ok model_1_1_2.
Proof. vm_compute. reflexivity. Qed.

Example chain_is_feasible : Pyomo.feasible model_1_1_2 chain_assignment = true.
Proof. vm_compute. reflexivity. Qed.

Example chain_objective :
  (Pyomo.simultaneous_volume_rule model_1_1_2 chain_assignment == 2)%Q.
Proof. vm_compute. reflexivity. Qed.

(** The reference configuration: 18 x 18 candidate pairs, less 64 bypasses
    and 10 self-loops. *)
Example reference_route_count :
  match Pyomo.generate (Config 8 8 10) with
  | inr mo => length (Pyomo.setB mo) = 250%nat
  | inl _ => False
  end.
Proof. vm_compute. reflexivity. Qed.

Example sympy_default_parameters :
  Sympy.build_parameters (Config 1 3 3) =
  Ok (Sympy.Parameters
        [("i1", "c1", Some 1%Q)]
        [("j1", "c1", Some (1 # 3)%Q); ("j2", "c1", Some (1 # 3)%Q);
         ("j3", "c1", Some (1 # 3)%Q)]
        1 2).
Proof. vm_compute. reflexivity. Qed.

(** * Lemmas on the Python primitives *)


Lemma uint_digits (d : Decimal.uint) :
  all_in digits (NilEmpty.string_of_uint d).
Proof.
  induction d; intros a Ha; simpl in Ha; try contradiction;
    destruct Ha as [<- | Ha]; try reflexivity; apply IHd; exact Ha.
Qed.

Lemma str_digits (k : Z) : (0 <= k)%Z -> all_in digits (str k).
Proof.
  intros Hk. unfold str. destruct k as [| p | p]; try lia.
  - intros a [<- | []]. reflexivity.
  - simpl. unfold NilZero.string_of_uint.
    destruct (Pos.to_uint p) eqn:E; try apply uint_digits.
    intros a [<- | []]. reflexivity.
Qed.

Lemma int_str (k : Z) : int (str k) = Ok k.
Proof.
  unfold int, str. rewrite NilZero.isi.
  - now rewrite DecimalZ.of_to.
  - destruct k; simpl; try discriminate.
    intros H. injection H. apply Unsigned.to_uint_nonnil.
  - destruct k; simpl; try discriminate.
    intros H. injection H. apply Unsigned.to_uint_nonnil.
Qed.

Lemma rstrip_all (chars s : string) : all_in chars s -> rstrip chars s = "".
Proof.
  induction s as [| a s IH]; intros H; simpl; [reflexivity |].
  rewrite IH by (intros b Hb; apply H; now right).
  rewrite (H a) by now left. reflexivity.
Qed.

Lemma digit_not_letter (a : ascii) :
  mem a digits = true -> mem a ascii_letters = false.
Proof.
  intros H. simpl in H.
  repeat (apply orb_true_iff in H; destruct H as [H | H];
          [apply Ascii.eqb_eq in H; subst a; reflexivity |]).
  discriminate.
Qed.

Lemma lstrip_digits (s : string) :
  all_in digits s -> lstrip ascii_letters s = s.
Proof.
  destruct s as [| a s]; intros H; [reflexivity |].
  cbn [lstrip]. rewrite digit_not_letter; [reflexivity |].
  apply H. now left.
Qed.


Lemma get_letter_member (a : ascii) (k : Z) :
  is_letter a -> (0 <= k)%Z ->
  Pyomo.get_letter (String a "" ++ str k) = String a "".
Proof.
  intros [_ Ha] Hk. unfold Pyomo.get_letter. cbn [append rstrip].
  rewrite rstrip_all by now apply str_digits. now rewrite Ha.
Qed.

Lemma lstrip_member (a : ascii) (k : Z) :
  is_letter a -> (0 <= k)%Z ->
  lstrip ascii_letters (String a "" ++ str k) = str k.
Proof.
  intros [Ha _] Hk. cbn [append lstrip]. rewrite Ha.
  apply lstrip_digits. now apply str_digits.
Qed.

Lemma get_int_member (a : ascii) (k : Z) :
  is_letter a -> (0 <= k)%Z ->
  Pyomo.get_int (String a "" ++ str k) = Ok k.
Proof.
  intros Ha Hk. unfold Pyomo.get_int. rewrite lstrip_member by assumption.
  apply int_str.
Qed.

Lemma in_range (n k : Z) : In k (range n) <-> (0 <= k < n)%Z.
Proof.
  unfold range. rewrite in_map_iff. split.
  - intros (i & <- & Hi). apply in_seq in Hi. lia.
  - intros H. exists (Z.to_nat k). split; [lia |]. apply in_seq. lia.
Qed.

Lemma in_init_set (letter : string) (n : Z) (p : string) :
  In p (Pyomo.init_set letter n) <->
  exists k, (1 <= k <= n)%Z /\ p = letter ++ str k.
Proof.
  unfold Pyomo.init_set. rewrite in_map_iff. split.
  - intros (i & <- & Hi). apply in_range in Hi. exists (i + 1)%Z. split; [lia | reflexivity].
  - intros (k & Hk & ->). exists (k - 1)%Z. split.
    + f_equal. f_equal. lia.
    + apply in_range. lia.
Qed.

Lemma mem_str_In (x : string) (l : list string) : mem_str x l = true <-> In x l.
Proof.
  unfold mem_str. rewrite existsb_exists. split.
  - intros (y & Hy & E). apply String.eqb_eq in E. now subst.
  - intros H. exists x. split; [assumption | apply String.eqb_refl].
Qed.

Lemma route_eqb_eq (r1 r2 : string * string) : route_eqb r1 r2 = true <-> r1 = r2.
Proof.
  destruct r1 as [p1 q1], r2 as [p2 q2]. unfold route_eqb. cbn [fst snd].
  rewrite andb_true_iff, !String.eqb_eq. split.
  - intros [-> ->]. reflexivity.
  - intros [= -> ->]. split; reflexivity.
Qed.

Lemma mem_route_In (r : string * string) (l : list (string * string)) :
  mem_route r l = true <-> In r l.
Proof.
  unfold mem_route. rewrite existsb_exists. split.
  - intros (y & Hy & E). apply route_eqb_eq in E. now subst.
  - intros H. exists r. split; [assumption | now apply route_eqb_eq].
Qed.

Lemma in_union (a b : list string) (x : string) :
  In x (union a b) <-> In x a \/ In x b.
Proof.
  unfold union. rewrite in_app_iff, filter_In. split.
  - intros [H | [H _]]; [now left | now right].
  - intros [H | H]; [now left |].
    destruct (mem_str x a) eqn:E.
    + left. now apply mem_str_In.
    + right. split; [assumption | reflexivity].
Qed.

(** The error monad. *)

Lemma bind_Ok {A B : Type} (r : result A) (k : A -> result B) (b : B) :
  (x <- r ;; k x) = Ok b -> exists a, r = Ok a /\ k a = Ok b.
Proof.
  destruct r as [err | a]; simpl; intros H; [discriminate |].
  exists a. split; [reflexivity | assumption].
Qed.

Lemma filterM_In {A : Type} (h : A -> result bool) (l r : list A) :
  filterM h l = Ok r ->
  forall x, In x r <-> In x l /\ h x = Ok true.
Proof.
  revert r. induction l as [| a l IH]; intros r H x.
  - injection H as <-. simpl. tauto.
  - simpl in H. apply bind_Ok in H. destruct H as (b & Hb & H).
    apply bind_Ok in H. destruct H as (r' & Hr' & H).
    injection H as <-. specialize (IH r' Hr' x).
    destruct b; simpl; rewrite IH; split.
    + intros [<- | [H1 H2]]; [split; [now left | assumption] | split; [now right | assumption]].
    + intros [[<- | H1] H2]; [now left | right; now split].
    + intros [H1 H2]. split; [now right | assumption].
    + intros [[<- | H1] H2]; [rewrite Hb in H2; discriminate | now split].
Qed.

Lemma filterM_total {A : Type} (h : A -> result bool) (l : list A) :
  (forall x, In x l -> exists b, h x = Ok b) ->
  exists r, filterM h l = Ok r.
Proof.
  induction l as [| a l IH]; intros H.
  - exists []. reflexivity.
  - destruct (H a) as [b Hb]; [now left |].
    destruct IH as [r Hr]; [intros x Hx; apply H; now right |].
    simpl. rewrite Hb, Hr. simpl. eexists. reflexivity.
Qed.

Lemma mapM_total {A B : Type} (h : A -> result B) (l : list A) :
  (forall x, In x l -> exists y, h x = Ok y) ->
  exists r, mapM h l = Ok r.
Proof.
  induction l as [| a l IH]; intros H.
  - exists []. reflexivity.
  - destruct (H a) as [b Hb]; [now left |].
    destruct IH as [r Hr]; [intros x Hx; apply H; now right |].
    simpl. rewrite Hb, Hr. simpl. eexists. reflexivity.
Qed.

Lemma forM_total {A : Type} (h : A -> result unit) (l : list A) :
  (forall x, In x l -> h x = Ok tt) -> forM h l = Ok tt.
Proof.
  induction l as [| a l IH]; intros H; [reflexivity |].
  simpl. rewrite (H a) by now left. simpl. apply IH.
  intros x Hx. apply H. now right.
Qed.

(** Sums. *)

Lemma fold_left_Qplus_acc (l : list Q) (acc : Q) :
  (fold_left Qplus l acc == acc + fold_left Qplus l 0)%Q.
Proof.
  revert acc. induction l as [| a l IH]; intros acc; simpl.
  - ring.
  - rewrite IH, (IH (0 + a)%Q). ring.
Qed.

Lemma sum_nil : sum [] = 0%Q.
Proof. reflexivity. Qed.

Lemma sum_cons (a : Q) (l : list Q) : (sum (a :: l) == a + sum l)%Q.
Proof.
  unfold sum. simpl. rewrite fold_left_Qplus_acc. ring.
Qed.

Lemma sum_map_le {A : Type} (h1 h2 : A -> Q) (l : list A) :
  (forall k, In k l -> h1 k <= h2 k)%Q ->
  (sum (map h1 l) <= sum (map h2 l))%Q.
Proof.
  induction l as [| a l IH]; intros H; simpl.
  - rewrite sum_nil. lra.
  - rewrite !sum_cons.
    assert (h1 a <= h2 a)%Q by (apply H; now left).
    assert (sum (map h1 l) <= sum (map h2 l))%Q
      by (apply IH; intros k Hk; apply H; now right).
    lra.
Qed.

Lemma sum_map_nonneg {A : Type} (h : A -> Q) (l : list A) :
  (forall k, In k l -> 0 <= h k)%Q -> (0 <= sum (map h l))%Q.
Proof.
  induction l as [| a l IH]; intros H; simpl.
  - rewrite sum_nil. lra.
  - rewrite sum_cons.
    assert (0 <= h a)%Q by (apply H; now left).
    assert (0 <= sum (map h l))%Q by (apply IH; intros k Hk; apply H; now right).
    lra.
Qed.

Lemma sum_map_term_le {A : Type} (h : A -> Q) (l : list A) (k : A) :
  (forall j, In j l -> 0 <= h j)%Q -> In k l -> (h k <= sum (map h l))%Q.
Proof.
  induction l as [| a l IH]; intros H Hk; [contradiction |].
  simpl. rewrite sum_cons. destruct Hk as [-> | Hk].
  - assert (0 <= sum (map h l))%Q
      by (apply sum_map_nonneg; intros j Hj; apply H; now right).
    lra.
  - assert (h k <= sum (map h l))%Q
      by (apply IH; [intros j Hj; apply H; now right | assumption]).
    assert (0 <= h a)%Q by (apply H; now left).
    lra.
Qed.

(** * The generated index sets *)

Lemma member_facts (a : ascii) (n : Z) (p : string) :
  is_letter a -> In p (Pyomo.init_set (String a "") n) ->
  Pyomo.get_letter p = String a "" /\
  exists k, (1 <= k <= n)%Z /\ Pyomo.get_int p = Ok k /\ p = String a "" ++ str k.
Proof.
  intros Ha Hp. apply in_init_set in Hp. destruct Hp as (k & Hk & ->). split.
  - apply get_letter_member; [assumption | lia].
  - exists k. repeat split; try lia. apply get_int_member; [assumption | lia].
Qed.

Lemma letter_i : is_letter "i". Proof. split; reflexivity. Qed.
Lemma letter_j : is_letter "j". Proof. split; reflexivity. Qed.
Lemma letter_s : is_letter "s". Proof. split; reflexivity. Qed.
Lemma letter_c : is_letter "c". Proof. split; reflexivity. Qed.

(** What [generate] leaves in the model when it succeeds. *)
Lemma generate_inv (cfg : config) (mo : Pyomo.model) :
  Pyomo.generate cfg = Ok mo ->
  exists ti to,
    Pyomo.derived cfg = Ok (ti, to) /\
    Pyomo.setI mo = Pyomo.init_set "i" (inbounds cfg) /\
    Pyomo.setJ mo = Pyomo.init_set "j" (outbounds cfg) /\
    Pyomo.setS mo = Pyomo.init_set "s" (splitters cfg) /\
    Pyomo.setC mo = Pyomo.init_set "c" (Pyomo.cargos cfg) /\
    Pyomo.setP mo = union (Pyomo.setI mo) (Pyomo.setS mo) /\
    Pyomo.setQ mo = union (Pyomo.setS mo) (Pyomo.setJ mo) /\
    filterM (fun r => Pyomo.B_filter (fst r) (snd r))
      (list_prod (Pyomo.setP mo) (Pyomo.setQ mo)) = Ok (Pyomo.setB mo) /\
    Pyomo.setIxC mo = list_prod (Pyomo.setI mo) (Pyomo.setC mo) /\
    Pyomo.setJxC mo = list_prod (Pyomo.setJ mo) (Pyomo.setC mo) /\
    Pyomo.setSxC mo = list_prod (Pyomo.setS mo) (Pyomo.setC mo) /\
    Pyomo.setBxC mo = list_prod (Pyomo.setB mo) (Pyomo.setC mo) /\
    Pyomo.setW mo =
      filter (fun r => mem_route r (Pyomo.setB mo))
        (list_prod (Pyomo.setS mo) (Pyomo.setQ mo)) /\
    Pyomo.setWxC mo = list_prod (Pyomo.setW mo) (Pyomo.setC mo) /\
    mapM (fun ic =>
            v <- Pyomo.f_init ti (fst ic) (snd ic) ;;
            r <- Pyomo.validate Pyomo.PercentFraction v ;;
            Ok (ic, r))
      (Pyomo.setIxC mo) = Ok (Pyomo.data (Pyomo.f mo)) /\
    Pyomo.index (Pyomo.f mo) = Pyomo.setIxC mo /\
    (exists go, Pyomo.validate Pyomo.PercentFraction to = Ok go /\
                Pyomo.g mo = Pyomo.Param (Pyomo.setJxC mo) [] (Some go)) /\
    Pyomo.u_t mo = 1%Q /\ Pyomo.u_x mo = 2%Q.
Proof.
  unfold Pyomo.generate. intros H.
  apply bind_Ok in H. destruct H as ([ti to] & Hd & H).
  apply bind_Ok in H. destruct H as (B & HB & H).
  apply bind_Ok in H. destruct H as (fd & Hf & H).
  apply bind_Ok in H. destruct H as (go & Hgo & H).
  cbn in H. injection H as <-. cbn.
  exists ti, to. repeat split; try assumption.
  exists go. split; [assumption | reflexivity].
Qed.

(** [B_filter] on the members of the composite sets [P] and [Q]. *)
Lemma B_filter_members (ni nj ns : Z) (p q : string) :
  let I := Pyomo.init_set "i" ni in
  let J := Pyomo.init_set "j" nj in
  let S := Pyomo.init_set "s" ns in
  In p (union I S) -> In q (union S J) ->
  exists b, Pyomo.B_filter p q = Ok b /\
    (b = true <-> ~ (In p I /\ In q J) /\ ~ (p = q /\ In p S)).
Proof.
  intros I J S Hp Hq.
  apply in_union in Hp. apply in_union in Hq.
  assert (LI : forall r, In r I -> Pyomo.get_letter r = "i")
    by (intros r Hr; now apply (member_facts _ _ _ letter_i) in Hr).
  assert (LJ : forall r, In r J -> Pyomo.get_letter r = "j")
    by (intros r Hr; now apply (member_facts _ _ _ letter_j) in Hr).
  assert (LS : forall r, In r S ->
             Pyomo.get_letter r = "s" /\
             exists k, Pyomo.get_int r = Ok k /\ r = "s" ++ str k).
  { intros r Hr. apply (member_facts _ _ _ letter_s) in Hr.
    destruct Hr as (Hl & k & _ & Hk & E). split; [assumption | now exists k]. }
  unfold Pyomo.B_filter.
  destruct Hp as [Hp | Hp], Hq as [Hq | Hq].
  - (* inbound to splitter *)
    rewrite (LI p Hp). destruct (LS q Hq) as [-> _]. cbn.
    exists true. split; [reflexivity |]. split; [intros _ | reflexivity].
    split.
    + intros [_ Hq']. apply LJ in Hq'. destruct (LS q Hq) as [E _].
      rewrite E in Hq'. discriminate.
    + intros [_ Hp']. apply LS in Hp'. destruct Hp' as [E _].
      rewrite (LI p Hp) in E. discriminate.
  - (* inbound to outbound *)
    rewrite (LI p Hp), (LJ q Hq). cbn.
    exists false. split; [reflexivity |]. split; [discriminate |].
    intros [H _]. exfalso. apply H. now split.
  - (* splitter to splitter *)
    destruct (LS p Hp) as (Ep & kp & Gp & Np).
    destruct (LS q Hq) as (Eq & kq & Gq & Nq).
    rewrite Ep, Eq, Gp, Gq. cbn.
    destruct (Z.eqb_spec kp kq) as [Hk | Hk].
    + exists false. split; [reflexivity |]. split; [discriminate |].
      intros [_ H]. exfalso. apply H. split; [congruence | assumption].
    + exists true. split; [reflexivity |]. split; [intros _ | reflexivity].
      split.
      * intros [Hp' _]. apply LI in Hp'. rewrite Ep in Hp'. discriminate.
      * intros [E _]. apply Hk. rewrite E in Gp.
        rewrite Gp in Gq. now injection Gq.
  - (* splitter to outbound *)
    destruct (LS p Hp) as (Ep & _). rewrite Ep, (LJ q Hq). cbn.
    exists true. split; [reflexivity |]. split; [intros _ | reflexivity].
    split.
    + intros [Hp' _]. apply LI in Hp'. rewrite Ep in Hp'. discriminate.
    + intros [E _]. rewrite E in Ep. rewrite (LJ q Hq) in Ep. discriminate.
Qed.

(** The route set of a generated model: a pair of [P x Q] is kept exactly
    when it is neither a bypass nor a self-loop. *)
Lemma generated_B (cfg : config) (mo : Pyomo.model) (p q : string) :
  Pyomo.generate cfg = Ok mo ->
  In p (Pyomo.setP mo) -> In q (Pyomo.setQ mo) ->
  (In (p, q) (Pyomo.setB mo) <->
   ~ (In p (Pyomo.setI mo) /\ In q (Pyomo.setJ mo)) /\
   ~ (p = q /\ In p (Pyomo.setS mo))).
Proof.
  intros Hg Hp Hq.
  destruct (generate_inv cfg mo Hg)
    as (ti & to & _ & HI & HJ & HS & _ & HP & HQ & HB & _).
  rewrite (filterM_In _ _ _ HB). cbn [fst snd].
  rewrite HP, HI, HS in Hp. rewrite HQ, HS, HJ in Hq.
  destruct (B_filter_members _ _ _ p q Hp Hq) as (b & Hb & Hspec).
  rewrite HI, HJ, HS, <- Hspec, Hb. split.
  - intros [_ E]. now injection E.
  - intros ->. split; [| reflexivity].
    apply in_prod; [rewrite HP, HI, HS | rewrite HQ, HS, HJ]; assumption.
Qed.

Lemma generated_B_sub (cfg : config) (mo : Pyomo.model) (p q : string) :
  Pyomo.generate cfg = Ok mo ->
  In (p, q) (Pyomo.setB mo) -> In p (Pyomo.setP mo) /\ In q (Pyomo.setQ mo).
Proof.
  intros Hg H.
  destruct (generate_inv cfg mo Hg) as (ti & to & _ & _ & _ & _ & _ & _ & _ & HB & _).
  apply (filterM_In _ _ _ HB) in H. destruct H as [H _].
  now apply in_prod_iff in H.
Qed.

(** Rational facts for the traffic values. *)

Lemma inject_Z_nonzero (k : Z) : k <> 0%Z -> Qeq_bool (inject_Z k) 0 = false.
Proof.
  intros Hk. destruct (Qeq_bool (inject_Z k) 0) eqn:E; [| reflexivity].
  apply Qeq_bool_eq in E. unfold Qeq in E. simpl in E. lia.
Qed.

Lemma Qdiv_fraction (a b : Q) :
  (0 < b -> 0 <= a -> a <= b -> 0 <= a / b /\ a / b <= 1)%Q.
Proof.
  intros Hb Ha Hab. split.
  - apply Qle_shift_div_l; [assumption | lra].
  - apply Qle_shift_div_r; [assumption | lra].
Qed.

Lemma Qdiv_pos (a b : Q) : (0 < b -> 0 < a -> 0 < a / b)%Q.
Proof.
  intros Hb Ha. apply Qlt_shift_div_l; [assumption | lra].
Qed.

(** * Floats *)

Lemma pow2_pos (e : Z) : 0 < 2 ^ e.
Proof. apply Qpower_0_lt. reflexivity. Qed.

Lemma pow2_add (a b : Z) : 2 ^ (a + b) == 2 ^ a * 2 ^ b.
Proof. apply Qpower_plus. discriminate. Qed.

Lemma pow2_le (a b : Z) : (a <= b)%Z -> 2 ^ a <= 2 ^ b.
Proof. intros H. apply Qpower_le_compat_l; [assumption | discriminate]. Qed.

Lemma pow2_lt (a b : Z) : (a < b)%Z -> 2 ^ a < 2 ^ b.
Proof. intros H. apply Qpower_lt_compat_l; [assumption | reflexivity]. Qed.

Lemma pow2_Z (n : Z) : (0 <= n)%Z -> inject_Z (2 ^ n) == 2 ^ n.
Proof. intros H. now rewrite Zpower_Qpower. Qed.

Lemma pow2_cancel (e : Z) : 2 ^ (- e) * 2 ^ e == 1.
Proof. rewrite <- pow2_add. now replace (- e + e)%Z with 0%Z by lia. Qed.

(** [x / 2^e <= y] as [x <= y * 2^e]. *)
Lemma scale_le (x y : Q) (e : Z) : x / 2 ^ e <= y <-> x <= y * 2 ^ e.
Proof.
  split; intros H.
  - apply (Qmult_le_r _ _ (/ 2 ^ e)); [apply Qinv_lt_0_compat, pow2_pos |].
    rewrite <- Qmult_assoc, Qmult_inv_r, Qmult_1_r; [exact H |].
    pose proof (pow2_pos e). lra.
  - apply Qle_shift_div_r; [apply pow2_pos | exact H].
Qed.

Lemma scale_ge (x y : Q) (e : Z) : y <= x / 2 ^ e <-> y * 2 ^ e <= x.
Proof.
  split; intros H.
  - apply (Qmult_le_r _ _ (/ 2 ^ e)); [apply Qinv_lt_0_compat, pow2_pos |].
    rewrite <- Qmult_assoc, Qmult_inv_r, Qmult_1_r; [exact H |].
    pose proof (pow2_pos e). lra.
  - apply Qle_shift_div_l; [apply pow2_pos | exact H].
Qed.

Lemma scale_lt (x y : Q) (e : Z) : x / 2 ^ e < y <-> x < y * 2 ^ e.
Proof.
  split; intros H.
  - apply (Qmult_lt_r _ _ (/ 2 ^ e)); [apply Qinv_lt_0_compat, pow2_pos |].
    rewrite <- Qmult_assoc, Qmult_inv_r, Qmult_1_r; [exact H |].
    pose proof (pow2_pos e). lra.
  - apply Qlt_shift_div_r; [apply pow2_pos | exact H].
Qed.

(** [floor_log2 q] is the integer part of the binary logarithm. *)
Lemma floor_log2_spec (q : Q) :
  0 < q -> 2 ^ floor_log2 q <= q /\ q < 2 ^ (floor_log2 q + 1).
Proof.
  intros Hq. unfold floor_log2.
  destruct q as [n d]. cbn [Qnum Qden].
  assert (Hn : (0 < n)%Z) by (unfold Qlt in Hq; simpl in Hq; lia).
  set (ln := Z.log2 n). set (ld := Z.log2 (Zpos d)).
  destruct (Z.log2_spec n Hn) as [Hn1 Hn2]. fold ln in Hn1, Hn2.
  destruct (Z.log2_spec (Zpos d) (Pos2Z.is_pos d)) as [Hd1 Hd2].
  fold ld in Hd1, Hd2.
  assert (Hln : (0 <= ln)%Z) by apply Z.log2_nonneg.
  assert (Hld : (0 <= ld)%Z) by apply Z.log2_nonneg.
  assert (Qn1 : 2 ^ ln <= inject_Z n)
    by (rewrite <- pow2_Z by lia; now rewrite <- Zle_Qle).
  assert (Qn2 : inject_Z n < 2 ^ (ln + 1))
    by (rewrite <- pow2_Z by lia; now rewrite <- Zlt_Qlt).
  assert (Qd1 : 2 ^ ld <= inject_Z (Zpos d))
    by (rewrite <- pow2_Z by lia; now rewrite <- Zle_Qle).
  assert (Qd2 : inject_Z (Zpos d) < 2 ^ (ld + 1))
    by (rewrite <- pow2_Z by lia; now rewrite <- Zlt_Qlt).
  assert (Qd0 : 0 < inject_Z (Zpos d)) by reflexivity.
  assert (E : n # d == inject_Z n / inject_Z (Zpos d)) by apply Qmake_Qdiv.
  assert (Up : n # d < 2 ^ (ln - ld + 1)).
  { rewrite E. apply Qlt_shift_div_r; [assumption |].
    apply Qlt_le_trans with (2 ^ (ln + 1)); [assumption |].
    replace (ln + 1)%Z with ((ln - ld + 1) + ld)%Z by lia.
    rewrite pow2_add. apply Qmult_le_l; [apply pow2_pos | assumption]. }
  assert (Lo : 2 ^ (ln - ld - 1) <= n # d).
  { rewrite E. apply Qle_shift_div_l; [assumption |].
    apply Qle_trans with (2 ^ ln); [| assumption].
    replace ln with ((ln - ld - 1) + (ld + 1))%Z at 2 by lia.
    rewrite pow2_add. apply Qmult_le_l; [apply pow2_pos |].
    now apply Qlt_le_weak. }
  destruct (Qle_bool (2 ^ (ln - ld)) (n # d)) eqn:B.
  - apply Qle_bool_iff in B. split; assumption.
  - split; [assumption |].
    replace (ln - ld - 1 + 1)%Z with (ln - ld)%Z by lia.
    apply Qnot_le_lt. intros H. apply Qle_bool_iff in H. congruence.
Qed.

Lemma inject_Z_pred (N : Z) : inject_Z (N - 1) == inject_Z N - 1.
Proof. unfold Z.sub. rewrite inject_Z_plus. reflexivity. Qed.

(** Rounding to the nearest integer, ties to even. *)
Lemma round_half_even_floor (q : Q) :
  (Qfloor q <= round_half_even q <= Qfloor q + 1)%Z.
Proof.
  unfold round_half_even.
  destruct (Qcompare (q - inject_Z (Qfloor q)) (1 # 2)); [| lia | lia].
  destruct (Z.even (Qfloor q)); lia.
Qed.

Lemma round_half_even_ge (q : Q) (N : Z) :
  inject_Z N <= q -> (N <= round_half_even q)%Z.
Proof.
  intros H. pose proof (round_half_even_floor q) as [H1 _].
  apply Qfloor_resp_le in H. rewrite Qfloor_Z in H. lia.
Qed.

Lemma round_half_even_le (q : Q) (N : Z) :
  q <= inject_Z N -> (round_half_even q <= N)%Z.
Proof.
  intros H. pose proof (Qfloor_resp_le _ _ H) as Hf. rewrite Qfloor_Z in Hf.
  unfold round_half_even.
  destruct (Z.eq_dec (Qfloor q) N) as [E | E].
  - assert (Hlt : q - inject_Z (Qfloor q) < 1 # 2).
    { rewrite E. pose proof (Qfloor_le q) as Hq. rewrite E in Hq. lra. }
    destruct (Qcompare_spec (q - inject_Z (Qfloor q)) (1 # 2)) as [C | C | C];
      [lra | lia | lra].
  - destruct (Qcompare (q - inject_Z (Qfloor q)) (1 # 2)); [| lia | lia].
    destruct (Z.even (Qfloor q)); lia.
Qed.

(** Below a half-integer the rounding stays below it. *)
Lemma round_half_even_below (q : Q) (N : Z) :
  q < inject_Z N - (1 # 2) -> (round_half_even q <= N - 1)%Z.
Proof.
  intros H.
  assert (Hf : (Qfloor q <= N - 1)%Z).
  { assert (Hq : inject_Z (Qfloor q) < inject_Z N)
      by (pose proof (Qfloor_le q); lra).
    rewrite <- Zlt_Qlt in Hq. lia. }
  unfold round_half_even.
  destruct (Z.eq_dec (Qfloor q) (N - 1)) as [E | E].
  - assert (Hlt : q - inject_Z (Qfloor q) < 1 # 2).
    { rewrite E, inject_Z_pred. lra. }
    destruct (Qcompare_spec (q - inject_Z (Qfloor q)) (1 # 2)) as [C | C | C];
      [lra | lia | lra].
  - destruct (Qcompare (q - inject_Z (Qfloor q)) (1 # 2)); [| lia | lia].
    destruct (Z.even (Qfloor q)); lia.
Qed.

(** From a half-integer below an even integer on, the rounding reaches it. *)
Lemma round_half_even_above (q : Q) (N : Z) :
  Z.even N = true -> inject_Z N - (1 # 2) <= q -> (N <= round_half_even q)%Z.
Proof.
  intros HN H.
  assert (Hf : (N - 1 <= Qfloor q)%Z).
  { assert (Hq : inject_Z (N - 1) <= q).
    { rewrite inject_Z_pred. lra. }
    apply Qfloor_resp_le in Hq. now rewrite Qfloor_Z in Hq. }
  pose proof (round_half_even_floor q) as [H1 _].
  destruct (Z.eq_dec (Qfloor q) (N - 1)) as [E | E]; [| lia].
  unfold round_half_even. rewrite E.
  assert (Hodd : Z.even (N - 1) = false).
  { rewrite Z.even_sub, HN. reflexivity. }
  assert (Hge : 1 # 2 <= q - inject_Z (N - 1)).
  { rewrite inject_Z_pred. lra. }
  destruct (Qcompare_spec (q - inject_Z (N - 1)) (1 # 2)) as [C | C | C].
  - rewrite Hodd. lia.
  - lra.
  - lia.
Qed.

(** ** The rounding of a positive rational *)

Lemma floor_log2_le (a : Q) (k : Z) : 0 < a -> a < 2 ^ k -> (floor_log2 a < k)%Z.
Proof.
  intros Ha H. destruct (floor_log2_spec a Ha) as [H1 _].
  apply (Qpower_lt_compat_l_inv 2); [| reflexivity].
  now apply Qle_lt_trans with a.
Qed.

Lemma floor_log2_ge (a : Q) (k : Z) : 0 < a -> 2 ^ k <= a -> (k <= floor_log2 a)%Z.
Proof.
  intros Ha H. destruct (floor_log2_spec a Ha) as [_ H2].
  assert (Hlt : 2 ^ k < 2 ^ (floor_log2 a + 1)) by now apply Qle_lt_trans with a.
  apply Qpower_lt_compat_l_inv in Hlt; [lia | reflexivity].
Qed.

Lemma round_magnitude_nonneg (a : Q) : 0 <= a -> 0 <= round_magnitude a.
Proof.
  intros Ha. unfold round_magnitude.
  apply Qmult_le_0_compat; [| apply Qlt_le_weak, pow2_pos].
  change 0 with (inject_Z 0). rewrite <- Zle_Qle.
  apply round_half_even_ge. change (inject_Z 0) with 0.
  apply Qle_shift_div_l; [apply pow2_pos | lra].
Qed.

(** The scaled value has at most 53 bits before rounding, hence after. *)
Lemma round_magnitude_mantissa (a : Q) :
  0 < a -> (round_half_even (a / 2 ^ ulp_exponent a) <= 2 ^ 53)%Z.
Proof.
  intros Ha. apply round_half_even_le. rewrite pow2_Z by lia.
  apply scale_le. rewrite <- pow2_add.
  destruct (floor_log2_spec a Ha) as [_ H2].
  apply Qlt_le_weak, Qlt_le_trans with (2 ^ (floor_log2 a + 1)); [assumption |].
  apply pow2_le. unfold ulp_exponent. lia.
Qed.

Lemma round_magnitude_le_one (a : Q) : 0 < a -> a <= 1 -> round_magnitude a <= 1.
Proof.
  intros Ha H1. unfold round_magnitude.
  set (e := ulp_exponent a).
  assert (He : (e <= 0)%Z).
  { assert (floor_log2 a < 1)%Z by (apply floor_log2_le; [assumption | lra]).
    unfold e, ulp_exponent. lia. }
  assert (Hm : (round_half_even (a / 2 ^ e) <= 2 ^ (- e))%Z).
  { apply round_half_even_le. rewrite pow2_Z by lia.
    apply scale_le. now rewrite pow2_cancel. }
  rewrite Zle_Qle, pow2_Z in Hm by lia.
  rewrite <- (pow2_cancel e).
  apply Qmult_le_compat_r; [assumption | apply Qlt_le_weak, pow2_pos].
Qed.

Lemma round_magnitude_ge_one (a : Q) : 1 <= a -> 1 <= round_magnitude a.
Proof.
  intros H1. assert (Ha : 0 < a) by lra.
  unfold round_magnitude.
  assert (Hf : (0 <= floor_log2 a)%Z) by (apply floor_log2_ge; [assumption | lra]).
  assert (E : ulp_exponent a = (floor_log2 a - 52)%Z)
    by (unfold ulp_exponent; lia).
  rewrite E.
  assert (Hm : (2 ^ 52 <= round_half_even (a / 2 ^ (floor_log2 a - 52)))%Z).
  { apply round_half_even_ge. rewrite pow2_Z by lia.
    apply scale_ge. rewrite <- pow2_add.
    replace (52 + (floor_log2 a - 52))%Z with (floor_log2 a) by lia.
    apply (floor_log2_spec a Ha). }
  rewrite Zle_Qle, pow2_Z in Hm by lia.
  apply Qle_trans with (2 ^ 52 * 2 ^ (floor_log2 a - 52)).
  - rewrite <- pow2_add.
    replace (52 + (floor_log2 a - 52))%Z with (floor_log2 a) by lia.
    change 1 with (2 ^ 0). now apply pow2_le.
  - apply Qmult_le_compat_r; [assumption | apply Qlt_le_weak, pow2_pos].
Qed.

(** The least rational that rounds to [2 ^ 1024]. *)
Lemma overflow_threshold : (2 ^ 53 - (1 # 2)) * 2 ^ 971 == 2 ^ 1024 - 2 ^ 970.
Proof.
  assert (E1 : 2 ^ 1024 == 2 ^ 53 * 2 ^ 971) by (rewrite <- pow2_add; reflexivity).
  assert (E2 : 2 ^ 971 == 2 * 2 ^ 970)
    by (change 2 with (2 ^ 1) at 2; rewrite <- pow2_add; reflexivity).
  rewrite E1. set (u := 2 ^ 53) in *. rewrite E2. set (w := 2 ^ 970) in *.
  ring.
Qed.

Lemma round_magnitude_finite (a : Q) :
  0 < a -> a < 2 ^ 1024 - 2 ^ 970 -> round_magnitude a < 2 ^ 1024.
Proof.
  intros Ha HL.
  assert (Hf : (floor_log2 a < 1024)%Z).
  { apply floor_log2_le; [assumption |]. pose proof (pow2_pos 970). lra. }
  pose proof (round_magnitude_mantissa a Ha) as Hm.
  unfold round_magnitude. set (e := ulp_exponent a) in *.
  assert (He : (e <= 971)%Z) by (unfold e, ulp_exponent; lia).
  destruct (Z.eq_dec e 971) as [E | E].
  - rewrite E in *.
    assert (Hb : (round_half_even (a / 2 ^ 971) <= 2 ^ 53 - 1)%Z).
    { apply round_half_even_below. rewrite pow2_Z by lia.
      apply scale_lt. now rewrite overflow_threshold. }
    rewrite Zle_Qle, inject_Z_pred, pow2_Z in Hb by lia.
    apply Qle_lt_trans with ((2 ^ 53 - 1) * 2 ^ 971).
    + apply Qmult_le_compat_r; [assumption | apply Qlt_le_weak, pow2_pos].
    + assert (E1 : 2 ^ 1024 == 2 ^ 53 * 2 ^ 971)
        by (rewrite <- pow2_add; reflexivity).
      rewrite E1. pose proof (pow2_pos 971).
      set (u := 2 ^ 53) in *. set (w := 2 ^ 971) in *. nra.
  - rewrite Zle_Qle, pow2_Z in Hm by lia.
    apply Qle_lt_trans with (2 ^ 53 * 2 ^ e).
    + apply Qmult_le_compat_r; [assumption | apply Qlt_le_weak, pow2_pos].
    + rewrite <- pow2_add. apply pow2_lt. lia.
Qed.

Lemma round_magnitude_overflow (a : Q) :
  2 ^ 1024 - 2 ^ 970 <= a -> 2 ^ 1024 <= round_magnitude a.
Proof.
  intros HL.
  assert (H1023 : 2 ^ 1023 <= 2 ^ 1024 - 2 ^ 970).
  { assert (E1 : 2 ^ 1024 == 2 * 2 ^ 1023)
      by (change 2 with (2 ^ 1) at 2; rewrite <- pow2_add; reflexivity).
    pose proof (pow2_lt 970 1023 ltac:(lia)). rewrite E1.
    set (u := 2 ^ 1023) in *. set (w := 2 ^ 970) in *. lra. }
  assert (Ha : 0 < a) by (pose proof (pow2_pos 1023); lra).
  assert (Hf : (1023 <= floor_log2 a)%Z)
    by (apply floor_log2_ge; [assumption | lra]).
  unfold round_magnitude.
  assert (E : ulp_exponent a = (floor_log2 a - 52)%Z)
    by (unfold ulp_exponent; lia).
  rewrite E.
  destruct (Z.eq_dec (floor_log2 a) 1023) as [F | F].
  - rewrite F. change (1023 - 52)%Z with 971%Z.
    assert (Hm : (2 ^ 53 <= round_half_even (a / 2 ^ 971))%Z).
    { apply round_half_even_above; [reflexivity |]. rewrite pow2_Z by lia.
      apply scale_ge. now rewrite overflow_threshold. }
    rewrite Zle_Qle, pow2_Z in Hm by lia.
    apply Qle_trans with (2 ^ 53 * 2 ^ 971).
    + rewrite <- pow2_add. apply Qle_refl.
    + apply Qmult_le_compat_r; [assumption | apply Qlt_le_weak, pow2_pos].
  - assert (Hm : (2 ^ 52 <= round_half_even (a / 2 ^ (floor_log2 a - 52)))%Z).
    { apply round_half_even_ge. rewrite pow2_Z by lia.
      apply scale_ge. rewrite <- pow2_add.
      replace (52 + (floor_log2 a - 52))%Z with (floor_log2 a) by lia.
      apply (floor_log2_spec a Ha). }
    rewrite Zle_Qle, pow2_Z in Hm by lia.
    apply Qle_trans with (2 ^ 52 * 2 ^ (floor_log2 a - 52)).
    + rewrite <- pow2_add. apply pow2_le. lia.
    + apply Qmult_le_compat_r; [assumption | apply Qlt_le_weak, pow2_pos].
Qed.

(** ** The float nearest to a rational *)

Lemma round64_fraction (q : Q) :
  0 <= q <= 1 -> exists r, round64 q = Finite r /\ 0 <= r <= 1.
Proof.
  intros [H0 H1]. unfold round64.
  destruct (Qeq_bool q 0) eqn:E0; [exists 0; split; [reflexivity | lra] |].
  apply Qeq_bool_neq in E0.
  assert (Hq : 0 < q) by (apply Qnot_le_lt; intros H; apply E0; lra).
  assert (Ha : Qabs q == q) by (apply Qabs_pos; lra).
  assert (Hr1 : round_magnitude (Qabs q) <= 1)
    by (apply round_magnitude_le_one; rewrite Ha; assumption).
  assert (Hr0 : 0 <= round_magnitude (Qabs q))
    by (apply round_magnitude_nonneg, Qabs_nonneg).
  assert (Hbig : 1 < 2 ^ 1024) by (change 1 with (2 ^ 0); now apply pow2_lt).
  destruct (Qle_bool (2 ^ 1024) (round_magnitude (Qabs q))) eqn:Ov.
  - apply Qle_bool_iff in Ov. set (w := 2 ^ 1024) in *. lra.
  - assert (Hs : Qle_bool 0 q = true) by now apply Qle_bool_iff.
    rewrite Hs. eexists. split; [reflexivity |]. rewrite Qred_correct. lra.
Qed.

Lemma round64_ge_one (q : Q) :
  1 <= q -> q < 2 ^ 1024 - 2 ^ 970 ->
  exists r, round64 q = Finite r /\ 1 <= r.
Proof.
  intros H1 HL. unfold round64.
  assert (Hq : 0 < q) by lra.
  destruct (Qeq_bool q 0) eqn:E0; [apply Qeq_bool_eq in E0; lra |].
  assert (Ha : Qabs q == q) by (apply Qabs_pos; lra).
  assert (Hr1 : 1 <= round_magnitude (Qabs q))
    by (apply round_magnitude_ge_one; rewrite Ha; assumption).
  assert (Hr2 : round_magnitude (Qabs q) < 2 ^ 1024)
    by (apply round_magnitude_finite; rewrite Ha; assumption).
  destruct (Qle_bool (2 ^ 1024) (round_magnitude (Qabs q))) eqn:Ov.
  - apply Qle_bool_iff in Ov. set (w := 2 ^ 1024) in *. lra.
  - assert (Hs : Qle_bool 0 q = true) by (apply Qle_bool_iff; lra).
    rewrite Hs. eexists. split; [reflexivity |]. rewrite Qred_correct. lra.
Qed.

Lemma round64_overflow (q : Q) :
  2 ^ 1024 - 2 ^ 970 <= q -> round64 q = Infinite false.
Proof.
  intros HL. unfold round64.
  assert (H1023 : 0 < 2 ^ 1024 - 2 ^ 970).
  { pose proof (pow2_lt 970 1024 ltac:(lia)). lra. }
  assert (Hq : 0 < q) by lra.
  destruct (Qeq_bool q 0) eqn:E0; [apply Qeq_bool_eq in E0; lra |].
  assert (Ha : Qabs q == q) by (apply Qabs_pos; lra).
  assert (Hr : 2 ^ 1024 <= round_magnitude (Qabs q))
    by (apply round_magnitude_overflow; rewrite Ha; assumption).
  apply Qle_bool_iff in Hr. rewrite Hr.
  assert (Hs : Qle_bool 0 q = true) by (apply Qle_bool_iff; lra).
  now rewrite Hs.
Qed.

(** ** A float rounds to itself *)

Lemma round_half_even_comp (x y : Q) :
  x == y -> round_half_even x = round_half_even y.
Proof.
  intros E. unfold round_half_even.
  rewrite (Qfloor_comp x y E).
  assert (E' : x - inject_Z (Qfloor y) == y - inject_Z (Qfloor y))
    by (rewrite E; reflexivity).
  now rewrite (Qcompare_comp _ _ E' (1 # 2) (1 # 2) (Qeq_refl _)).
Qed.

Lemma round_half_even_Z (m : Z) : round_half_even (inject_Z m) = m.
Proof.
  unfold round_half_even. rewrite Qfloor_Z.
  destruct (Qcompare_spec (inject_Z m - inject_Z m) (1 # 2)) as [C | C | C];
    [lra | reflexivity | lra].
Qed.

Lemma floor_log2_unique (b : Q) (k : Z) :
  2 ^ k <= b -> b < 2 ^ (k + 1) -> floor_log2 b = k.
Proof.
  intros H1 H2. assert (Hb : 0 < b) by (pose proof (pow2_pos k); lra).
  pose proof (floor_log2_ge b k Hb H1). pose proof (floor_log2_le b (k + 1) Hb H2).
  lia.
Qed.

(** The magnitude [m * 2 ^ e] of a rounded rational rounds to itself. *)
Lemma round_magnitude_fixed (a b : Q) :
  0 < a -> 0 < round_magnitude a -> b == round_magnitude a ->
  round_magnitude b == round_magnitude a.
Proof.
  intros Ha HM Eb.
  pose proof (round_magnitude_mantissa a Ha) as Hm53.
  unfold round_magnitude in HM, Eb |- *.
  set (e := ulp_exponent a) in *.
  set (m := round_half_even (a / 2 ^ e)) in *.
  assert (He : (-1074 <= e)%Z) by (unfold e, ulp_exponent; lia).
  assert (Hm0 : (0 < m)%Z).
  { assert (0 < inject_Z m).
    { destruct (Qlt_le_dec 0 (inject_Z m)) as [H | H]; [assumption |].
      exfalso. pose proof (pow2_pos e) as Hp.
      assert (inject_Z m * 2 ^ e <= 0) by nra. lra. }
    change 0 with (inject_Z 0) in H. now rewrite <- Zlt_Qlt in H. }
  assert (Hm52 : (-1074 < e)%Z -> (2 ^ 52 <= m)%Z).
  { intros Hlt. unfold m. apply round_half_even_ge. rewrite pow2_Z by lia.
    apply scale_ge. rewrite <- pow2_add.
    assert (E : e = (floor_log2 a - 52)%Z) by (unfold e, ulp_exponent in *; lia).
    rewrite E. replace (52 + (floor_log2 a - 52))%Z with (floor_log2 a) by lia.
    apply (floor_log2_spec a Ha). }
  destruct (Z.log2_spec m Hm0) as [L1 L2].
  assert (Hl : (0 <= Z.log2 m)%Z) by apply Z.log2_nonneg.
  assert (Fb : floor_log2 b = (Z.log2 m + e)%Z).
  { apply floor_log2_unique; rewrite Eb.
    - rewrite pow2_add. apply Qmult_le_compat_r; [| apply Qlt_le_weak, pow2_pos].
      rewrite <- pow2_Z by lia. now rewrite <- Zle_Qle.
    - replace (Z.log2 m + e + 1)%Z with ((Z.log2 m + 1) + e)%Z by lia.
      rewrite pow2_add. apply Qmult_lt_compat_r; [apply pow2_pos |].
      rewrite <- pow2_Z by lia. now rewrite <- Zlt_Qlt. }
  assert (Hl53 : (Z.log2 m <= 53)%Z).
  { assert (Z.log2 m < 54)%Z by (apply Z.log2_lt_pow2; lia). lia. }
  destruct (Z.eq_dec m (2 ^ 53)) as [E53 | N53].
  - (* the mantissa was rounded up to [2 ^ 53] *)
    assert (El : Z.log2 m = 53%Z) by (rewrite E53; reflexivity).
    assert (Ee : ulp_exponent b = (e + 1)%Z) by (unfold ulp_exponent; lia).
    rewrite Ee.
    assert (Ey : b / 2 ^ (e + 1) == inject_Z (2 ^ 52)).
    { rewrite Eb, E53, !pow2_Z by lia.
      rewrite (pow2_add e 1). change (2 ^ 1) with 2.
      assert (E : 2 ^ 53 == 2 ^ 52 * 2) by reflexivity.
      rewrite E. field. pose proof (pow2_pos e). lra. }
    rewrite (round_half_even_comp _ _ Ey), round_half_even_Z.
    rewrite E53, !pow2_Z by lia. rewrite (pow2_add e 1).
    change (2 ^ 1) with 2.
    assert (E : 2 ^ 53 == 2 ^ 52 * 2) by reflexivity.
    rewrite E. ring.
  - assert (El : (Z.log2 m <= 52)%Z).
    { assert (m < 2 ^ 53)%Z by lia.
      assert (Z.log2 m < 53)%Z by (apply Z.log2_lt_pow2; lia). lia. }
    assert (Ee : ulp_exponent b = e).
    { unfold ulp_exponent. rewrite Fb.
      destruct (Z.eq_dec e (-1074)) as [E | E]; [lia |].
      assert (2 ^ 52 <= m)%Z by (apply Hm52; lia).
      assert (52 <= Z.log2 m)%Z by (apply Z.log2_le_pow2; lia). lia. }
    rewrite Ee.
    assert (Ey : b / 2 ^ e == inject_Z m).
    { rewrite Eb. field. pose proof (pow2_pos e). lra. }
    now rewrite (round_half_even_comp _ _ Ey), round_half_even_Z.
Qed.

Lemma round64_idempotent (q r x : Q) :
  round64 q = Finite r -> x == r -> round64 x = Finite r.
Proof.
  unfold round64. intros H Ex.
  destruct (Qeq_bool q 0) eqn:E0.
  - injection H as <-.
    assert (E : Qeq_bool x 0 = true) by now apply Qeq_bool_iff.
    now rewrite E.
  - apply Qeq_bool_neq in E0.
    set (M := round_magnitude (Qabs q)) in *.
    destruct (Qle_bool (2 ^ 1024) M) eqn:Ov; [discriminate |].
    injection H as Hr.
    assert (Ha : 0 < Qabs q).
    { destruct (Qlt_le_dec 0 q) as [Hq | Hq].
      - rewrite Qabs_pos; lra.
      - rewrite Qabs_neg by assumption.
        assert (~ 0 <= q) by (intros H; apply E0; lra).
        apply Qnot_le_lt in H. lra. }
    assert (HM0 : 0 <= M) by (apply round_magnitude_nonneg; lra).
    assert (Er : r == (if Qle_bool 0 q then M else - M))
      by (rewrite <- Hr; apply Qred_correct).
    destruct (Qeq_bool M 0) eqn:EM.
    + apply Qeq_bool_eq in EM.
      assert (Ex0 : x == 0) by (rewrite Ex, Er; destruct (Qle_bool 0 q); lra).
      assert (E : Qeq_bool x 0 = true) by now apply Qeq_bool_iff.
      rewrite E. f_equal. rewrite <- Hr.
      transitivity (Qred 0); [reflexivity |].
      apply Qred_complete. destruct (Qle_bool 0 q); lra.
    + apply Qeq_bool_neq in EM. assert (HM : 0 < M) by lra.
      assert (Ex0 : Qeq_bool x 0 = false).
      { destruct (Qeq_bool x 0) eqn:E; [| reflexivity].
        apply Qeq_bool_eq in E. rewrite Ex, Er in E.
        destruct (Qle_bool 0 q); lra. }
      rewrite Ex0.
      assert (Esign : Qle_bool 0 x = Qle_bool 0 q).
      { destruct (Qle_bool 0 q) eqn:Sq.
        - apply Qle_bool_iff. rewrite Ex, Er. lra.
        - destruct (Qle_bool 0 x) eqn:Sx; [| reflexivity].
          apply Qle_bool_iff in Sx. rewrite Ex, Er in Sx. lra. }
      assert (Eabs : Qabs x == M).
      { destruct (Qle_bool 0 q) eqn:Sq.
        - rewrite Qabs_pos; [now rewrite Ex, Er | rewrite Ex, Er; lra].
        - rewrite Qabs_neg; [rewrite Ex, Er; ring | rewrite Ex, Er; lra]. }
      assert (Efix : round_magnitude (Qabs x) == M)
        by (apply round_magnitude_fixed; assumption).
      assert (Ov' : Qle_bool (2 ^ 1024) (round_magnitude (Qabs x)) = false).
      { destruct (Qle_bool (2 ^ 1024) (round_magnitude (Qabs x))) eqn:E;
          [| reflexivity].
        apply Qle_bool_iff in E. rewrite Efix in E.
        apply Qle_bool_iff in E. congruence. }
      rewrite Ov', Esign. f_equal. rewrite <- Hr.
      apply Qred_complete. destruct (Qle_bool 0 q); now rewrite Efix.
Qed.

(** ** Rounding reads the value, not the fraction that writes it *)

Lemma floor_log2_comp (x y : Q) : 0 < x -> x == y -> floor_log2 x = floor_log2 y.
Proof.
  intros Hx E. assert (Hy : 0 < y) by now rewrite <- E.
  destruct (floor_log2_spec x Hx) as [H1 H2].
  symmetry. apply floor_log2_unique; now rewrite <- E.
Qed.

Lemma round_magnitude_comp (x y : Q) :
  0 < x -> x == y -> round_magnitude x = round_magnitude y.
Proof.
  intros Hx E. unfold round_magnitude, ulp_exponent.
  rewrite (floor_log2_comp x y Hx E).
  set (e := Z.max (floor_log2 y - 52) (-1074)).
  assert (E' : x / 2 ^ e == y / 2 ^ e) by now rewrite E.
  now rewrite (round_half_even_comp _ _ E').
Qed.

Lemma Qeq_bool_comp (x y z : Q) : x == y -> Qeq_bool x z = Qeq_bool y z.
Proof.
  intros E. apply eq_true_iff_eq. rewrite !Qeq_bool_iff. now rewrite E.
Qed.

Lemma Qle_bool_comp_r (x y z : Q) : x == y -> Qle_bool z x = Qle_bool z y.
Proof.
  intros E. apply eq_true_iff_eq. rewrite !Qle_bool_iff. now rewrite E.
Qed.

Lemma round64_comp (x y : Q) : x == y -> round64 x = round64 y.
Proof.
  intros E. unfold round64.
  rewrite (Qeq_bool_comp x y 0 E), (Qle_bool_comp_r x y 0 E).
  destruct (Qeq_bool y 0) eqn:E0; [reflexivity |].
  apply Qeq_bool_neq in E0.
  assert (Ha : 0 < Qabs x).
  { destruct (Qlt_le_dec 0 x) as [Hq | Hq].
    - rewrite Qabs_pos; lra.
    - rewrite Qabs_neg by assumption.
      assert (~ 0 <= y) by (intros H; apply E0; lra).
      apply Qnot_le_lt in H. lra. }
  assert (Eabs : Qabs x == Qabs y) by now rewrite E.
  now rewrite (round_magnitude_comp _ _ Ha Eabs).
Qed.

(** ** The divisions of Python *)

Lemma float_limit_Q : inject_Z float_limit == 2 ^ 1024 - 2 ^ 970.
Proof.
  unfold float_limit, Z.sub. rewrite inject_Z_plus, inject_Z_opp.
  rewrite !pow2_Z by lia. reflexivity.
Qed.

Lemma float_of_int_pos (k : Z) :
  (1 <= k < float_limit)%Z -> exists r, float_of_int k = Ok r /\ 1 <= r.
Proof.
  intros [H1 HL]. unfold float_of_int.
  destruct (round64_ge_one (inject_Z k)) as (r & -> & Hr).
  - change 1 with (inject_Z 1). now rewrite <- Zle_Qle.
  - rewrite <- float_limit_Q. now rewrite <- Zlt_Qlt.
  - now exists r.
Qed.

Lemma float_of_int_overflow (k : Z) :
  (float_limit <= k)%Z -> float_of_int k = raise OverflowError.
Proof.
  intros HL. unfold float_of_int. rewrite round64_overflow; [reflexivity |].
  rewrite <- float_limit_Q. now rewrite <- Zle_Qle.
Qed.

Lemma float_of_int_one : float_of_int 1 = Ok 1.
Proof. vm_compute. reflexivity. Qed.

(** A quotient of integers [0 <= a <= b] is a float of [[0, 1]]. *)
Lemma truediv_fraction (a b : Z) :
  (0 <= a <= b)%Z -> (0 < b)%Z ->
  exists r, truediv a b = Ok (Finite r) /\ 0 <= r <= 1.
Proof.
  intros [Ha Hab] Hb. unfold truediv.
  replace (b =? 0)%Z with false by (symmetry; apply Z.eqb_neq; lia).
  assert (Qb : 0 < inject_Z b)
    by (change 0 with (inject_Z 0); now rewrite <- Zlt_Qlt).
  assert (Qa : 0 <= inject_Z a)
    by (change 0 with (inject_Z 0); now rewrite <- Zle_Qle).
  assert (Qab : inject_Z a <= inject_Z b) by now rewrite <- Zle_Qle.
  destruct (round64_fraction (inject_Z a / inject_Z b)) as (r & -> & Hr).
  - split.
    + apply Qle_shift_div_l; [assumption | lra].
    + apply Qle_shift_div_r; [assumption | lra].
  - now exists r.
Qed.

(** A float of [[0, 1]] divided by a positive integer stays in [[0, 1]]. *)
Lemma float_truediv_fraction (r : Q) (k : Z) :
  0 <= r <= 1 -> (1 <= k < float_limit)%Z ->
  exists r', float_truediv (Finite r) k = Ok (Finite r') /\ 0 <= r' <= 1.
Proof.
  intros [H0 H1] Hk. unfold float_truediv.
  destruct (float_of_int_pos k Hk) as (d & -> & Hd). cbn [bind Ok].
  destruct (Qeq_bool d 0) eqn:E0; [apply Qeq_bool_eq in E0; lra |].
  destruct (round64_fraction (r / d)) as (r' & -> & Hr').
  - split.
    + apply Qle_shift_div_l; lra.
    + apply Qle_shift_div_r; lra.
  - now exists r'.
Qed.

(** Dividing a float by the integer [1] changes nothing. *)
Lemma float_truediv_one (a b : Z) (r : Q) :
  truediv a b = Ok (Finite r) -> float_truediv (Finite r) 1 = Ok (Finite r).
Proof.
  unfold truediv. intros H.
  destruct (b =? 0)%Z; [discriminate |].
  destruct (round64 (inject_Z a / inject_Z b)) as [r' |] eqn:E; [| discriminate].
  injection H as ->.
  unfold float_truediv. rewrite float_of_int_one. cbn [bind Ok].
  change (Qeq_bool 1 0) with false. cbv iota.
  rewrite (round64_idempotent _ r (r / 1) E); [reflexivity | field].
Qed.

(** * The traffic parameters *)

Lemma throughput_bounds (cfg : config) :
  (0 < inbounds cfg)%Z -> (0 < outbounds cfg)%Z ->
  (0 < inject_Z (Pyomo.throughput cfg) /\
   inject_Z (Pyomo.throughput cfg) <= inject_Z (inbounds cfg) /\
   inject_Z (Pyomo.throughput cfg) <= inject_Z (outbounds cfg) /\
   0 < inject_Z (inbounds cfg) /\ 1 <= inject_Z (inbounds cfg) /\
   0 < inject_Z (outbounds cfg))%Q.
Proof.
  intros HI HJ. unfold Pyomo.throughput.
  change 0%Q with (inject_Z 0). change 1%Q with (inject_Z 1).
  rewrite <- !Zlt_Qlt, <- !Zle_Qle. lia.
Qed.

(** For positive counts both traffic values are fractions of a belt. *)
Lemma traffic_fractions (cfg : config) :
  (0 < inbounds cfg)%Z -> (0 < outbounds cfg)%Z ->
  let ti := ((inject_Z (Pyomo.throughput cfg) / inject_Z (inbounds cfg)) / 1)%Q in
  let to := ((inject_Z (Pyomo.throughput cfg) / inject_Z (outbounds cfg))
               / inject_Z (Pyomo.cargos cfg))%Q in
  (0 < ti /\ ti <= 1 /\ 0 < to /\ to <= 1)%Q.
Proof.
  intros HI HJ ti to.
  destruct (throughput_bounds cfg HI HJ) as (Ht & HtI & HtJ & HI0 & HI1 & HJ0).
  set (thr := inject_Z (Pyomo.throughput cfg)) in *.
  set (qi := inject_Z (inbounds cfg)) in *.
  set (qj := inject_Z (outbounds cfg)) in *.
  assert (A1 : (0 < thr / qi)%Q) by now apply Qdiv_pos.
  assert (A2 : (thr / qi <= 1)%Q) by (apply Qdiv_fraction; lra).
  assert (B1 : (0 < thr / qj)%Q) by now apply Qdiv_pos.
  assert (B2 : (thr / qj <= 1)%Q) by (apply Qdiv_fraction; lra).
  unfold ti, to, Pyomo.cargos. fold qi. repeat split.
  - apply Qdiv_pos; lra.
  - apply Qdiv_fraction; lra.
  - apply Qdiv_pos; lra.
  - apply Qdiv_fraction; lra.
Qed.

Lemma PercentFraction_iff (r : Q) :
  Pyomo.PercentFraction r = true <-> (0 <= r /\ r <= 1)%Q.
Proof.
  unfold Pyomo.PercentFraction. now rewrite andb_true_iff, !Qle_bool_iff.
Qed.

(** The four divisions for positive counts: both traffic values are
    floats of [[0, 1]].  The inbound count is converted to a float in
    [v_out / cargos], which limits it. *)
Lemma derived_pos (cfg : config) :
  (0 < inbounds cfg)%Z -> (0 < outbounds cfg)%Z ->
  (inbounds cfg < float_limit)%Z ->
  exists ti to,
    Pyomo.derived cfg = Ok (Finite ti, Finite to) /\
    (0 <= ti <= 1)%Q /\ (0 <= to <= 1)%Q.
Proof.
  intros HI HJ HL. unfold Pyomo.derived, Pyomo.t_in, Pyomo.t_out.
  destruct (truediv_fraction (Pyomo.throughput cfg) (inbounds cfg))
    as (vi & Hvi & Bvi); [unfold Pyomo.throughput; lia | assumption |].
  destruct (truediv_fraction (Pyomo.throughput cfg) (outbounds cfg))
    as (vo & Hvo & Bvo); [unfold Pyomo.throughput; lia | assumption |].
  unfold Pyomo.v_in, Pyomo.v_out. rewrite Hvi, Hvo. cbn [bind Ok].
  destruct (float_truediv_fraction vi 1 Bvi) as (ti & Hti & Bti);
    [unfold float_limit; lia |].
  destruct (float_truediv_fraction vo (Pyomo.cargos cfg) Bvo) as (to & Hto & Bto);
    [unfold Pyomo.cargos; lia |].
  rewrite Hti, Hto. cbn [bind Ok]. now exists ti, to.
Qed.

Lemma derived_Ok_nonzero (cfg : config) (tr : float * float) :
  Pyomo.derived cfg = Ok tr -> inbounds cfg <> 0%Z /\ outbounds cfg <> 0%Z.
Proof.
  unfold Pyomo.derived, Pyomo.v_in, Pyomo.v_out, truediv. intros H.
  split; intros E; rewrite E in H.
  - discriminate H.
  - change (0 =? 0)%Z with true in H.
    destruct (inbounds cfg =? 0)%Z; [discriminate H |].
    destruct (round64 _); discriminate H.
Qed.

(** A zero count stops the divisions at once. *)
Lemma derived_zero (cfg : config) :
  inbounds cfg = 0%Z \/ outbounds cfg = 0%Z ->
  Pyomo.derived cfg = raise ZeroDivisionError.
Proof.
  intros H. unfold Pyomo.derived, Pyomo.v_in, Pyomo.v_out.
  destruct (Z.eq_dec (inbounds cfg) 0) as [EI | NI].
  - unfold truediv. rewrite EI. reflexivity.
  - destruct H as [H | H]; [contradiction |].
    assert (Hthr : (Pyomo.throughput cfg = 0 /\ 0 < inbounds cfg
                    \/ Pyomo.throughput cfg = inbounds cfg /\ inbounds cfg < 0)%Z)
      by (unfold Pyomo.throughput; lia).
    assert (Hv : exists r, truediv (Pyomo.throughput cfg) (inbounds cfg)
                           = Ok (Finite r)).
    { unfold truediv.
      replace (inbounds cfg =? 0)%Z with false by (symmetry; now apply Z.eqb_neq).
      assert (Qi : ~ (inject_Z (inbounds cfg) == 0)%Q).
      { intros E. unfold Qeq in E. simpl in E. lia. }
      destruct (round64_fraction
                  (inject_Z (Pyomo.throughput cfg) / inject_Z (inbounds cfg)))
        as (r & -> & _); [| now exists r].
      destruct Hthr as [[-> _] | [-> _]].
      - assert (E : (inject_Z 0 / inject_Z (inbounds cfg) == 0)%Q)
          by (change (inject_Z 0) with 0%Q; now field).
        rewrite E. lra.
      - assert (E : (inject_Z (inbounds cfg) / inject_Z (inbounds cfg) == 1)%Q)
          by now field.
        rewrite E. lra. }
    destruct Hv as (r & ->). cbn [bind Ok].
    unfold truediv. rewrite H. reflexivity.
Qed.

(** An inbound count out of the range of the floats stops them with
    [OverflowError]. *)
Lemma derived_overflow (cfg : config) :
  outbounds cfg <> 0%Z -> (float_limit <= inbounds cfg)%Z ->
  Pyomo.derived cfg = raise OverflowError.
Proof.
  intros HJ HL.
  assert (HI : inbounds cfg <> 0%Z) by (unfold float_limit in HL; lia).
  unfold Pyomo.derived, Pyomo.t_in, Pyomo.t_out, Pyomo.v_in, Pyomo.v_out.
  unfold truediv.
  replace (inbounds cfg =? 0)%Z with false by (symmetry; now apply Z.eqb_neq).
  replace (outbounds cfg =? 0)%Z with false by (symmetry; now apply Z.eqb_neq).
  destruct (round64 (inject_Z (Pyomo.throughput cfg) / inject_Z (inbounds cfg)))
    as [vi | si]; [| reflexivity].
  cbn [bind Ok].
  destruct (round64 (inject_Z (Pyomo.throughput cfg) / inject_Z (outbounds cfg)))
    as [vo | so]; [| reflexivity].
  cbn [bind Ok]. unfold float_truediv at 1. rewrite float_of_int_one.
  cbn [bind Ok]. change (Qeq_bool 1 0) with false. cbn [bind Ok].
  unfold float_truediv, Pyomo.cargos.
  rewrite (float_of_int_overflow _ HL). reflexivity.
Qed.

(** [f_init] on generated members compares their ordinal indices. *)
Lemma f_init_members (ti : float) (ki kc : Z) :
  (0 <= ki)%Z -> (0 <= kc)%Z ->
  Pyomo.f_init ti ("i" ++ str ki) ("c" ++ str kc) =
  Ok (if (ki =? kc)%Z then ti else Finite 0).
Proof.
  intros Hi Hc. unfold Pyomo.f_init.
  rewrite (get_int_member _ _ letter_i Hi), (get_int_member _ _ letter_c Hc).
  cbn. now destruct (ki =? kc)%Z.
Qed.

Lemma validate_fraction (r : Q) :
  (0 <= r <= 1)%Q -> Pyomo.validate Pyomo.PercentFraction (Finite r) = Ok r.
Proof.
  intros H. apply PercentFraction_iff in H. unfold Pyomo.validate. now rewrite H.
Qed.

Lemma validate_Ok (domain : Q -> bool) (v : float) (r : Q) :
  Pyomo.validate domain v = Ok r -> v = Finite r /\ domain r = true.
Proof.
  unfold Pyomo.validate. destruct v as [r' | s]; [| discriminate].
  destruct (domain r') eqn:E; [| discriminate]. intros [= <-]. now split.
Qed.

(** Generation succeeds as soon as the two belt counts are positive and the
    inbound count is in the range of the floats, whatever the splitter
    budget. *)
Lemma generate_total (cfg : config) :
  (0 < inbounds cfg)%Z -> (0 < outbounds cfg)%Z ->
  (inbounds cfg < float_limit)%Z ->
  exists mo, Pyomo.generate cfg = Ok mo.
Proof.
  intros HI HJ HL. unfold Pyomo.generate.
  destruct (derived_pos cfg HI HJ HL) as (ti & to & -> & Bti & Bto).
  cbn [bind Ok fst snd].
  match goal with
  | |- context [filterM ?h ?l] =>
      destruct (filterM_total h l) as [B HB]
  end.
  { intros [p q] H. apply in_prod_iff in H. destruct H as [Hp Hq].
    destruct (B_filter_members _ _ _ p q Hp Hq) as (b & Hb & _).
    now exists b. }
  rewrite HB. cbn [bind Ok].
  match goal with
  | |- context [mapM ?h ?l] =>
      destruct (mapM_total h l) as [fd Hfd]
  end.
  { intros [i c] H. apply in_prod_iff in H. destruct H as [Hi Hc].
    apply in_init_set in Hi. destruct Hi as (ki & Hki & ->).
    apply in_init_set in Hc. destruct Hc as (kc & Hkc & ->).
    cbn [fst snd]. rewrite f_init_members by lia. cbn [bind Ok].
    destruct (ki =? kc)%Z.
    - rewrite (validate_fraction ti Bti). eexists. reflexivity.
    - rewrite (validate_fraction 0) by lra. eexists. reflexivity. }
  rewrite Hfd. cbn [bind Ok]. rewrite (validate_fraction to Bto).
  cbn. eexists. reflexivity.
Qed.

(** * Constraints as propositions *)

Lemma holds_CEq (l r : Q) : holds (CEq l r) = true <-> (l == r)%Q.
Proof. apply Qeq_bool_iff. Qed.

Lemma holds_CLe (l r : Q) : holds (CLe l r) = true <-> (l <= r)%Q.
Proof. apply Qle_bool_iff. Qed.

Lemma holds_CGe (l r : Q) : holds (CGe l r) = true <-> (r <= l)%Q.
Proof. apply Qle_bool_iff. Qed.

Lemma Binary_cases (k : Z) : Pyomo.Binary k = true <-> k = 0%Z \/ k = 1%Z.
Proof.
  unfold Pyomo.Binary. rewrite andb_true_iff, !Z.leb_le. lia.
Qed.


(** * The even-split linearization *)



Lemma linearization_iff (mo : Pyomo.model) (a : Pyomo.assignment) (s q c : string) :
  linearization mo a s q c = true <->
  (Pyomo.xe a s q c <= Pyomo.u_x mo * inject_Z (Pyomo.e a s q) /\
   Pyomo.xe a s q c <= Pyomo.x a s c /\
   Pyomo.x a s c - Pyomo.u_x mo * (1 - inject_Z (Pyomo.e a s q)) <= Pyomo.xe a s q c /\
   Pyomo.tz a s q c <= Pyomo.u_t mo * inject_Z (Pyomo.z a s) /\
   Pyomo.tz a s q c <= Pyomo.t a s q c /\
   Pyomo.t a s q c - Pyomo.u_t mo * (1 - inject_Z (Pyomo.z a s)) <= Pyomo.tz a s q c /\
   Pyomo.xe a s q c == Pyomo.t a s q c + Pyomo.tz a s q c)%Q.
Proof.
  unfold linearization, Pyomo.force_xe_1_rule, Pyomo.force_xe_2_rule,
    Pyomo.force_xe_3_rule, Pyomo.force_tz_1_rule, Pyomo.force_tz_2_rule,
    Pyomo.force_tz_3_rule, Pyomo.split_evenly_rule.
  rewrite !andb_true_iff, !holds_CLe, !holds_CGe, holds_CEq. tauto.
Qed.


(** C1. With the default bounds [u_t = 1] and [u_x = 2] of a generated
    model, binary [e[s,q]] and [z[s]], [0 <= t[s,q,c] <= 1] and
    [0 <= x[s,c] <= 2], the seven linear constraints have a solution in
    nonnegative [xe[s,q,c]], [tz[s,q,c]] if and only if
    [t[s,q,c] = e[s,q] * x[s,c] / (1 + z[s])], exactly; in particular
    [e = 0] forces [t = 0], [e = 1, z = 0] forces [t = x] and
    [e = 1, z = 1] forces [t = x / 2]. *)
Theorem even_split_linearization_exact
  (cfg : config) (mo : Pyomo.model) (a : Pyomo.assignment) (s q c : string) :
  Pyomo.generate cfg = Py.Ok mo ->
  Pyomo.Binary (Pyomo.e a s q) = true ->
  Pyomo.Binary (Pyomo.z a s) = true ->
  (0 <= Pyomo.t a s q c <= Pyomo.u_t mo)%Q ->
  (0 <= Pyomo.x a s c <= Pyomo.u_x mo)%Q ->
  (Pyomo.u_t mo == 1 /\ Pyomo.u_x mo == 2)%Q /\
  (linearization_satisfiable mo a s q c <->
   (Pyomo.t a s q c ==
    inject_Z (Pyomo.e a s q) * Pyomo.x a s c / (1 + inject_Z (Pyomo.z a s)))%Q) /\
  (linearization_satisfiable mo a s q c ->
   (Pyomo.e a s q = 0%Z -> Pyomo.t a s q c == 0)%Q /\
   (Pyomo.e a s q = 1%Z -> Pyomo.z a s = 0%Z ->
    Pyomo.t a s q c == Pyomo.x a s c)%Q /\
   (Pyomo.e a s q = 1%Z -> Pyomo.z a s = 1%Z ->
    Pyomo.t a s q c == Pyomo.x a s c / 2)%Q).
Proof.
  intros Hg He Hz Ht Hx.
  destruct (generate_inv cfg mo Hg) as (ti & to & H). 
  assert (Ut : Pyomo.u_t mo = 1%Q) by tauto.
  assert (Ux : Pyomo.u_x mo = 2%Q) by tauto.
  clear H. rewrite Ut in Ht. rewrite Ux in Hx.
  split; [rewrite Ut, Ux; split; reflexivity |].
  apply Binary_cases in He. apply Binary_cases in Hz.
  assert (Fwd : linearization_satisfiable mo a s q c ->
    (Pyomo.e a s q = 0%Z -> Pyomo.t a s q c == 0)%Q /\
    (Pyomo.e a s q = 1%Z -> Pyomo.z a s = 0%Z ->
     Pyomo.t a s q c == Pyomo.x a s c)%Q /\
    (Pyomo.e a s q = 1%Z -> Pyomo.z a s = 1%Z ->
     Pyomo.t a s q c == Pyomo.x a s c / 2)%Q).
  { intros (a' & Ee & Ez & Et & Ex & Hxe & Htz & L).
    apply linearization_iff in L. rewrite Ee, Ez, Et, Ex, Ut, Ux in L.
    destruct L as (L1 & L2 & L3 & L4 & L5 & L6 & L7).
    repeat split.
    - intros E0. rewrite E0 in L1. inject_consts. lra.
    - intros E1 Z0. rewrite E1 in L3. rewrite Z0 in L4. inject_consts. lra.
    - intros E1 Z1. rewrite E1 in L3. rewrite Z1 in L6. inject_consts.
      assert (X2 : Pyomo.x a s c == 2 * Pyomo.t a s q c) by lra.
      rewrite X2. field. }
  split; [| exact Fwd].
  split.
  - intros Hsat. destruct (Fwd Hsat) as (F0 & F10 & F11).
    destruct He as [E | E], Hz as [Z | Z]; rewrite E, Z.
    + rewrite (F0 E). inject_consts. field.
    + rewrite (F0 E). inject_consts. field.
    + rewrite (F10 E Z). inject_consts. field.
    + rewrite (F11 E Z). inject_consts. field.
  - intros Heq.
    destruct He as [E | E].
    + (* e = 0: xe = 0, tz = 0 *)
      exists (with_aux a 0 0). cbn. repeat split; try reflexivity; try lra.
      apply linearization_iff. cbn. rewrite E in Heq. rewrite E, Ut, Ux.
      assert (T0 : (Pyomo.t a s q c == 0)%Q)
        by (rewrite Heq; destruct Hz as [Z | Z]; rewrite Z; inject_consts; field).
      destruct Hz as [Z | Z]; rewrite Z; inject_consts; lra.
    + destruct Hz as [Z | Z].
      * (* e = 1, z = 0: xe = x, tz = 0 *)
        exists (with_aux a (Pyomo.x a s c) 0). cbn.
        assert (T : (Pyomo.t a s q c == Pyomo.x a s c)%Q)
          by (rewrite Heq, E, Z; inject_consts; field).
        repeat split; try reflexivity; try lra.
        apply linearization_iff. cbn. rewrite E, Z, Ut, Ux. inject_consts. lra.
      * (* e = 1, z = 1: xe = x, tz = t *)
        exists (with_aux a (Pyomo.x a s c) (Pyomo.t a s q c)). cbn.
        assert (T : (Pyomo.t a s q c == Pyomo.x a s c / 2)%Q)
          by (rewrite Heq, E, Z; inject_consts; field).
        assert (X2 : (Pyomo.x a s c == 2 * Pyomo.t a s q c)%Q)
          by (rewrite T; field).
        clear T. repeat split; try reflexivity; try lra.
        apply linearization_iff. cbn. rewrite E, Z, Ut, Ux. inject_consts. lra.
Qed.

Lemma even_split_linearization_witness :
  let mo := model_1_1_2 in
  let a := chain_assignment in
  (Pyomo.u_t mo == 1 /\ Pyomo.u_x mo == 2)%Q /\
  (linearization_satisfiable mo a "s1" "j1" "c1" <->
   (Pyomo.t a "s1" "j1" "c1" ==
    inject_Z (Pyomo.e a "s1" "j1") * Pyomo.x a "s1" "c1"
    / (1 + inject_Z (Pyomo.z a "s1")))%Q) /\
  (linearization_satisfiable mo a "s1" "j1" "c1" ->
   (Pyomo.e a "s1" "j1" = 0%Z -> Pyomo.t a "s1" "j1" "c1" == 0)%Q /\
   (Pyomo.e a "s1" "j1" = 1%Z -> Pyomo.z a "s1" = 0%Z ->
    Pyomo.t a "s1" "j1" "c1" == Pyomo.x a "s1" "c1")%Q /\
   (Pyomo.e a "s1" "j1" = 1%Z -> Pyomo.z a "s1" = 1%Z ->
    Pyomo.t a "s1" "j1" "c1" == Pyomo.x a "s1" "c1" / 2)%Q).
Proof.
  intros mo a.
  apply (even_split_linearization_exact cfg_1_1_2 mo a "s1" "j1" "c1").
  - vm_compute. reflexivity.
  - reflexivity.
  - reflexivity.
  - cbn. lra.
  - cbn. lra.
Defined.

(** * Feasible assignments *)

Lemma in_over2 {A : Type} (rule : string -> string -> A)
  (idx : list (string * string)) (p q : string) :
  In (p, q) idx -> In (rule p q) (Pyomo.over2 rule idx).
Proof.
  intros H. unfold Pyomo.over2.
  apply (in_map (fun k => rule (fst k) (snd k)) idx (p, q) H).
Qed.

(** A declared family holds the relation of each of its indices. *)
Lemma mapM_declare {A : Type} (h : A -> Pyomo.expression) (l : list A)
  (ks : list constraint) :
  mapM (fun i => Pyomo.declare (h i)) l = Ok ks ->
  forall i, In i l -> exists k, h i = Pyomo.Relational k /\ In k ks.
Proof.
  revert ks. induction l as [| x l IH]; intros ks H i Hi; [contradiction |].
  simpl in H. apply bind_Ok in H. destruct H as (k0 & Hk0 & H).
  apply bind_Ok in H. destruct H as (ks' & Hks' & H). injection H as <-.
  destruct Hi as [-> | Hi].
  - destruct (h i) as [k | b]; [| discriminate]. injection Hk0 as ->.
    exists k0. split; [reflexivity | now left].
  - destruct (IH ks' Hks' i Hi) as (k & Hk & Hin).
    exists k. split; [assumption | now right].
Qed.

Lemma mapM_declare_In {A : Type} (h : A -> Pyomo.expression) (l : list A)
  (ks : list constraint) (k : constraint) :
  mapM (fun i => Pyomo.declare (h i)) l = Ok ks ->
  In (Pyomo.Relational k) (map h l) -> In k ks.
Proof.
  intros H Hk. apply in_map_iff in Hk. destruct Hk as (i & Hi & Hin).
  destruct (mapM_declare h l ks H i Hin) as (k' & Hk' & Hin').
  rewrite Hi in Hk'. now injection Hk' as ->.
Qed.

Section FeasibleAssignment.

Variable cfg : config.
Variable mo : Pyomo.model.
Variable a : Pyomo.assignment.
Hypothesis Hg : Pyomo.generate cfg = Ok mo.
Hypothesis Hf : Pyomo.feasible mo a = true.

Lemma feasible_inv :
  Pyomo.domains mo a = true /\
  exists ks, Pyomo.constraints mo a = Ok ks /\
             forall k, In k ks -> holds k = true.
Proof.
  clear Hg. unfold Pyomo.feasible in Hf. apply andb_true_iff in Hf.
  destruct Hf as [Hd Hc]. split; [assumption |].
  destruct (Pyomo.constraints mo a) as [err | ks]; [discriminate |].
  exists ks. split; [reflexivity |]. now apply forallb_forall.
Qed.

Lemma feasible_plain (k : constraint) : plain_family mo a k -> holds k = true.
Proof.
  intros Hk. destruct feasible_inv as (_ & ks & Hks & Hall).
  apply Hall. unfold Pyomo.constraints in Hks.
  apply bind_Ok in Hks. destruct Hks as (connect_in & Hin & Hks).
  apply bind_Ok in Hks. destruct Hks as (connect_out & Hout & Hks).
  apply bind_Ok in Hks. destruct Hks as (consume & _ & Hks).
  apply bind_Ok in Hks. destruct Hks as (produce & _ & Hks).
  injection Hks as <-. unfold plain_family in Hk.
  pose proof (mapM_declare_In _ _ _ k Hin) as Kin.
  pose proof (mapM_declare_In _ _ _ k Hout) as Kout.
  rewrite !in_app_iff. tauto.
Qed.

(** The degree constraints of one splitter. *)
Lemma feasible_degrees (s : string) :
  In s (Pyomo.setS mo) ->
  (Pyomo.z a s <= Pyomo.n a s <= 2)%Z /\
  (2 * Pyomo.z a s <= Pyomo.m a s <= 1 + Pyomo.z a s)%Z /\
  (0 <= Pyomo.m a s)%Z /\ (0 <= Pyomo.n a s)%Z /\
  (Pyomo.z a s = 0 \/ Pyomo.z a s = 1)%Z.
Proof.
  intros Hs.
  assert (K1 := feasible_plain (Pyomo.min_inputs_rule mo a s)).
  assert (K2 := feasible_plain (Pyomo.max_inputs_rule mo a s)).
  assert (K3 := feasible_plain (Pyomo.min_outputs_rule mo a s)).
  assert (K4 := feasible_plain (Pyomo.max_outputs_rule mo a s)).
  unfold plain_family in K1, K2, K3, K4.
  assert (M : forall rule : string -> constraint,
            In (rule s) (map rule (Pyomo.setS mo))) by (intros; now apply in_map).
  specialize (K1 ltac:(do 15 right; left; apply M)).
  specialize (K2 ltac:(do 16 right; left; apply M)).
  specialize (K3 ltac:(do 17 right; left; apply M)).
  specialize (K4 ltac:(do 18 right; left; apply M)).
  apply holds_CGe in K1, K3. apply holds_CLe in K2, K4.
  destruct feasible_inv as (Hd & _).
  unfold Pyomo.domains in Hd. rewrite !andb_true_iff in Hd.
  destruct Hd as (((((((((_ & _) & _) & Dn) & Dm) & _) & _) & Dz) & _) & _).
  rewrite forallb_forall in Dn, Dm, Dz.
  specialize (Dn s Hs). specialize (Dm s Hs). specialize (Dz s Hs).
  apply Binary_cases in Dz. unfold Pyomo.NonNegativeIntegers in Dn, Dm.
  apply Z.leb_le in Dn, Dm.
  change 2%Q with (inject_Z 2) in K2, K3. change 1%Q with (inject_Z 1) in K4.
  rewrite <- inject_Z_mult in K3. rewrite <- inject_Z_plus in K4.
  rewrite <- Zle_Qle in K1, K2, K3, K4. lia.
Qed.

(** The domain of [t] over [BxC]. *)
Lemma feasible_domains_t (p q c : string) :
  In (p, q) (Pyomo.setB mo) -> In c (Pyomo.setC mo) ->
  (0 <= Pyomo.t a p q c /\ Pyomo.t a p q c <= 1)%Q.
Proof.
  intros Hb Hc.
  destruct (generate_inv cfg mo Hg) as (ti & to & H).
  assert (HBxC : Pyomo.setBxC mo = list_prod (Pyomo.setB mo) (Pyomo.setC mo)) by tauto.
  clear H. destruct feasible_inv as (Hd & _).
  unfold Pyomo.domains in Hd. rewrite !andb_true_iff in Hd.
  destruct Hd as (((((((((_ & Dt) & _) & _) & _) & _) & _) & _) & _) & _).
  rewrite forallb_forall in Dt.
  specialize (Dt (p, q, c)). cbn [fst snd] in Dt.
  apply PercentFraction_iff. apply Dt. rewrite HBxC. now apply in_prod.
Qed.

(** On a route of [B] the traffic of one cargo is at most the volume
    ([define_volume]), which is at most the existence value
    ([respect_capacity]). *)
Lemma traffic_le_existence (p q c : string) :
  In (p, q) (Pyomo.setB mo) -> In c (Pyomo.setC mo) ->
  (Pyomo.t a p q c <= inject_Z (Pyomo.e a p q))%Q.
Proof.
  intros Hb Hc.
  assert (Kv : holds (Pyomo.define_volume_rule mo a p q) = true).
  { apply feasible_plain. left. now apply in_over2. }
  assert (Kc : holds (Pyomo.respect_capacity_rule mo a p q) = true).
  { apply feasible_plain. do 13 right. left. now apply in_over2. }
  apply holds_CEq in Kv. apply holds_CLe in Kc.
  assert (Ht : (Pyomo.t a p q c
                <= sum (map (fun c' => Pyomo.t a p q c') (Pyomo.setC mo)))%Q).
  { apply (sum_map_term_le (fun c' => Pyomo.t a p q c')); [| assumption].
    intros c' Hc'. now apply feasible_domains_t. }
  lra.
Qed.

(** The inflow of a splitter is at most its number of input routes
    ([define_inflow], [define_num_inputs]). *)
Lemma inflow_le_inputs (s c : string) :
  In s (Pyomo.setS mo) -> In c (Pyomo.setC mo) ->
  (Pyomo.x a s c <= inject_Z (Pyomo.n a s))%Q.
Proof.
  intros Hs Hc.
  destruct (generate_inv cfg mo Hg) as (ti & to & H).
  assert (HSxC : Pyomo.setSxC mo = list_prod (Pyomo.setS mo) (Pyomo.setC mo)) by tauto.
  clear H.
  assert (Kx : holds (Pyomo.define_inflow_rule mo a s c) = true).
  { apply feasible_plain. do 3 right. left.
    apply in_over2. rewrite HSxC. now apply in_prod. }
  assert (Kn : holds (Pyomo.define_num_inputs_rule mo a s) = true).
  { apply feasible_plain. right. left. now apply in_map. }
  apply holds_CEq in Kx, Kn.
  assert (Hsum :
    (sum (map (fun r => Pyomo.t a (fst r) (snd r) c) (Pyomo.routes_into mo s))
     <= sum (map (fun r => inject_Z (Pyomo.e a (fst r) (snd r)))
              (Pyomo.routes_into mo s)))%Q).
  { apply sum_map_le. intros [p q] Hr. cbn [fst snd].
    unfold Pyomo.routes_into in Hr. apply filter_In in Hr. destruct Hr as [Hr _].
    now apply traffic_le_existence. }
  lra.
Qed.

End FeasibleAssignment.

(** * Splitter degrees *)

(** C3, as the code has it.  In every feasible assignment of a generated
    model every splitter [s] satisfies [z[s] <= n[s] <= 2]; its fan-out
    [m[s]] is at most 1 (0 or 1) when [z[s] = 0] and is exactly 2 when
    [z[s] = 1]. *)
Theorem splitter_degree_bounds
  (cfg : config) (mo : Pyomo.model) (a : Pyomo.assignment) (s : string) :
  Pyomo.generate cfg = Ok mo ->
  Pyomo.feasible mo a = true ->
  In s (Pyomo.setS mo) ->
  (Pyomo.z a s <= Pyomo.n a s <= 2)%Z /\
  (Pyomo.z a s = 0 -> Pyomo.m a s = 0 \/ Pyomo.m a s = 1)%Z /\
  (Pyomo.z a s = 1 -> 1 <= Pyomo.n a s /\ Pyomo.m a s = 2)%Z /\
  (Pyomo.z a s = 0 \/ Pyomo.z a s = 1)%Z.
Proof.
  intros _ Hf Hs.
  destruct (feasible_degrees mo a Hf s Hs) as (Hn & Hm & Hm0 & Hn0 & Hz).
  repeat split; try lia; assumption.
Qed.

Lemma splitter_degree_bounds_witness :
  (Pyomo.z chain_assignment "s2" <= Pyomo.n chain_assignment "s2" <= 2)%Z /\
  (Pyomo.z chain_assignment "s2" = 0 ->
   Pyomo.m chain_assignment "s2" = 0 \/ Pyomo.m chain_assignment "s2" = 1)%Z /\
  (Pyomo.z chain_assignment "s2" = 1 ->
   1 <= Pyomo.n chain_assignment "s2" /\ Pyomo.m chain_assignment "s2" = 2)%Z /\
  (Pyomo.z chain_assignment "s2" = 0 \/ Pyomo.z chain_assignment "s2" = 1)%Z.
Proof.
  apply (splitter_degree_bounds cfg_1_1_2 model_1_1_2 chain_assignment "s2").
  - vm_compute. reflexivity.
  - vm_compute. reflexivity.
  - simpl. right. left. reflexivity.
Defined.

(** C3 as stated fails: in the model for one inbound belt, one outbound
    belt and two splitters, the chain [i1 -> s1 -> j1] is feasible and leaves
    the splitter [s2] with [n = 0] and, at [z = 0], with [m = 0]. *)
Lemma splitter_degree_counterexample :
  Pyomo.generate cfg_1_1_2 = Ok model_1_1_2 /\
  Pyomo.feasible model_1_1_2 chain_assignment = true /\
  In "s2" (Pyomo.setS model_1_1_2) /\
  ~ (1 <= Pyomo.n chain_assignment "s2" <= 2)%Z /\
  Pyomo.z chain_assignment "s2" = 0%Z /\
  Pyomo.m chain_assignment "s2" <> 1%Z.
Proof.
  split; [vm_compute; reflexivity |].
  split; [vm_compute; reflexivity |].
  split; [simpl; right; left; reflexivity |].
  split; [cbn; lia |].
  split; [reflexivity | cbn; lia].
Qed.

(** * The big-M constants *)

(** With the default bounds, binary [e] and [z], [t] in [[0, 1]] and [x] in
    [[0, 2]], values that split evenly are completed by [xe = x * e] and
    [tz = t * z] into a solution of the seven linear rows. *)
Lemma linearization_complete (mo : Pyomo.model) (a : Pyomo.assignment)
  (s q c : string) :
  Pyomo.u_t mo = 1%Q -> Pyomo.u_x mo = 2%Q ->
  (Pyomo.e a s q = 0 \/ Pyomo.e a s q = 1)%Z ->
  (Pyomo.z a s = 0 \/ Pyomo.z a s = 1)%Z ->
  (0 <= Pyomo.t a s q c <= 1)%Q -> (0 <= Pyomo.x a s c <= 2)%Q ->
  (Pyomo.t a s q c ==
   inject_Z (Pyomo.e a s q) * Pyomo.x a s c / (1 + inject_Z (Pyomo.z a s)))%Q ->
  linearization_satisfiable mo a s q c.
Proof.
  intros Ut Ux He Hz Ht Hx Heq.
  exists (with_aux a (Pyomo.x a s c * inject_Z (Pyomo.e a s q))
                     (Pyomo.t a s q c * inject_Z (Pyomo.z a s))).
  cbn [with_aux Pyomo.e Pyomo.z Pyomo.t Pyomo.x Pyomo.xe Pyomo.tz].
  assert (Hsplit : (Pyomo.t a s q c * (1 + inject_Z (Pyomo.z a s))
                    == inject_Z (Pyomo.e a s q) * Pyomo.x a s c)%Q).
  { rewrite Heq. destruct Hz as [Z | Z]; rewrite Z; inject_consts; field. }
  do 4 (split; [reflexivity |]).
  destruct He as [E | E], Hz as [Z | Z]; rewrite E, Z in *; inject_consts;
    (split; [lra |]); (split; [lra |]);
    apply linearization_iff;
    cbn [with_aux Pyomo.e Pyomo.z Pyomo.t Pyomo.x Pyomo.xe Pyomo.tz];
    rewrite E, Z, Ut, Ux; inject_consts; lra.
Qed.

Section BoundingRows.

Variable cfg : config.
Variable mo : Pyomo.model.
Variable a : Pyomo.assignment.
Hypothesis Hg : Pyomo.generate cfg = Ok mo.
Hypothesis Hr : bounding_rows mo a = true.

Lemma bounding_rows_inv :
  (forall p q, In (p, q) (Pyomo.setB mo) ->
     (Pyomo.e a p q = 0 \/ Pyomo.e a p q = 1)%Z /\
     holds (Pyomo.define_volume_rule mo a p q) = true /\
     holds (Pyomo.respect_capacity_rule mo a p q) = true) /\
  (forall p q c, In (p, q) (Pyomo.setB mo) -> In c (Pyomo.setC mo) ->
     (0 <= Pyomo.t a p q c <= 1)%Q) /\
  (forall s, In s (Pyomo.setS mo) ->
     holds (Pyomo.define_num_inputs_rule mo a s) = true /\
     holds (Pyomo.max_inputs_rule mo a s) = true) /\
  (forall s c, In s (Pyomo.setS mo) -> In c (Pyomo.setC mo) ->
     holds (Pyomo.define_inflow_rule mo a s c) = true).
Proof.
  destruct (generate_inv cfg mo Hg) as (ti & to & H).
  assert (HBxC : Pyomo.setBxC mo = list_prod (Pyomo.setB mo) (Pyomo.setC mo)) by tauto.
  assert (HSxC : Pyomo.setSxC mo = list_prod (Pyomo.setS mo) (Pyomo.setC mo)) by tauto.
  clear H. unfold bounding_rows in Hr. rewrite !andb_true_iff in Hr.
  destruct Hr as ((De & Dt) & Rows).
  rewrite forallb_forall in De, Dt, Rows.
  assert (K : forall k,
             In k (Pyomo.over2 (Pyomo.define_volume_rule mo a) (Pyomo.setB mo))
             \/ In k (map (Pyomo.define_num_inputs_rule mo a) (Pyomo.setS mo))
             \/ In k (Pyomo.over2 (Pyomo.define_inflow_rule mo a) (Pyomo.setSxC mo))
             \/ In k (Pyomo.over2 (Pyomo.respect_capacity_rule mo a) (Pyomo.setB mo))
             \/ In k (map (Pyomo.max_inputs_rule mo a) (Pyomo.setS mo)) ->
             holds k = true).
  { intros k Hk. apply Rows. rewrite !in_app_iff. tauto. }
  split; [| split; [| split]].
  - intros p q Hb. split; [| split].
    + apply Binary_cases. exact (De (p, q) Hb).
    + apply K. left. now apply in_over2.
    + apply K. do 3 right. left. now apply in_over2.
  - intros p q c Hb Hc. apply PercentFraction_iff.
    apply (Dt (p, q, c)). rewrite HBxC. now apply in_prod.
  - intros s Hs. split.
    + apply K. right. left. now apply in_map.
    + apply K. do 4 right. now apply in_map.
  - intros s c Hs Hc. apply K. do 2 right. left.
    apply in_over2. rewrite HSxC. now apply in_prod.
Qed.

(** Traffic is bounded by volume, volume by existence. *)
Lemma rows_traffic_le_existence (p q c : string) :
  In (p, q) (Pyomo.setB mo) -> In c (Pyomo.setC mo) ->
  (Pyomo.t a p q c <= inject_Z (Pyomo.e a p q))%Q.
Proof.
  intros Hb Hc. destruct bounding_rows_inv as (RB & Rt & _).
  destruct (RB p q Hb) as (_ & Kv & Kc).
  apply holds_CEq in Kv. apply holds_CLe in Kc.
  assert (Ht : (Pyomo.t a p q c
                <= sum (map (fun c' => Pyomo.t a p q c') (Pyomo.setC mo)))%Q).
  { apply (sum_map_term_le (fun c' => Pyomo.t a p q c')); [| assumption].
    intros c' Hc'. now apply Rt. }
  lra.
Qed.

(** The inflow of a splitter sums the traffic of its input routes, of which
    at most two exist. *)
Lemma rows_inflow (s c : string) :
  In s (Pyomo.setS mo) -> In c (Pyomo.setC mo) ->
  (0 <= Pyomo.x a s c <= 2)%Q.
Proof.
  intros Hs Hc. destruct bounding_rows_inv as (_ & Rt & RS & Rx).
  destruct (RS s Hs) as (Kn & Km). pose proof (Rx s c Hs Hc) as Kx.
  apply holds_CEq in Kn, Kx. apply holds_CLe in Km.
  assert (Hin : forall r, In r (Pyomo.routes_into mo s) -> In r (Pyomo.setB mo)).
  { intros r H. unfold Pyomo.routes_into in H. now apply filter_In in H. }
  assert (Hlo :
    (0 <= sum (map (fun r => Pyomo.t a (fst r) (snd r) c) (Pyomo.routes_into mo s)))%Q).
  { apply sum_map_nonneg. intros [p q] H. cbn [fst snd].
    now apply Rt; [apply Hin |]. }
  assert (Hup :
    (sum (map (fun r => Pyomo.t a (fst r) (snd r) c) (Pyomo.routes_into mo s))
     <= sum (map (fun r => inject_Z (Pyomo.e a (fst r) (snd r)))
              (Pyomo.routes_into mo s)))%Q).
  { apply sum_map_le. intros [p q] H. cbn [fst snd].
    now apply rows_traffic_le_existence; [apply Hin |]. }
  lra.
Qed.

End BoundingRows.

(** The rows that bound [t] and [x] are rows of the model. *)
Lemma feasible_bounding_rows (cfg : config) (mo : Pyomo.model)
  (a : Pyomo.assignment) :
  Pyomo.generate cfg = Ok mo -> Pyomo.feasible mo a = true ->
  bounding_rows mo a = true.
Proof.
  intros Hg Hf. destruct (feasible_inv mo a Hf) as (Hd & _).
  unfold Pyomo.domains in Hd. rewrite !andb_true_iff in Hd.
  destruct Hd as (((((((((De & Dt) & _) & _) & _) & _) & _) & _) & _) & _).
  unfold bounding_rows. rewrite De, Dt. cbn [andb].
  apply forallb_forall. intros k Hk. apply (feasible_plain mo a Hf).
  unfold plain_family. rewrite !in_app_iff in Hk. tauto.
Qed.

(** C8. The default big-M constants are [u_t = 1] and [u_x = 2], and they
    are upper bounds that the other rows of the model already force: the
    domain of [t] gives [t[p,q,c] <= 1], and since the inflow sums traffic
    over the input routes, traffic is bounded by existence and at most two
    input routes exist, [x[s,c] <= 2].  None of these rows mentions [u_t] or
    [u_x].  Every feasible assignment satisfies them, and whatever satisfies
    them and splits evenly is completed into a solution of the seven
    big-M rows: the defaults cut off nothing. *)
Theorem big_M_defaults_are_upper_bounds
  (cfg : config) (mo : Pyomo.model) (a : Pyomo.assignment) :
  Pyomo.generate cfg = Ok mo ->
  (Pyomo.u_t mo == 1 /\ Pyomo.u_x mo == 2)%Q /\
  (Pyomo.feasible mo a = true -> bounding_rows mo a = true) /\
  (bounding_rows mo a = true ->
   (forall p q c, In (p, q) (Pyomo.setB mo) -> In c (Pyomo.setC mo) ->
                  0 <= Pyomo.t a p q c <= Pyomo.u_t mo)%Q /\
   (forall s c, In s (Pyomo.setS mo) -> In c (Pyomo.setC mo) ->
                0 <= Pyomo.x a s c <= Pyomo.u_x mo)%Q /\
   (forall s q c, In (s, q) (Pyomo.setW mo) -> In c (Pyomo.setC mo) ->
      Pyomo.Binary (Pyomo.z a s) = true ->
      (Pyomo.t a s q c ==
       inject_Z (Pyomo.e a s q) * Pyomo.x a s c / (1 + inject_Z (Pyomo.z a s)))%Q ->
      linearization_satisfiable mo a s q c)).
Proof.
  intros Hg.
  destruct (generate_inv cfg mo Hg) as (ti & to & H).
  assert (Ut : Pyomo.u_t mo = 1%Q) by tauto.
  assert (Ux : Pyomo.u_x mo = 2%Q) by tauto.
  assert (HW : Pyomo.setW mo =
               filter (fun r => mem_route r (Pyomo.setB mo))
                 (list_prod (Pyomo.setS mo) (Pyomo.setQ mo))) by tauto.
  clear H.
  split; [rewrite Ut, Ux; split; reflexivity |].
  split; [now apply feasible_bounding_rows with (cfg := cfg) |].
  intros Hr. destruct (bounding_rows_inv cfg mo a Hg Hr) as (RB & Rt & _).
  split; [| split].
  - intros p q c Hb Hc. rewrite Ut. now apply Rt.
  - intros s c Hs Hc. rewrite Ux. now apply (rows_inflow cfg mo a Hg Hr).
  - intros s q c Hw Hc Hz Heq.
    rewrite HW in Hw. apply filter_In in Hw. destruct Hw as [Hsq Hb].
    apply in_prod_iff in Hsq. destruct Hsq as [Hs _].
    apply mem_route_In in Hb.
    apply linearization_complete; try assumption.
    + now destruct (RB s q Hb).
    + now apply Binary_cases.
    + now apply Rt.
    + now apply (rows_inflow cfg mo a Hg Hr).
Qed.

Lemma big_M_defaults_witness :
  (Pyomo.u_t model_1_1_2 == 1 /\ Pyomo.u_x model_1_1_2 == 2)%Q /\
  (Pyomo.feasible model_1_1_2 chain_assignment = true ->
   bounding_rows model_1_1_2 chain_assignment = true) /\
  (bounding_rows model_1_1_2 chain_assignment = true ->
   (forall p q c, In (p, q) (Pyomo.setB model_1_1_2) ->
                  In c (Pyomo.setC model_1_1_2) ->
                  0 <= Pyomo.t chain_assignment p q c <= Pyomo.u_t model_1_1_2)%Q /\
   (forall s c, In s (Pyomo.setS model_1_1_2) -> In c (Pyomo.setC model_1_1_2) ->
                0 <= Pyomo.x chain_assignment s c <= Pyomo.u_x model_1_1_2)%Q /\
   (forall s q c, In (s, q) (Pyomo.setW model_1_1_2) ->
      In c (Pyomo.setC model_1_1_2) ->
      Pyomo.Binary (Pyomo.z chain_assignment s) = true ->
      (Pyomo.t chain_assignment s q c ==
       inject_Z (Pyomo.e chain_assignment s q) * Pyomo.x chain_assignment s c
       / (1 + inject_Z (Pyomo.z chain_assignment s)))%Q ->
      linearization_satisfiable model_1_1_2 chain_assignment s q c)).
Proof.
  apply (big_M_defaults_are_upper_bounds cfg_1_1_2 model_1_1_2 chain_assignment).
  vm_compute. reflexivity.
Defined.

(** * One inbound belt, one outbound belt, no splitter *)

(** C5 as stated fails: the model generated for one inbound belt, one
    outbound belt and no splitter does not have [i1 -> j1] as its single
    route. *)
Lemma scenario_1_1_0_counterexample :
  ~ exists mo, Pyomo.generate (Config 1 1 0) = Ok mo /\
               Pyomo.setB mo = [("i1", "j1")].
Proof.
  intros (mo & Hg & HB). vm_compute in Hg. injection Hg as <-.
  discriminate HB.
Qed.

(** C5, as the code has it.  For one inbound belt, one outbound belt and no
    splitter, [B_filter] rejects the only candidate [i1 -> j1] as a bypass
    and the generated model has no route.  The rule of [connect_inbounds]
    then compares the integers [0] and [1], and the script stops with
    [ValueError] on the declaration of this constraint, whatever values the
    variables might take: no objective is declared and nothing is solved. *)
Theorem scenario_1_1_0 :
  exists mo, Pyomo.generate (Config 1 1 0) = Ok mo /\
    Pyomo.setP mo = ["i1"] /\ Pyomo.setQ mo = ["j1"] /\
    Pyomo.B_filter "i1" "j1" = Ok false /\
    Pyomo.setB mo = [] /\
    (forall a, Pyomo.connect_inbounds_rule mo a "i1" = Pyomo.Trivial false) /\
    (forall a, Pyomo.constraints mo a = raise ValueError).
Proof.
  eexists. split; [vm_compute; reflexivity |].
  do 4 (split; [reflexivity |]).
  split; reflexivity.
Qed.

(** * The route set *)

(** C2, as the code has it.  For positive counts the route set [B] of
    every model that [pyomo_model_1.py] generates lies within [P x Q], and a
    pair of [P x Q] is in [B] exactly when it is neither an
    inbound-to-outbound bypass nor a splitter self-loop; such a model is
    generated whenever the inbound count is in the range of the floats, into
    which the script converts it.  The route set of [sympy_system.py] is the
    whole product [P x Q], bypasses and self-loops included. *)
Theorem route_set_exclusions (cfg : config) :
  (0 < inbounds cfg)%Z -> (0 < outbounds cfg)%Z -> (0 < splitters cfg)%Z ->
  ((inbounds cfg < float_limit)%Z -> exists mo, Pyomo.generate cfg = Ok mo) /\
  (forall mo, Pyomo.generate cfg = Ok mo ->
     (forall p q, In (p, q) (Pyomo.setB mo) ->
                  In p (Pyomo.setP mo) /\ In q (Pyomo.setQ mo)) /\
     (forall p q, In p (Pyomo.setP mo) -> In q (Pyomo.setQ mo) ->
        (In (p, q) (Pyomo.setB mo) <->
         ~ (In p (Pyomo.setI mo) /\ In q (Pyomo.setJ mo)) /\
         ~ (p = q /\ In p (Pyomo.setS mo))))) /\
  (forall p q, In (p, q) (Sympy.setB cfg) <->
               In p (Sympy.setP cfg) /\ In q (Sympy.setQ cfg)).
Proof.
  intros HI HJ HS. split; [| split].
  - intros HL. exact (generate_total cfg HI HJ HL).
  - intros mo Hg. split.
    + intros p q. now apply generated_B_sub with (cfg := cfg).
    + intros p q. now apply generated_B with (cfg := cfg).
  - intros p q. unfold Sympy.setB. apply in_prod_iff.
Qed.

Lemma route_set_exclusions_witness :
  (exists mo, Pyomo.generate cfg_1_1_2 = Ok mo) /\
  (forall mo, Pyomo.generate cfg_1_1_2 = Ok mo ->
     (forall p q, In (p, q) (Pyomo.setB mo) ->
                  In p (Pyomo.setP mo) /\ In q (Pyomo.setQ mo)) /\
     (forall p q, In p (Pyomo.setP mo) -> In q (Pyomo.setQ mo) ->
        (In (p, q) (Pyomo.setB mo) <->
         ~ (In p (Pyomo.setI mo) /\ In q (Pyomo.setJ mo)) /\
         ~ (p = q /\ In p (Pyomo.setS mo))))) /\
  (forall p q, In (p, q) (Sympy.setB cfg_1_1_2) <->
               In p (Sympy.setP cfg_1_1_2) /\ In q (Sympy.setQ cfg_1_1_2)).
Proof.
  destruct (route_set_exclusions cfg_1_1_2) as (H1 & H2 & H3);
    [cbn; lia | cbn; lia | cbn; lia |].
  split; [apply H1; cbn; unfold float_limit; lia |].
  split; assumption.
Defined.

(** C2 as stated fails for [sympy_system.py]: with its own constants (one
    inbound belt, three outbound belts, three splitters) the route set holds
    the bypass [i1 -> j1]. *)
Lemma route_set_sympy_counterexample :
  ~ (In ("i1", "j1") (Sympy.setB (Config 1 3 3)) <->
     ~ (In "i1" (Sympy.setI (Config 1 3 3)) /\
        In "j1" (Sympy.setJ (Config 1 3 3))) /\
     ~ ("i1" = "j1" /\ In "i1" (Sympy.setS (Config 1 3 3)))).
Proof.
  intros [H _].
  assert (HB : In ("i1", "j1") (Sympy.setB (Config 1 3 3)))
    by (vm_compute; left; reflexivity).
  destruct (H HB) as [Hn _]. apply Hn.
  split; vm_compute; left; reflexivity.
Qed.

(** * The parameters [f] and [g] of a generated model *)

Lemma length_init_set (letter : string) (n : Z) :
  length (Pyomo.init_set letter n) = Z.to_nat n.
Proof.
  unfold Pyomo.init_set, range. now rewrite !length_map, length_seq.
Qed.

Lemma init_set_nonpos (letter : string) (n : Z) :
  (n <= 0)%Z -> Pyomo.init_set letter n = [].
Proof.
  intros Hn. unfold Pyomo.init_set, range.
  replace (Z.to_nat n) with 0%nat by lia. reflexivity.
Qed.

(** The data of [f]: every index of the list holds the value [F] gives it. *)
Lemma lookup_mapM (F : string * string -> result float)
  (l : list (string * string)) (d : list (string * string * Q))
  (k : string * string) :
  mapM (fun ic => v <- F ic ;;
                  r <- Pyomo.validate Pyomo.PercentFraction v ;;
                  Ok (ic, r))
       l = Ok d ->
  In k l ->
  exists r, F k = Ok (Finite r) /\ Pyomo.PercentFraction r = true /\
            Pyomo.lookup k d = Some r.
Proof.
  revert d. induction l as [| a l IH]; intros d H Hk; [contradiction |].
  simpl in H. apply bind_Ok in H. destruct H as (b & Hb & H).
  apply bind_Ok in H. destruct H as (d' & Hd' & H). injection H as <-.
  apply bind_Ok in Hb. destruct Hb as (va & Hva & Hb).
  apply bind_Ok in Hb. destruct Hb as (ra & Hra & Hb).
  apply validate_Ok in Hra. destruct Hra as [-> Hpf].
  injection Hb as <-. cbn [Pyomo.lookup].
  destruct (route_eqb k a) eqn:E.
  - apply route_eqb_eq in E. subst k. now exists ra.
  - destruct Hk as [-> | Hk].
    + assert (route_eqb k k = true) by now apply route_eqb_eq. congruence.
    + now apply IH.
Qed.

(** The traffic values behind a generated model: the default of [g] was
    accepted, and so was [t_in] as soon as there is an inbound belt. *)
Lemma generated_traffic (cfg : config) (mo : Pyomo.model) :
  Pyomo.generate cfg = Ok mo ->
  exists ti to,
    Pyomo.derived cfg = Ok (ti, Finite to) /\ (0 <= to <= 1)%Q /\
    (Pyomo.setI mo <> [] -> exists r, ti = Finite r /\ (0 <= r <= 1)%Q).
Proof.
  intros Hg.
  destruct (generate_inv cfg mo Hg)
    as (ti & to & Hd & EI & _ & _ & EC & _ & _ & _ & EIxC & _ & _ & _ & _ & _
        & Hf & _ & (go & Hgo & _) & _).
  apply validate_Ok in Hgo. destruct Hgo as [-> Hgo].
  apply PercentFraction_iff in Hgo.
  exists ti, go. split; [assumption |]. split; [assumption |].
  intros Hne.
  assert (HI : (1 <= inbounds cfg)%Z).
  { destruct (Z.lt_ge_cases 0 (inbounds cfg)) as [H | H]; [lia |].
    rewrite init_set_nonpos in EI by lia. contradiction. }
  assert (Hic : In ("i" ++ str 1, "c" ++ str 1) (Pyomo.setIxC mo)).
  { rewrite EIxC, EI, EC. apply in_prod; apply in_init_set; exists 1%Z;
      (split; [unfold Pyomo.cargos; lia | reflexivity]). }
  destruct (lookup_mapM _ _ _ _ Hf Hic) as (r & Hr & Hpf & _).
  cbn [fst snd] in Hr. rewrite f_init_members in Hr by lia.
  change (1 =? 1)%Z with true in Hr. injection Hr as ->.
  exists r. split; [reflexivity | now apply PercentFraction_iff].
Qed.

(** The values of the parameters of a generated model. *)
Lemma generated_f_value (cfg : config) (mo : Pyomo.model) (ti : Q) (to : float)
  (i c : string) :
  Pyomo.generate cfg = Ok mo -> Pyomo.derived cfg = Ok (Finite ti, to) ->
  In i (Pyomo.setI mo) -> In c (Pyomo.setC mo) ->
  exists ki kc,
    Pyomo.get_int i = Ok ki /\ Pyomo.get_int c = Ok kc /\
    Pyomo.param_get (Pyomo.f mo) i c = Ok (if (ki =? kc)%Z then ti else 0%Q).
Proof.
  intros Hg Hd Hi Hc.
  destruct (generate_inv cfg mo Hg)
    as (ti' & to' & Hd' & EI & _ & _ & EC & _ & _ & _ & EIxC & _ & _ & _ & _ & _
        & Hf & Hfi & _).
  rewrite Hd in Hd'. injection Hd' as <- <-.
  assert (Hic : In (i, c) (Pyomo.setIxC mo))
    by (rewrite EIxC; now apply in_prod).
  destruct (lookup_mapM _ _ _ (i, c) Hf Hic) as (fic & Hfic & _ & Hl).
  cbn [fst snd] in Hfic. rewrite EI in Hi. rewrite EC in Hc.
  apply in_init_set in Hi. destruct Hi as (ki & Hki & ->).
  apply in_init_set in Hc. destruct Hc as (kc & Hkc & ->).
  rewrite f_init_members in Hfic by lia.
  exists ki, kc.
  rewrite (get_int_member _ _ letter_i), (get_int_member _ _ letter_c) by lia.
  split; [reflexivity |]. split; [reflexivity |].
  unfold Pyomo.param_get. rewrite Hfi.
  apply mem_route_In in Hic. rewrite Hic, Hl.
  destruct (ki =? kc)%Z; now injection Hfic as ->.
Qed.

Lemma generated_g_value (cfg : config) (mo : Pyomo.model) (ti : float) (to : Q)
  (j c : string) :
  Pyomo.generate cfg = Ok mo -> Pyomo.derived cfg = Ok (ti, Finite to) ->
  In j (Pyomo.setJ mo) -> In c (Pyomo.setC mo) ->
  Pyomo.param_get (Pyomo.g mo) j c = Ok to.
Proof.
  intros Hg Hd Hj Hc.
  destruct (generate_inv cfg mo Hg)
    as (ti' & to' & Hd' & _ & _ & _ & _ & _ & _ & _ & _ & EJxC & _ & _ & _ & _
        & _ & _ & (go & Hgo & Hgp) & _).
  rewrite Hd in Hd'. injection Hd' as <- <-.
  apply validate_Ok in Hgo. destruct Hgo as [Hgo _]. injection Hgo as <-.
  assert (Hjc : In (j, c) (Pyomo.setJxC mo))
    by (rewrite EJxC; now apply in_prod).
  unfold Pyomo.param_get. rewrite Hgp. cbn [Pyomo.index Pyomo.data Pyomo.default
    Pyomo.lookup].
  apply mem_route_In in Hjc. now rewrite Hjc.
Qed.

(** The sets of a generated model have the sizes of the counts. *)
Lemma generated_sizes (cfg : config) (mo : Pyomo.model) :
  Pyomo.generate cfg = Ok mo ->
  Z.of_nat (length (Pyomo.setI mo)) = Z.max 0 (inbounds cfg) /\
  Z.of_nat (length (Pyomo.setJ mo)) = Z.max 0 (outbounds cfg) /\
  Z.of_nat (length (Pyomo.setC mo)) = Z.max 0 (inbounds cfg).
Proof.
  intros Hg.
  destruct (generate_inv cfg mo Hg) as (ti & to & _ & EI & EJ & _ & EC & _).
  rewrite EI, EJ, EC, !length_init_set. unfold Pyomo.cargos. lia.
Qed.

(** The two traffic values as the script computes them: [t_in] is the
    float quotient [throughput / inbounds] (dividing it by [1] changes
    nothing) and [t_out] the float quotient of the float
    [throughput / outbounds] by the count of cargos. *)
Lemma derived_quotients (cfg : config) (ti to : float) :
  Pyomo.derived cfg = Ok (ti, to) ->
  truediv (Pyomo.throughput cfg) (inbounds cfg) = Ok ti /\
  exists vo, truediv (Pyomo.throughput cfg) (outbounds cfg) = Ok vo /\
             float_truediv vo (Pyomo.cargos cfg) = Ok to.
Proof.
  unfold Pyomo.derived, Pyomo.t_in, Pyomo.t_out, Pyomo.v_in, Pyomo.v_out.
  intros H.
  apply bind_Ok in H. destruct H as (vi & Hvi & H).
  apply bind_Ok in H. destruct H as (vo & Hvo & H).
  rewrite Hvi, Hvo in H. cbn [bind Ok] in H.
  apply bind_Ok in H. destruct H as (ti' & Hti & H).
  apply bind_Ok in H. destruct H as (to' & Hto & H).
  injection H as <- <-.
  split; [| now exists vo].
  assert (Hfin : exists r, vi = Finite r).
  { unfold truediv in Hvi. destruct (inbounds cfg =? 0)%Z; [discriminate |].
    destruct (round64 _) as [r |]; [| discriminate].
    injection Hvi as <-. now exists r. }
  destruct Hfin as (r & ->).
  rewrite (float_truediv_one _ _ r Hvi) in Hti. now injection Hti as <-.
Qed.

(** Where the exact quotients are floats, the two traffic values are these
    quotients. *)
Lemma derived_exact (cfg : config) (ti to : Q) :
  Pyomo.derived cfg = Ok (Finite ti, Finite to) ->
  (is_float (exact_t_in cfg) -> ti == exact_t_in cfg)%Q /\
  (is_float (inject_Z (Pyomo.throughput cfg) / inject_Z (outbounds cfg)) ->
   is_float (inject_Z (Pyomo.cargos cfg)) ->
   is_float (exact_t_out cfg) -> to == exact_t_out cfg)%Q.
Proof.
  intros Hd. destruct (derived_Ok_nonzero cfg _ Hd) as [NI NJ].
  destruct (derived_quotients cfg _ _ Hd) as (Qi & vo & Qo1 & Qo2).
  unfold truediv in Qi, Qo1.
  replace (inbounds cfg =? 0)%Z with false in Qi
    by (symmetry; now apply Z.eqb_neq).
  replace (outbounds cfg =? 0)%Z with false in Qo1
    by (symmetry; now apply Z.eqb_neq).
  split.
  - intros (r & Hr & Er). unfold exact_t_in in Hr. rewrite Hr in Qi.
    now injection Qi as <-.
  - intros (r1 & Hr1 & Er1) (r2 & Hr2 & Er2) (r3 & Hr3 & Er3).
    rewrite Hr1 in Qo1. injection Qo1 as <-.
    unfold float_truediv, float_of_int in Qo2. rewrite Hr2 in Qo2.
    cbn [bind Ok] in Qo2.
    destruct (Qeq_bool r2 0); [discriminate |]. injection Qo2 as Qo2.
    assert (E : (r1 / r2 == exact_t_out cfg)%Q)
      by (unfold exact_t_out; now rewrite Er1, Er2).
    rewrite (round64_comp _ _ E), Hr3 in Qo2. now injection Qo2 as <-.
Qed.

(** C7, as the code has it.  For positive counts and every generated
    model (one is generated whenever the inbound count is in the range of
    the floats), [I], [J] and [C] have [inbounds], [outbounds] and
    [inbounds] members and [throughput = min(|I|, |J|)].  The traffic values
    are float quotients: [f[i, c]] is the float [throughput / |I|] when the
    ordinal indices of [i] and [c] are equal (every inbound belt has such a
    cargo) and [0] otherwise; [g[j, c]] is the float quotient by [|C|] of
    the float [throughput / |J|].  All of them lie in [[0, 1]], and they are
    the rationals of the same names whenever these are floats. *)
Theorem traffic_parameters (cfg : config) :
  (0 < inbounds cfg)%Z -> (0 < outbounds cfg)%Z -> (0 < splitters cfg)%Z ->
  ((inbounds cfg < float_limit)%Z -> exists mo, Pyomo.generate cfg = Ok mo) /\
  (forall mo, Pyomo.generate cfg = Ok mo ->
   exists ti to,
    let nI := Z.of_nat (length (Pyomo.setI mo)) in
    let nJ := Z.of_nat (length (Pyomo.setJ mo)) in
    let nC := Z.of_nat (length (Pyomo.setC mo)) in
    let thr := Pyomo.throughput cfg in
    (nI = inbounds cfg /\ nJ = outbounds cfg /\ nC = inbounds cfg) /\
    thr = Z.min nI nJ /\
    truediv thr nI = Ok (Finite ti) /\
    (exists vo, truediv thr nJ = Ok vo /\ float_truediv vo nC = Ok (Finite to)) /\
    (forall i c, In i (Pyomo.setI mo) -> In c (Pyomo.setC mo) ->
       exists ni nc fic,
         Pyomo.get_int i = Ok ni /\ Pyomo.get_int c = Ok nc /\
         Pyomo.param_get (Pyomo.f mo) i c = Ok fic /\
         (ni = nc -> fic = ti) /\
         (ni <> nc -> fic = 0%Q) /\
         (0 <= fic <= 1)%Q) /\
    (forall i, In i (Pyomo.setI mo) ->
       exists c, In c (Pyomo.setC mo) /\ Pyomo.get_int i = Pyomo.get_int c) /\
    (forall j c, In j (Pyomo.setJ mo) -> In c (Pyomo.setC mo) ->
       Pyomo.param_get (Pyomo.g mo) j c = Ok to) /\
    (0 <= to <= 1)%Q /\
    (is_float (exact_t_in cfg) -> ti == exact_t_in cfg)%Q /\
    (is_float (inject_Z thr / inject_Z (outbounds cfg)) ->
     is_float (inject_Z (Pyomo.cargos cfg)) ->
     is_float (exact_t_out cfg) -> to == exact_t_out cfg)%Q).
Proof.
  intros HI HJ HS. split; [intros HL; exact (generate_total cfg HI HJ HL) |].
  intros mo Hg.
  destruct (generated_sizes cfg mo Hg) as (SI & SJ & SC).
  rewrite Z.max_r in SI, SJ, SC by lia.
  destruct (generated_traffic cfg mo Hg) as (ti0 & to & Hd & Bto & Hti).
  destruct Hti as (ti & -> & Bti).
  { intros N. rewrite N in SI. cbn [length] in SI. lia. }
  exists ti, to.
  destruct (derived_quotients cfg _ _ Hd) as (Qi & vo & Qo1 & Qo2).
  destruct (generate_inv cfg mo Hg) as (ti' & to' & _ & EI & EJ & _ & EC & _).
  cbv zeta. rewrite SI, SJ, SC.
  split; [repeat split |]. split; [reflexivity |].
  split; [assumption |].
  split; [now exists vo |].
  split; [| split; [| split]].
  - intros i c Hi Hc.
    destruct (generated_f_value cfg mo ti _ i c Hg Hd Hi Hc)
      as (ki & kc & Gi & Gc & Hp).
    exists ki, kc, (if (ki =? kc)%Z then ti else 0%Q).
    split; [assumption |]. split; [assumption |]. split; [assumption |].
    destruct (Z.eqb_spec ki kc) as [E | E].
    + split; [reflexivity |]. split; [contradiction | assumption].
    + split; [contradiction |]. split; [reflexivity | lra].
  - intros i Hi. rewrite EI in Hi. apply in_init_set in Hi.
    destruct Hi as (ki & Hki & ->).
    exists ("c" ++ str ki)%string. split.
    + rewrite EC. apply in_init_set. exists ki. now split.
    + now rewrite (get_int_member _ _ letter_i), (get_int_member _ _ letter_c)
        by lia.
  - intros j c Hj Hc. now apply (generated_g_value cfg mo (Finite ti)).
  - split; [assumption |]. exact (derived_exact cfg ti to Hd).
Qed.

Lemma traffic_parameters_witness :
  exists mo ti to,
    Pyomo.generate (Config 8 8 10) = Ok mo /\
    let nI := Z.of_nat (length (Pyomo.setI mo)) in
    let nJ := Z.of_nat (length (Pyomo.setJ mo)) in
    let nC := Z.of_nat (length (Pyomo.setC mo)) in
    let thr := Pyomo.throughput (Config 8 8 10) in
    (nI = 8%Z /\ nJ = 8%Z /\ nC = 8%Z) /\
    thr = Z.min nI nJ /\
    truediv thr nI = Ok (Finite ti) /\
    (exists vo, truediv thr nJ = Ok vo /\ float_truediv vo nC = Ok (Finite to)) /\
    (forall i c, In i (Pyomo.setI mo) -> In c (Pyomo.setC mo) ->
       exists ni nc fic,
         Pyomo.get_int i = Ok ni /\ Pyomo.get_int c = Ok nc /\
         Pyomo.param_get (Pyomo.f mo) i c = Ok fic /\
         (ni = nc -> fic = ti) /\
         (ni <> nc -> fic = 0%Q) /\
         (0 <= fic <= 1)%Q) /\
    (forall i, In i (Pyomo.setI mo) ->
       exists c, In c (Pyomo.setC mo) /\ Pyomo.get_int i = Pyomo.get_int c) /\
    (forall j c, In j (Pyomo.setJ mo) -> In c (Pyomo.setC mo) ->
       Pyomo.param_get (Pyomo.g mo) j c = Ok to) /\
    (0 <= to <= 1)%Q /\
    (is_float (exact_t_in (Config 8 8 10)) ->
     ti == exact_t_in (Config 8 8 10))%Q /\
    (is_float (inject_Z thr / inject_Z (outbounds (Config 8 8 10))) ->
     is_float (inject_Z (Pyomo.cargos (Config 8 8 10))) ->
     is_float (exact_t_out (Config 8 8 10)) ->
     to == exact_t_out (Config 8 8 10))%Q.
Proof.
  destruct (traffic_parameters (Config 8 8 10)) as [H1 H2];
    [cbn; lia | cbn; lia | cbn; lia |].
  destruct H1 as [mo Hg]; [cbn; unfold float_limit; lia |].
  destruct (H2 mo Hg) as (ti & to & H).
  exists mo, ti, to. split; assumption.
Defined.

(** C7 as stated fails.  For five inbound belts, six outbound belts and one
    splitter the value of [g] is the float [3002399751580331 / 2 ^ 54], which
    is not the rational [(throughput / |J|) / |C| = 1 / 6]; and for the
    positive counts [2 ^ 1024], [1] and [1] no parameter is computed: the
    script stops with [OverflowError] in [t_out = v_out / cargos]. *)
Lemma traffic_parameters_counterexample :
  (exists mo, Pyomo.generate (Config 5 6 1) = Ok mo /\
     In "j1" (Pyomo.setJ mo) /\ In "c1" (Pyomo.setC mo) /\
     Pyomo.param_get (Pyomo.g mo) "j1" "c1"
     = Ok (3002399751580331 # 18014398509481984)%Q /\
     exact_t_out (Config 5 6 1) == 1 # 6 /\
     ~ (3002399751580331 # 18014398509481984 == exact_t_out (Config 5 6 1))%Q) /\
  Pyomo.t_out (Config (2 ^ 1024) 1 1) = raise OverflowError /\
  Pyomo.generate (Config (2 ^ 1024) 1 1) = raise OverflowError.
Proof.
  split; [| split; vm_compute; reflexivity].
  eexists. split; [vm_compute; reflexivity |].
  split; [left; reflexivity |]. split; [left; reflexivity |].
  split; [vm_compute; reflexivity |].
  split; [reflexivity |].
  intros E. vm_compute in E. discriminate E.
Qed.

(** * Conservation of every cargo across the network *)

Lemma mapM_map_pure {A B C : Type} (h : B -> result C) (g : A -> B)
  (h' : A -> C) (l : list A) :
  (forall x, In x l -> h (g x) = Ok (h' x)) ->
  mapM h (map g l) = Ok (map h' l).
Proof.
  induction l as [| a l IH]; intros H; [reflexivity |].
  simpl. rewrite (H a) by now left.
  rewrite IH by (intros x Hx; apply H; now right). reflexivity.
Qed.

(** The first exception of a comprehension whose items can only raise [err]. *)
Lemma mapM_raise {A B : Type} (h : A -> result B) (err : exception) (l : list A) :
  (forall x, In x l -> (exists y, h x = Ok y) \/ h x = raise err) ->
  (exists x, In x l /\ h x = raise err) ->
  mapM h l = raise err.
Proof.
  induction l as [| a l IH]; intros Hall (x & Hx & Hr); [contradiction |].
  simpl. destruct (Hall a) as [[y Hy] | Ha]; [now left | |].
  - rewrite Hy. cbn [bind Ok]. rewrite IH; [reflexivity | |].
    + intros x' Hx'. apply Hall. now right.
    + destruct Hx as [-> | Hx]; [| now exists x].
      rewrite Hy in Hr. discriminate.
  - rewrite Ha. reflexivity.
Qed.

(** A sum that meets the index [k] exactly once. *)
Lemma sum_indicator (k : Z) (v : Q) (len a : nat) :
  (sum (map (fun i => if (Z.of_nat i + 1 =? k)%Z then v else 0) (seq a len))
   == if ((Z.of_nat a + 1 <=? k) && (k <=? Z.of_nat a + Z.of_nat len))%Z
      then v else 0)%Q.
Proof.
  revert a. induction len as [| len IH]; intros a.
  - cbn [seq map]. rewrite sum_nil.
    destruct ((Z.of_nat a + 1 <=? k) && (k <=? Z.of_nat a + Z.of_nat 0))%Z eqn:E;
      [| reflexivity].
    apply andb_true_iff in E. rewrite !Z.leb_le in E. lia.
  - cbn [seq map]. rewrite sum_cons, IH.
    destruct (Z.eqb_spec (Z.of_nat a + 1) k) as [E | E].
    + replace ((Z.of_nat (S a) + 1 <=? k) && (k <=? Z.of_nat (S a) + Z.of_nat len))%Z
        with false by (symmetry; apply andb_false_iff; rewrite !Z.leb_gt; lia).
      replace ((Z.of_nat a + 1 <=? k) && (k <=? Z.of_nat a + Z.of_nat (S len)))%Z
        with true by (symmetry; apply andb_true_iff; rewrite !Z.leb_le; lia).
      ring.
    + replace ((Z.of_nat a + 1 <=? k) && (k <=? Z.of_nat a + Z.of_nat (S len)))%Z
        with ((Z.of_nat (S a) + 1 <=? k) && (k <=? Z.of_nat (S a) + Z.of_nat len))%Z.
      * ring.
      * apply eq_true_iff_eq. rewrite !andb_true_iff, !Z.leb_le. lia.
Qed.

Lemma sum_const {A : Type} (v : Q) (l : list A) :
  (sum (map (fun _ => v) l) == v * inject_Z (Z.of_nat (length l)))%Q.
Proof.
  induction l as [| a l IH].
  - cbn [map length]. rewrite sum_nil.
    change (inject_Z (Z.of_nat 0)) with 0%Q. ring.
  - cbn [map length]. rewrite sum_cons, IH, Nat2Z.inj_succ.
    unfold Z.succ. rewrite inject_Z_plus. ring.
Qed.

Lemma mapM_pure {A B : Type} (h : A -> result B) (h' : A -> B) (l : list A) :
  (forall x, In x l -> h x = Ok (h' x)) -> mapM h l = Ok (map h' l).
Proof.
  induction l as [| x l IH]; intros H; [reflexivity |].
  cbn [mapM map]. rewrite (H x) by now left.
  rewrite IH by (intros y Hy; apply H; now right). reflexivity.
Qed.

(** Supply of the cargo numbered [kc]: the one inbound belt of that number
    supplies [t_in], the others nothing. *)
Lemma supply_value (cfg : config) (mo : Pyomo.model) (ti : Q) (to : float)
  (kc : Z) :
  Pyomo.generate cfg = Ok mo -> Pyomo.derived cfg = Ok (Finite ti, to) ->
  (1 <= kc <= inbounds cfg)%Z ->
  exists s, supply mo ("c" ++ str kc) = Ok s /\ (s == ti)%Q.
Proof.
  intros Hg Hd Hk. unfold supply.
  destruct (generate_inv cfg mo Hg) as (ti' & to' & _ & EI & _ & _ & EC & _).
  assert (Hc : In ("c" ++ str kc)%string (Pyomo.setC mo)).
  { rewrite EC. apply in_init_set. exists kc. unfold Pyomo.cargos. now split. }
  rewrite EI. unfold Pyomo.init_set, range. rewrite map_map.
  rewrite (mapM_map_pure _ _
             (fun i => if (Z.of_nat i + 1 =? kc)%Z then ti else 0%Q)).
  - eexists. split; [reflexivity |]. rewrite sum_indicator.
    replace ((Z.of_nat 0 + 1 <=? kc)
             && (kc <=? Z.of_nat 0 + Z.of_nat (Z.to_nat (inbounds cfg))))%Z
      with true by (symmetry; apply andb_true_iff; rewrite !Z.leb_le; lia).
    reflexivity.
  - intros x Hx. apply in_seq in Hx.
    assert (Hi : In ("i" ++ str (Z.of_nat x + 1))%string (Pyomo.setI mo)).
    { rewrite EI. apply in_init_set. exists (Z.of_nat x + 1)%Z.
      split; [lia | reflexivity]. }
    destruct (generated_f_value cfg mo ti to _ _ Hg Hd Hi Hc)
      as (ki & kc' & Gi & Gc & Hp).
    rewrite (get_int_member _ _ letter_i) in Gi by lia.
    rewrite (get_int_member _ _ letter_c) in Gc by lia.
    injection Gi as <-. injection Gc as <-. exact Hp.
Qed.

(** Demand of a cargo: every outbound belt asks for [t_out]. *)
Lemma demand_value (cfg : config) (mo : Pyomo.model) (ti : float) (to : Q)
  (c : string) :
  Pyomo.generate cfg = Ok mo -> Pyomo.derived cfg = Ok (ti, Finite to) ->
  In c (Pyomo.setC mo) ->
  exists d, demand mo c = Ok d /\
    (d == to * inject_Z (Z.of_nat (length (Pyomo.setJ mo))))%Q.
Proof.
  intros Hg Hd Hc. unfold demand.
  rewrite (mapM_pure _ (fun _ => to)).
  - eexists. split; [reflexivity |]. apply sum_const.
  - intros j Hj. now apply (generated_g_value cfg mo ti).
Qed.

(** C4, as the code has it.  The model is generated without any check of
    conservation.  For positive belt counts and every cargo of a generated
    model, the total inbound supply is the float [t_in] and the total
    outbound demand is [|J|] times the float [t_out]; the two are equal
    whenever these floats are the exact quotients [throughput / |I|] and
    [(throughput / |J|) / |C|].  Such a model is generated whenever the
    inbound count is in the range of the floats. *)
Theorem conservation_at_generation (cfg : config) :
  (0 < inbounds cfg)%Z -> (0 < outbounds cfg)%Z ->
  ((inbounds cfg < float_limit)%Z -> exists mo, Pyomo.generate cfg = Ok mo) /\
  (forall mo, Pyomo.generate cfg = Ok mo ->
     exists ti to,
       Pyomo.derived cfg = Ok (Finite ti, Finite to) /\
       forall c, In c (Pyomo.setC mo) ->
         exists s d, supply mo c = Ok s /\ demand mo c = Ok d /\
           (s == ti)%Q /\ (d == inject_Z (outbounds cfg) * to)%Q /\
           ((ti == exact_t_in cfg)%Q -> (to == exact_t_out cfg)%Q ->
            (s == d)%Q)).
Proof.
  intros HI HJ. split; [intros HL; exact (generate_total cfg HI HJ HL) |].
  intros mo Hg.
  destruct (generated_sizes cfg mo Hg) as (SI & SJ & _).
  rewrite Z.max_r in SI, SJ by lia.
  destruct (generated_traffic cfg mo Hg) as (ti0 & to & Hd & _ & Hti).
  destruct Hti as (ti & -> & _).
  { intros N. rewrite N in SI. cbn [length] in SI. lia. }
  exists ti, to. split; [assumption |].
  intros c Hc.
  destruct (demand_value cfg mo _ to c Hg Hd Hc) as (d & Hdem & Ed).
  rewrite SJ in Ed.
  destruct (generate_inv cfg mo Hg) as (ti' & to' & _ & _ & _ & _ & EC & _).
  rewrite EC in Hc. apply in_init_set in Hc. destruct Hc as (kc & Hkc & ->).
  unfold Pyomo.cargos in Hkc.
  destruct (supply_value cfg mo ti _ kc Hg Hd Hkc) as (s & Hs & Es).
  exists s, d. split; [assumption |]. split; [assumption |].
  split; [assumption |]. split; [rewrite Ed; ring |].
  intros Ei Eo. rewrite Es, Ed, Ei, Eo. unfold exact_t_in, exact_t_out, Pyomo.cargos.
  destruct (throughput_bounds cfg HI HJ) as (_ & _ & _ & HI0 & _ & HJ0).
  field. split; lra.
Qed.

Lemma conservation_at_generation_witness :
  exists mo ti to,
    Pyomo.generate (Config 8 8 10) = Ok mo /\
    Pyomo.derived (Config 8 8 10) = Ok (Finite ti, Finite to) /\
    forall c, In c (Pyomo.setC mo) ->
      exists s d, supply mo c = Ok s /\ demand mo c = Ok d /\
        (s == ti)%Q /\ (d == inject_Z (outbounds (Config 8 8 10)) * to)%Q /\
        ((ti == exact_t_in (Config 8 8 10))%Q ->
         (to == exact_t_out (Config 8 8 10))%Q -> (s == d)%Q).
Proof.
  destruct (conservation_at_generation (Config 8 8 10)) as [H1 H2];
    [cbn; lia | cbn; lia |].
  destruct H1 as [mo Hg]; [cbn; unfold float_limit; lia |].
  destruct (H2 mo Hg) as (ti & to & Hd & H).
  exists mo, ti, to. split; [assumption |]. split; assumption.
Defined.

(** C4 as stated fails: for five inbound belts, six outbound belts and one
    splitter the model is generated although, for the cargo [c1], the supply
    [1] differs from the demand, six times the float
    [3002399751580331 / 2 ^ 54]. *)
Lemma conservation_counterexample :
  exists mo s d,
    Pyomo.generate (Config 5 6 1) = Ok mo /\
    In "c1" (Pyomo.setC mo) /\
    supply mo "c1" = Ok s /\ demand mo "c1" = Ok d /\
    (s == 1)%Q /\ (d == 6 * (3002399751580331 # 18014398509481984))%Q /\
    ~ (s == d)%Q.
Proof.
  eexists. eexists. eexists.
  split; [vm_compute; reflexivity |].
  split; [left; reflexivity |].
  split; [vm_compute; reflexivity |].
  split; [vm_compute; reflexivity |].
  split; [reflexivity |]. split; [reflexivity |].
  intros E. vm_compute in E. discriminate E.
Qed.

(** * The result extractor *)

Lemma Qgt_half (ev : Q) : negb (Qle_bool ev (1 # 2)) = true <-> (1 # 2 < ev)%Q.
Proof.
  rewrite negb_true_iff. split.
  - intros H. apply Qnot_le_lt. intros Hle.
    apply Qle_bool_iff in Hle. congruence.
  - intros H. destruct (Qle_bool ev (1 # 2)) eqn:E; [| reflexivity].
    apply Qle_bool_iff in E. lra.
Qed.

Lemma report_solved (sol : Pyomo.solution) (B : list (string * string)) :
  solved sol B -> Pyomo.report sol B = (reported sol B, None).
Proof.
  induction B as [| [p q] B IH]; intros Hs; [reflexivity |].
  assert (Hs' : solved sol B) by (intros p' q' H; apply Hs; now right).
  destruct (Hs p q) as [He Hv]; [now left |].
  cbn [Pyomo.report reported flat_map fst snd].
  destruct (Pyomo.e_value sol p q) as [ev |]; [| contradiction].
  destruct (Pyomo.v_value sol p q) as [vv |]; [| contradiction].
  cbn [Pyomo.value Ok]. rewrite (IH Hs'). unfold reported.
  destruct (negb (Qle_bool ev (1 # 2))); reflexivity.
Qed.

Lemma in_reported (sol : Pyomo.solution) (B : list (string * string))
  (p q : string) (vol : Q) :
  In (p, q, vol) (reported sol B) <->
  In (p, q) B /\
  exists ev, Pyomo.e_value sol p q = Some ev /\ (1 # 2 < ev)%Q /\
             Pyomo.v_value sol p q = Some vol.
Proof.
  unfold reported. rewrite in_flat_map. split.
  - intros ([p' q'] & Hr & H). cbn [fst snd] in H.
    destruct (Pyomo.e_value sol p' q') as [ev |] eqn:Ee; [| contradiction].
    destruct (Pyomo.v_value sol p' q') as [vv |] eqn:Ev; [| contradiction].
    destruct (negb (Qle_bool ev (1 # 2))) eqn:Eh; [| contradiction].
    destruct H as [H | []]. injection H as -> -> ->.
    split; [assumption |]. exists ev. rewrite Ee, Ev.
    split; [reflexivity |]. split; [now apply Qgt_half | reflexivity].
  - intros (Hr & ev & Ee & Hh & Ev). exists (p, q). split; [assumption |].
    cbn [fst snd]. rewrite Ee, Ev. apply Qgt_half in Hh. rewrite Hh.
    now left.
Qed.

Lemma report_error (sol : Pyomo.solution) (B : list (string * string))
  (err : exception) :
  snd (Pyomo.report sol B) = Some err -> err = ValueError.
Proof.
  induction B as [| [p q] B IH]; [discriminate |].
  cbn [Pyomo.report].
  destruct (Pyomo.e_value sol p q) as [ev |]; cbn [Pyomo.value Ok raise];
    [| cbn; now intros [= <-]].
  destruct (negb (Qle_bool ev (1 # 2))); [| exact IH].
  destruct (Pyomo.v_value sol p q) as [vv |]; cbn [Pyomo.value Ok raise];
    [| cbn; now intros [= <-]].
  destruct (Pyomo.report sol B) as [out e']. exact IH.
Qed.

Lemma report_missing (sol : Pyomo.solution) (B : list (string * string)) :
  (exists p q, In (p, q) B /\ Pyomo.e_value sol p q = None) ->
  snd (Pyomo.report sol B) = Some ValueError.
Proof.
  induction B as [| [p q] B IH]; intros (p' & q' & Hin & Hn); [contradiction |].
  cbn [Pyomo.report].
  destruct (Pyomo.e_value sol p q) as [ev |] eqn:Ee; cbn [Pyomo.value Ok raise];
    [| reflexivity].
  assert (Hrest : exists p q, In (p, q) B /\ Pyomo.e_value sol p q = None).
  { destruct Hin as [E | Hin]; [| now exists p', q'].
    injection E as -> ->. congruence. }
  specialize (IH Hrest).
  destruct (negb (Qle_bool ev (1 # 2))); [| exact IH].
  destruct (Pyomo.v_value sol p q) as [vv |]; cbn [Pyomo.value Ok raise];
    [| reflexivity].
  destruct (Pyomo.report sol B) as [out e']. exact IH.
Qed.

(** The routes of the report: the routes of [B] with an existence value
    above [0.5], in the order of [B], each once. *)
Lemma reported_routes (sol : Pyomo.solution) (B : list (string * string)) :
  solved sol B ->
  map fst (reported sol B)
  = filter (fun r => above_half (Pyomo.e_value sol (fst r) (snd r))) B.
Proof.
  induction B as [| [p q] B IH]; intros Hs; [reflexivity |].
  assert (Hs' : solved sol B) by (intros p' q' H; apply Hs; now right).
  destruct (Hs p q) as [He Hv]; [now left |].
  unfold reported in *. cbn [flat_map filter fst snd].
  destruct (Pyomo.e_value sol p q) as [ev |]; [| contradiction].
  destruct (Pyomo.v_value sol p q) as [vv |]; [| contradiction].
  cbn [above_half]. rewrite map_app, (IH Hs').
  destruct (negb (Qle_bool ev (1 # 2))); reflexivity.
Qed.

(** C9, as the code has it.  On a solved assignment the final loop raises
    nothing and its report is the list [reported]: the routes of [B] whose
    existence value is above [0.5], in the order of [B] and each once, every
    one as a (producer, consumer, volume) triple with its volume [v[p, q]].
    The code has no decode error of its own: when a route of [B] has no
    existence value the loop stops with the [ValueError] of [pyo.value], the
    only exception it can raise, and over an empty [B] it ends normally with
    an empty report whatever the assignment. *)
Theorem result_extraction (sol : Pyomo.solution) (B : list (string * string)) :
  (solved sol B ->
   Pyomo.report sol B = (reported sol B, None) /\
   map fst (fst (Pyomo.report sol B))
   = filter (fun r => above_half (Pyomo.e_value sol (fst r) (snd r))) B /\
   forall p q vol,
     In (p, q, vol) (fst (Pyomo.report sol B)) <->
     In (p, q) B /\
     exists ev, Pyomo.e_value sol p q = Some ev /\ (1 # 2 < ev)%Q /\
                Pyomo.v_value sol p q = Some vol) /\
  ((exists p q, In (p, q) B /\ Pyomo.e_value sol p q = None) ->
   snd (Pyomo.report sol B) = Some ValueError) /\
  (forall err, snd (Pyomo.report sol B) = Some err -> err = ValueError) /\
  Pyomo.report sol [] = ([], None).
Proof.
  split; [| split; [| split]].
  - intros Hs. rewrite (report_solved sol B Hs). cbn [fst snd].
    split; [reflexivity |]. split; [now apply reported_routes |].
    intros p q vol. apply in_reported.
  - apply report_missing.
  - intros err. apply report_error.
  - reflexivity.
Qed.

Lemma result_extraction_witness :
  (Pyomo.report chain_solution (Pyomo.setB model_1_1_2)
   = (reported chain_solution (Pyomo.setB model_1_1_2), None) /\
   map fst (fst (Pyomo.report chain_solution (Pyomo.setB model_1_1_2)))
   = filter (fun r => above_half (Pyomo.e_value chain_solution (fst r) (snd r)))
       (Pyomo.setB model_1_1_2) /\
   forall p q vol,
     In (p, q, vol) (fst (Pyomo.report chain_solution (Pyomo.setB model_1_1_2))) <->
     In (p, q) (Pyomo.setB model_1_1_2) /\
     exists ev, Pyomo.e_value chain_solution p q = Some ev /\ (1 # 2 < ev)%Q /\
                Pyomo.v_value chain_solution p q = Some vol) /\
  snd (Pyomo.report unsolved (Pyomo.setB model_1_1_2)) = Some ValueError.
Proof.
  split.
  - apply (result_extraction chain_solution (Pyomo.setB model_1_1_2)).
    intros p q _. split; discriminate.
  - apply (result_extraction unsolved (Pyomo.setB model_1_1_2)).
    exists "i1", "s1". split; [left; reflexivity | reflexivity].
Defined.

(** C9 as stated fails: the loop has no check for a missing assignment.
    Taken on a state without any value, the case the claim describes (in the
    script the loop runs only once [solve] has returned), the loop over the
    routes of the model for one inbound belt, one outbound belt and two
    splitters stops with the [ValueError] of [pyo.value], and over an empty
    route set it does not fail at all. *)
Lemma result_extraction_counterexample :
  Pyomo.report unsolved (Pyomo.setB model_1_1_2) = ([], Some ValueError) /\
  Pyomo.report unsolved [] = ([], None).
Proof.
  split; reflexivity.
Qed.

(** * The asserts of [sympy_system.py] *)

Lemma sympy_traffic (cfg : config) :
  inbounds cfg <> 0%Z -> outbounds cfg <> 0%Z ->
  Sympy.t_in cfg
  = Some (inject_Z (Pyomo.throughput cfg) / inject_Z (inbounds cfg) / 1)%Q /\
  Sympy.t_out cfg
  = Some (inject_Z (Pyomo.throughput cfg) / inject_Z (outbounds cfg)
          / inject_Z (Pyomo.cargos cfg))%Q.
Proof.
  intros HI HJ.
  unfold Sympy.t_in, Sympy.t_out, Sympy.v_in, Sympy.v_out, Sympy.sp_div,
    Sympy.cargos, Pyomo.cargos.
  rewrite !inject_Z_nonzero by assumption. split; reflexivity.
Qed.

Lemma sympy_sets (cfg : config) :
  Sympy.setI cfg = Pyomo.init_set "i" (inbounds cfg) /\
  Sympy.setJ cfg = Pyomo.init_set "j" (outbounds cfg) /\
  Sympy.setC cfg = Pyomo.init_set "c" (inbounds cfg).
Proof. repeat split. Qed.

Lemma sympy_f_init_members (cfg : config) (ki kc : Z) :
  (0 <= ki)%Z -> (0 <= kc)%Z ->
  Sympy.f_init cfg ("i" ++ str ki) ("c" ++ str kc) =
  Ok (if (ki =? kc)%Z then Sympy.t_in cfg else Some 0%Q).
Proof.
  intros Hi Hc. unfold Sympy.f_init.
  rewrite (lstrip_member _ _ letter_i Hi), (lstrip_member _ _ letter_c Hc).
  rewrite !int_str. cbn [bind Ok]. now destruct (ki =? kc)%Z.
Qed.

Lemma assert_fraction_Ok (r : Q) :
  (0 <= r <= 1)%Q -> Sympy.assert_fraction (Some r) = Ok tt.
Proof.
  intros [H0 H1]. unfold Sympy.assert_fraction.
  apply Qle_bool_iff in H0, H1. now rewrite H0, H1.
Qed.

(** C10. For positive counts the parameter section of [sympy_system.py]
    runs to its end: every value of [f] and of [g] is a rational of
    [[0, 1]], [u_t] and [u_x] are positive, and none of the asserts fails.
    [f] has one entry per pair of [IxC] and [g] one per pair of [JxC]. *)
Theorem sympy_asserts_hold (cfg : config) :
  (0 < inbounds cfg)%Z -> (0 < outbounds cfg)%Z -> (0 < splitters cfg)%Z ->
  exists prm, Sympy.build_parameters cfg = Ok prm /\
    map fst (Sympy.f prm) = Sympy.setIxC cfg /\
    map fst (Sympy.g prm) = Sympy.setJxC cfg /\
    (forall kv, In kv (Sympy.f prm) ->
       exists r, snd kv = Some r /\ (0 <= r <= 1)%Q /\
                 Sympy.assert_fraction (snd kv) = Ok tt) /\
    (forall kv, In kv (Sympy.g prm) ->
       exists r, snd kv = Some r /\ (0 <= r <= 1)%Q /\
                 Sympy.assert_fraction (snd kv) = Ok tt) /\
    (0 < Sympy.u_t prm)%Q /\ Sympy.assert_positive (Sympy.u_t prm) = Ok tt /\
    (0 < Sympy.u_x prm)%Q /\ Sympy.assert_positive (Sympy.u_x prm) = Ok tt.
Proof.
  intros HI HJ HS.
  destruct (sympy_traffic cfg) as [Eti Eto]; try lia.
  destruct (traffic_fractions cfg HI HJ) as (T1 & T2 & T3 & T4).
  set (val := fun ic : string * string =>
                match Pyomo.get_int (fst ic), Pyomo.get_int (snd ic) with
                | inr ni, inr nc =>
                    if (ni =? nc)%Z then Sympy.t_in cfg else Some 0%Q
                | _, _ => None
                end).
  assert (Hfd : mapM (fun ic => v <- Sympy.f_init cfg (fst ic) (snd ic) ;; Ok (ic, v))
                  (Sympy.setIxC cfg)
                = Ok (map (fun ic => (ic, val ic)) (Sympy.setIxC cfg))).
  { rewrite <- (map_id (Sympy.setIxC cfg)) at 1.
    apply mapM_map_pure. intros [i c] H. unfold id. cbn [fst snd].
    apply in_prod_iff in H. destruct H as [Hi Hc].
    apply in_init_set in Hi. destruct Hi as (ki & Hki & ->).
    apply in_init_set in Hc. destruct Hc as (kc & Hkc & ->).
    rewrite sympy_f_init_members by lia. unfold val. cbn [fst snd bind Ok].
    rewrite (get_int_member _ _ letter_i), (get_int_member _ _ letter_c) by lia.
    reflexivity. }
  assert (Hfv : forall kv, In kv (map (fun ic => (ic, val ic)) (Sympy.setIxC cfg)) ->
                  exists r, snd kv = Some r /\ (0 <= r <= 1)%Q /\
                            Sympy.assert_fraction (snd kv) = Ok tt).
  { intros kv H. apply in_map_iff in H. destruct H as ([i c] & <- & H).
    apply in_prod_iff in H. destruct H as [Hi Hc].
    apply in_init_set in Hi. destruct Hi as (ki & Hki & ->).
    apply in_init_set in Hc. destruct Hc as (kc & Hkc & ->).
    unfold val. cbn [fst snd].
    rewrite (get_int_member _ _ letter_i), (get_int_member _ _ letter_c) by lia.
    cbn [Ok]. destruct (ki =? kc)%Z.
    - rewrite Eti. eexists. split; [reflexivity |].
      split; [lra | apply assert_fraction_Ok; lra].
    - exists 0%Q. split; [reflexivity |].
      split; [lra | apply assert_fraction_Ok; lra]. }
  assert (Hgv : forall kv, In kv (map (fun jc => (jc, Sympy.t_out cfg)) (Sympy.setJxC cfg)) ->
                  exists r, snd kv = Some r /\ (0 <= r <= 1)%Q /\
                            Sympy.assert_fraction (snd kv) = Ok tt).
  { intros kv H. apply in_map_iff in H. destruct H as (jc & <- & _).
    cbn [snd]. rewrite Eto. eexists. split; [reflexivity |].
    split; [lra | apply assert_fraction_Ok; lra]. }
  unfold Sympy.build_parameters. rewrite Hfd. cbn [bind Ok].
  rewrite forM_total by (intros kv H; destruct (Hfv kv H) as (r & _ & _ & E); exact E).
  cbn [bind Ok].
  rewrite forM_total by (intros kv H; destruct (Hgv kv H) as (r & _ & _ & E); exact E).
  cbn [bind Ok]. change (Sympy.assert_positive 1) with (Ok tt).
  change (Sympy.assert_positive 2) with (Ok tt). cbn [bind Ok].
  eexists. split; [reflexivity |]. cbn [Sympy.f Sympy.g Sympy.u_t Sympy.u_x].
  rewrite !map_map. cbn [fst]. rewrite !map_id.
  repeat split; try assumption; try reflexivity.
Qed.

Lemma sympy_asserts_hold_witness :
  exists prm, Sympy.build_parameters (Config 1 3 3) = Ok prm /\
    map fst (Sympy.f prm) = Sympy.setIxC (Config 1 3 3) /\
    map fst (Sympy.g prm) = Sympy.setJxC (Config 1 3 3) /\
    (forall kv, In kv (Sympy.f prm) ->
       exists r, snd kv = Some r /\ (0 <= r <= 1)%Q /\
                 Sympy.assert_fraction (snd kv) = Ok tt) /\
    (forall kv, In kv (Sympy.g prm) ->
       exists r, snd kv = Some r /\ (0 <= r <= 1)%Q /\
                 Sympy.assert_fraction (snd kv) = Ok tt) /\
    (0 < Sympy.u_t prm)%Q /\ Sympy.assert_positive (Sympy.u_t prm) = Ok tt /\
    (0 < Sympy.u_x prm)%Q /\ Sympy.assert_positive (Sympy.u_x prm) = Ok tt.
Proof.
  apply (sympy_asserts_hold (Config 1 3 3)); cbn; lia.
Defined.

(** * Non-positive counts *)

Lemma list_prod_nil_r {A B : Type} (l : list A) : list_prod l (@nil B) = [].
Proof. induction l as [| a l IH]; [reflexivity | exact IH]. Qed.

Lemma sympy_nonpositive_inbounds (cfg : config) :
  (inbounds cfg <= 0)%Z ->
  Sympy.build_parameters cfg = Ok (Sympy.Parameters [] [] 1 2).
Proof.
  intros HI. unfold Sympy.build_parameters, Sympy.setIxC, Sympy.setJxC.
  destruct (sympy_sets cfg) as (-> & _ & ->).
  rewrite (init_set_nonpos "i"), (init_set_nonpos "c") by assumption.
  rewrite !list_prod_nil_r. reflexivity.
Qed.

(** C6, as the code has it.  Neither script checks its counts.  In
    [pyomo_model_1.py] generation succeeds whenever the inbound and outbound
    counts are positive, whatever the splitter budget (a non-positive budget
    gives an empty [S]), as long as the inbound count is in the range of the
    floats, into which [v_out / cargos] converts it; beyond that range the
    script stops in the derived traffic values with [OverflowError], and a
    zero inbound or outbound count stops it there with [ZeroDivisionError].
    In [sympy_system.py] a non-positive inbound count leaves every index set
    of the parameters empty and the parameter section ends normally. *)
Theorem generation_outcomes (cfg : config) :
  ((0 < inbounds cfg)%Z -> (0 < outbounds cfg)%Z ->
   (inbounds cfg < float_limit)%Z ->
   exists mo, Pyomo.generate cfg = Ok mo /\
              ((splitters cfg <= 0)%Z -> Pyomo.setS mo = [])) /\
  (inbounds cfg = 0%Z \/ outbounds cfg = 0%Z ->
   Pyomo.generate cfg = raise ZeroDivisionError) /\
  (outbounds cfg <> 0%Z -> (float_limit <= inbounds cfg)%Z ->
   Pyomo.generate cfg = raise OverflowError) /\
  ((inbounds cfg <= 0)%Z ->
   Sympy.setI cfg = [] /\
   Sympy.build_parameters cfg = Ok (Sympy.Parameters [] [] 1 2)).
Proof.
  split; [| split; [| split]].
  - intros HI HJ HL. destruct (generate_total cfg HI HJ HL) as [mo Hg].
    exists mo. split; [assumption |]. intros HS.
    destruct (generate_inv cfg mo Hg) as (ti & to & _ & _ & _ & -> & _).
    now apply init_set_nonpos.
  - intros H. unfold Pyomo.generate. now rewrite (derived_zero cfg H).
  - intros HJ HL. unfold Pyomo.generate. now rewrite (derived_overflow cfg HJ HL).
  - intros HI. split; [now apply (init_set_nonpos "i") |].
    now apply sympy_nonpositive_inbounds.
Qed.

Lemma generation_outcomes_witness :
  (exists mo, Pyomo.generate (Config 8 8 10) = Ok mo /\
              ((splitters (Config 8 8 10) <= 0)%Z -> Pyomo.setS mo = [])) /\
  Pyomo.generate (Config 0 8 10) = raise ZeroDivisionError /\
  Pyomo.generate (Config float_limit 8 10) = raise OverflowError /\
  (Sympy.setI (Config 0 3 3) = [] /\
   Sympy.build_parameters (Config 0 3 3) = Ok (Sympy.Parameters [] [] 1 2)).
Proof.
  split; [| split; [| split]].
  - apply (generation_outcomes (Config 8 8 10)); cbn; unfold float_limit; lia.
  - apply (generation_outcomes (Config 0 8 10)). left. reflexivity.
  - apply (generation_outcomes (Config float_limit 8 10)); cbn; lia.
  - apply (generation_outcomes (Config 0 3 3)). cbn. lia.
Defined.

(** C6 as stated fails: with a splitter budget of zero, a non-positive
    count, the generation of [pyomo_model_1.py] succeeds; with an inbound
    count of zero it stops, with [ZeroDivisionError]; and with the positive
    counts [2 ^ 1024], [1] and [1] it stops, with [OverflowError]. *)
Lemma generation_nonpositive_counterexample :
  (splitters (Config 8 8 0) <= 0)%Z /\
  (exists mo, Pyomo.generate (Config 8 8 0) = Ok mo) /\
  Pyomo.generate (Config 0 8 10) = raise ZeroDivisionError /\
  Pyomo.generate (Config (2 ^ 1024) 1 1) = raise OverflowError.
Proof.
  split; [cbn; lia |]. split; [| split; [reflexivity |]].
  - eexists. vm_compute. reflexivity.
  - vm_compute. reflexivity.
Qed.

(** * Further properties of the two scripts *)

(** ** The index sets *)

Lemma str_inj (k1 k2 : Z) : str k1 = str k2 -> k1 = k2.
Proof.
  intros E. assert (H : int (str k1) = int (str k2)) by now rewrite E.
  rewrite !int_str in H. now injection H.
Qed.

Lemma append_inj_r (s u1 u2 : string) : s ++ u1 = s ++ u2 -> u1 = u2.
Proof.
  induction s as [| a s IH]; cbn [append]; intros E; [assumption |].
  injection E as E. now apply IH.
Qed.

Lemma range_NoDup (n : Z) : NoDup (range n).
Proof.
  unfold range. apply NoDup_map_NoDup_ForallPairs; [| apply seq_NoDup].
  intros x y _ _. apply Nat2Z.inj.
Qed.

Lemma init_set_NoDup (letter : string) (n : Z) : NoDup (Pyomo.init_set letter n).
Proof.
  unfold Pyomo.init_set. apply NoDup_map_NoDup_ForallPairs; [| apply range_NoDup].
  intros x y _ _ E. apply append_inj_r, str_inj in E. lia.
Qed.

Lemma init_set_nth (letter : string) (n i : Z) :
  (0 <= i < n)%Z ->
  nth_error (Pyomo.init_set letter n) (Z.to_nat i) = Some (letter ++ str (i + 1)).
Proof.
  intros Hi. unfold Pyomo.init_set, range. rewrite map_map.
  rewrite nth_error_map, nth_error_seq.
  assert (H : (Z.to_nat i <? Z.to_nat n)%nat = true) by (apply Nat.ltb_lt; lia).
  rewrite H. cbn [option_map]. do 3 f_equal. lia.
Qed.

(** X1. The members written by [init_set] are read back by [get_letter] and
    [get_int]: for a one-letter prefix, the member at position [i] of
    [init_set letter size] has that letter and the number [i + 1]. *)
Theorem init_set_round_trip (a : ascii) (size i : Z) :
  is_letter a -> (0 <= i < size)%Z ->
  exists member,
    nth_error (Pyomo.init_set (String a "") size) (Z.to_nat i) = Some member /\
    Pyomo.get_letter member = String a "" /\
    Pyomo.get_int member = Ok (i + 1)%Z.
Proof.
  intros Ha Hi. exists (String a "" ++ str (i + 1)).
  split; [now apply init_set_nth |]. split.
  - apply get_letter_member; [assumption | lia].
  - apply get_int_member; [assumption | lia].
Qed.

Lemma init_set_round_trip_witness :
  exists member,
    nth_error (Pyomo.init_set "s" 10) (Z.to_nat 9) = Some member /\
    Pyomo.get_letter member = "s" /\
    Pyomo.get_int member = Ok (9 + 1)%Z.
Proof.
  apply (init_set_round_trip "s" 10 9).
  - split; reflexivity.
  - lia.
Defined.

(** X2. [init_set letter size] has [size] members when [size] is positive
    and none otherwise, and its members are pairwise distinct. *)
Theorem init_set_size_distinct (letter : string) (size : Z) :
  Z.of_nat (length (Pyomo.init_set letter size)) = Z.max 0 size /\
  NoDup (Pyomo.init_set letter size).
Proof.
  split; [rewrite length_init_set; lia | apply init_set_NoDup].
Qed.

Lemma init_sets_disjoint (a b : ascii) (n m : Z) (p : string) :
  is_letter a -> is_letter b -> a <> b ->
  In p (Pyomo.init_set (String a "") n) ->
  ~ In p (Pyomo.init_set (String b "") m).
Proof.
  intros Ha Hb Hab Hp Hq.
  apply (member_facts _ _ _ Ha) in Hp. apply (member_facts _ _ _ Hb) in Hq.
  destruct Hp as [Ep _], Hq as [Eq _]. rewrite Ep in Eq.
  injection Eq as E. contradiction.
Qed.

Lemma union_disjoint (a b : list string) :
  (forall x, In x b -> ~ In x a) -> union a b = (a ++ b)%list.
Proof.
  intros H. unfold union. f_equal.
  induction b as [| y b IH]; [reflexivity |].
  cbn [filter]. destruct (mem_str y a) eqn:E.
  - apply mem_str_In in E. exfalso. apply (H y); [now left | assumption].
  - cbn [negb]. f_equal. apply IH. intros x Hx. apply H. now right.
Qed.

Lemma NoDup_list_prod {A B : Type} (l : list A) (l' : list B) :
  NoDup l -> NoDup l' -> NoDup (list_prod l l').
Proof.
  intros Hl Hl'. induction Hl as [| a l Ha Hl IH]; [constructor |].
  cbn [list_prod]. apply NoDup_app.
  - apply NoDup_map_NoDup_ForallPairs; [| assumption].
    intros x y _ _ E. now injection E.
  - exact IH.
  - intros [x y] H1 H2. apply in_map_iff in H1. destruct H1 as (y' & E & _).
    injection E as <- _. apply in_prod_iff in H2. now destruct H2.
Qed.

(** A filter whose predicate did not raise is the plain filter. *)
Lemma filterM_filter {A : Type} (h : A -> result bool) (l r : list A) :
  filterM h l = Ok r ->
  r = filter (fun x => match h x with inr b => b | inl _ => false end) l.
Proof.
  revert r. induction l as [| a l IH]; intros r H.
  - now injection H as <-.
  - simpl in H. apply bind_Ok in H. destruct H as (b & Hb & H).
    apply bind_Ok in H. destruct H as (r' & Hr' & H). injection H as <-.
    cbn [filter]. rewrite Hb. unfold Ok. rewrite <- (IH r' Hr').
    now destruct b.
Qed.

Section GeneratedSets.

Variable cfg : config.
Variable mo : Pyomo.model.
Hypothesis Hg : Pyomo.generate cfg = Ok mo.

Lemma generated_P : Pyomo.setP mo = (Pyomo.setI mo ++ Pyomo.setS mo)%list.
Proof.
  destruct (generate_inv cfg mo Hg) as (ti & to & _ & HI & _ & HS & _ & HP & _).
  rewrite HP. apply union_disjoint. rewrite HI, HS. intros x Hs Hi.
  exact (init_sets_disjoint "i" "s" _ _ x letter_i letter_s
           ltac:(discriminate) Hi Hs).
Qed.

Lemma generated_Q : Pyomo.setQ mo = (Pyomo.setS mo ++ Pyomo.setJ mo)%list.
Proof.
  destruct (generate_inv cfg mo Hg)
    as (ti & to & _ & _ & HJ & HS & _ & _ & HQ & _).
  rewrite HQ. apply union_disjoint. rewrite HJ, HS. intros x Hj Hs.
  exact (init_sets_disjoint "s" "j" _ _ x letter_s letter_j
           ltac:(discriminate) Hs Hj).
Qed.

Lemma generated_I_not_S (p : string) :
  In p (Pyomo.setI mo) -> ~ In p (Pyomo.setS mo).
Proof.
  destruct (generate_inv cfg mo Hg) as (ti & to & _ & HI & _ & HS & _).
  rewrite HI, HS. apply (init_sets_disjoint "i" "s");
    [exact letter_i | exact letter_s | discriminate].
Qed.

Lemma generated_S_not_J (p : string) :
  In p (Pyomo.setS mo) -> ~ In p (Pyomo.setJ mo).
Proof.
  destruct (generate_inv cfg mo Hg) as (ti & to & _ & _ & HJ & HS & _).
  rewrite HJ, HS. apply (init_sets_disjoint "s" "j");
    [exact letter_s | exact letter_j | discriminate].
Qed.

Lemma generated_I_not_J (p : string) :
  In p (Pyomo.setI mo) -> ~ In p (Pyomo.setJ mo).
Proof.
  destruct (generate_inv cfg mo Hg) as (ti & to & _ & HI & HJ & _).
  rewrite HI, HJ. apply (init_sets_disjoint "i" "j");
    [exact letter_i | exact letter_j | discriminate].
Qed.

Lemma generated_NoDup_basic :
  NoDup (Pyomo.setI mo) /\ NoDup (Pyomo.setJ mo) /\
  NoDup (Pyomo.setS mo) /\ NoDup (Pyomo.setC mo).
Proof.
  destruct (generate_inv cfg mo Hg) as (ti & to & _ & -> & -> & -> & -> & _).
  repeat split; apply init_set_NoDup.
Qed.

Lemma generated_NoDup_P : NoDup (Pyomo.setP mo).
Proof.
  destruct generated_NoDup_basic as (NI & _ & NS & _).
  rewrite generated_P. apply NoDup_app; try assumption.
  exact generated_I_not_S.
Qed.

Lemma generated_NoDup_Q : NoDup (Pyomo.setQ mo).
Proof.
  destruct generated_NoDup_basic as (_ & NJ & NS & _).
  rewrite generated_Q. apply NoDup_app; try assumption.
  exact generated_S_not_J.
Qed.

Lemma generated_B_filter :
  Pyomo.setB mo =
  filter (fun r => match Pyomo.B_filter (fst r) (snd r) with
                   | inr b => b
                   | inl _ => false
                   end)
         (list_prod (Pyomo.setP mo) (Pyomo.setQ mo)).
Proof.
  destruct (generate_inv cfg mo Hg)
    as (ti & to & _ & _ & _ & _ & _ & _ & _ & HB & _).
  now apply filterM_filter.
Qed.

Lemma generated_NoDup_B : NoDup (Pyomo.setB mo).
Proof.
  rewrite generated_B_filter. apply NoDup_filter.
  apply NoDup_list_prod; [exact generated_NoDup_P | exact generated_NoDup_Q].
Qed.

Lemma generated_W (s q : string) :
  In (s, q) (Pyomo.setW mo) <->
  In (s, q) (Pyomo.setB mo) /\ In s (Pyomo.setS mo).
Proof.
  destruct (generate_inv cfg mo Hg) as (ti & to & H).
  assert (HW : Pyomo.setW mo =
               filter (fun r => mem_route r (Pyomo.setB mo))
                 (list_prod (Pyomo.setS mo) (Pyomo.setQ mo))) by tauto.
  clear H. rewrite HW, filter_In, in_prod_iff, mem_route_In. split.
  - tauto.
  - intros [Hb Hs]. repeat split; try assumption.
    now apply (generated_B_sub cfg mo s q Hg).
Qed.

End GeneratedSets.

(** X3. In a generated model the inbound belts, outbound belts and
    splitters are pairwise disjoint, so the unions [P = I | S] and
    [Q = S | J] drop nothing, and no node or route is listed twice. *)
Theorem generated_sets_distinct (cfg : config) (mo : Pyomo.model) :
  Pyomo.generate cfg = Ok mo ->
  Pyomo.setP mo = (Pyomo.setI mo ++ Pyomo.setS mo)%list /\
  Pyomo.setQ mo = (Pyomo.setS mo ++ Pyomo.setJ mo)%list /\
  (forall p, ~ (In p (Pyomo.setI mo) /\ In p (Pyomo.setS mo))) /\
  (forall p, ~ (In p (Pyomo.setS mo) /\ In p (Pyomo.setJ mo))) /\
  (forall p, ~ (In p (Pyomo.setI mo) /\ In p (Pyomo.setJ mo))) /\
  NoDup (Pyomo.setP mo) /\ NoDup (Pyomo.setQ mo) /\ NoDup (Pyomo.setB mo).
Proof.
  intros Hg.
  split; [exact (generated_P cfg mo Hg) |].
  split; [exact (generated_Q cfg mo Hg) |].
  split; [intros p [H1 H2]; exact (generated_I_not_S cfg mo Hg p H1 H2) |].
  split; [intros p [H1 H2]; exact (generated_S_not_J cfg mo Hg p H1 H2) |].
  split; [intros p [H1 H2]; exact (generated_I_not_J cfg mo Hg p H1 H2) |].
  split; [exact (generated_NoDup_P cfg mo Hg) |].
  split; [exact (generated_NoDup_Q cfg mo Hg) | exact (generated_NoDup_B cfg mo Hg)].
Qed.

Lemma generated_sets_distinct_witness :
  Pyomo.setP model_1_1_2 = (Pyomo.setI model_1_1_2 ++ Pyomo.setS model_1_1_2)%list /\
  Pyomo.setQ model_1_1_2 = (Pyomo.setS model_1_1_2 ++ Pyomo.setJ model_1_1_2)%list /\
  (forall p, ~ (In p (Pyomo.setI model_1_1_2) /\ In p (Pyomo.setS model_1_1_2))) /\
  (forall p, ~ (In p (Pyomo.setS model_1_1_2) /\ In p (Pyomo.setJ model_1_1_2))) /\
  (forall p, ~ (In p (Pyomo.setI model_1_1_2) /\ In p (Pyomo.setJ model_1_1_2))) /\
  NoDup (Pyomo.setP model_1_1_2) /\ NoDup (Pyomo.setQ model_1_1_2) /\
  NoDup (Pyomo.setB model_1_1_2).
Proof.
  apply (generated_sets_distinct cfg_1_1_2 model_1_1_2).
  vm_compute. reflexivity.
Defined.

(** X4. The set [W] of a generated model is made of the routes of [B] that
    start at a splitter; so [W] lies within [B] and [WxC] within [BxC], as
    the two [within=] declarations require. *)
Theorem splitter_output_routes (cfg : config) (mo : Pyomo.model) :
  Pyomo.generate cfg = Ok mo ->
  (forall s q, In (s, q) (Pyomo.setW mo) <->
               In (s, q) (Pyomo.setB mo) /\ In s (Pyomo.setS mo)) /\
  (forall k, In k (Pyomo.setWxC mo) -> In k (Pyomo.setBxC mo)) /\
  NoDup (Pyomo.setW mo).
Proof.
  intros Hg. split; [exact (generated_W cfg mo Hg) |].
  destruct (generate_inv cfg mo Hg) as (ti & to & H).
  assert (HBxC : Pyomo.setBxC mo = list_prod (Pyomo.setB mo) (Pyomo.setC mo)) by tauto.
  assert (HWxC : Pyomo.setWxC mo = list_prod (Pyomo.setW mo) (Pyomo.setC mo)) by tauto.
  assert (HW : Pyomo.setW mo =
               filter (fun r => mem_route r (Pyomo.setB mo))
                 (list_prod (Pyomo.setS mo) (Pyomo.setQ mo))) by tauto.
  clear H. split.
  - intros [[s q] c]. rewrite HBxC, HWxC, !in_prod_iff.
    intros [Hw Hc]. split; [| assumption].
    now apply (generated_W cfg mo Hg) in Hw.
  - rewrite HW. apply NoDup_filter. apply NoDup_list_prod.
    + now destruct (generated_NoDup_basic cfg mo Hg) as (_ & _ & NS & _).
    + exact (generated_NoDup_Q cfg mo Hg).
Qed.

Lemma splitter_output_routes_witness :
  (forall s q, In (s, q) (Pyomo.setW model_1_1_2) <->
               In (s, q) (Pyomo.setB model_1_1_2) /\ In s (Pyomo.setS model_1_1_2)) /\
  (forall k, In k (Pyomo.setWxC model_1_1_2) -> In k (Pyomo.setBxC model_1_1_2)) /\
  NoDup (Pyomo.setW model_1_1_2).
Proof.
  apply (splitter_output_routes cfg_1_1_2 model_1_1_2).
  vm_compute. reflexivity.
Defined.

(** ** The number of routes *)

Lemma length_filter_prod {A B : Type} (k : A * B -> bool) (l : list A) (l' : list B) :
  length (filter k (list_prod l l'))
  = list_sum (map (fun p => length (filter (fun q => k (p, q)) l')) l).
Proof.
  induction l as [| p l IH]; [reflexivity |].
  cbn [list_prod map list_sum].
  rewrite filter_app, length_app, IH, filter_map_swap, length_map. reflexivity.
Qed.

Lemma filter_none {A : Type} (k : A -> bool) (l : list A) :
  (forall y, In y l -> k y = false) -> filter k l = [].
Proof.
  induction l as [| y l IH]; intros H; [reflexivity |].
  cbn [filter]. rewrite (H y) by now left. apply IH.
  intros y' Hy'. apply H. now right.
Qed.

Lemma filter_all {A : Type} (k : A -> bool) (l : list A) :
  (forall y, In y l -> k y = true) -> filter k l = l.
Proof.
  induction l as [| y l IH]; intros H; [reflexivity |].
  cbn [filter]. rewrite (H y) by now left. f_equal. apply IH.
  intros y' Hy'. apply H. now right.
Qed.

(** A filter that drops exactly one member of a duplicate-free list. *)
Lemma length_filter_but_one {A : Type} (k : A -> bool) (l : list A) (x : A) :
  NoDup l -> In x l -> (forall y, In y l -> (k y = false <-> y = x)) ->
  (length (filter k l) + 1 = length l)%nat.
Proof.
  intros Hnd. revert x. induction Hnd as [| y l Hy Hnd IH]; intros x Hx Hk;
    [contradiction |].
  cbn [filter]. destruct (k y) eqn:E.
  - destruct Hx as [-> | Hx].
    + assert (k x = false) by (apply Hk; [now left | reflexivity]). congruence.
    + cbn [length]. f_equal. rewrite <- (IH x Hx); [lia |].
      intros y' Hy'. apply Hk. now right.
  - assert (y = x) by (apply Hk; [now left | assumption]). subst y.
    rewrite filter_all; [cbn [length]; lia |].
    intros y' Hy'. destruct (k y') eqn:E'; [reflexivity |].
    assert (y' = x) by (apply Hk; [now right | assumption]). subst y'.
    contradiction.
Qed.

Lemma list_sum_uniform {A : Type} (cnt : A -> nat) (l : list A) (d n : nat) :
  (forall p, In p l -> cnt p + d = n)%nat ->
  (list_sum (map cnt l) + length l * d = length l * n)%nat.
Proof.
  induction l as [| p l IH]; intros H; [reflexivity |].
  cbn [map length].
  change (list_sum (cnt p :: map cnt l)) with (cnt p + list_sum (map cnt l))%nat.
  assert (cnt p + d = n)%nat by (apply H; now left).
  assert (list_sum (map cnt l) + length l * d = length l * n)%nat
    by (apply IH; intros p' Hp'; apply H; now right).
  lia.
Qed.

(** X5. The routes of a generated model are the pairs of [P x Q] less the
    [|I| * |J|] bypasses and the [|S|] self-loops. *)
Theorem route_count (cfg : config) (mo : Pyomo.model) :
  Pyomo.generate cfg = Ok mo ->
  (length (Pyomo.setB mo)
   + length (Pyomo.setI mo) * length (Pyomo.setJ mo) + length (Pyomo.setS mo)
   = length (Pyomo.setP mo) * length (Pyomo.setQ mo))%nat.
Proof.
  intros Hg.
  pose proof (generated_P cfg mo Hg) as HP.
  pose proof (generated_Q cfg mo Hg) as HQ.
  pose proof (generated_NoDup_Q cfg mo Hg) as NQ.
  set (I := Pyomo.setI mo) in *. set (J := Pyomo.setJ mo) in *.
  set (S := Pyomo.setS mo) in *. set (P := Pyomo.setP mo) in *.
  set (Q := Pyomo.setQ mo) in *.
  set (k := fun r : string * string =>
              match Pyomo.B_filter (fst r) (snd r) with
              | inr b => b
              | inl _ => false
              end).
  assert (Hk : forall p q, In p P -> In q Q ->
                 (k (p, q) = true <-> In (p, q) (Pyomo.setB mo))).
  { intros p q Hp Hq. rewrite (generated_B_filter cfg mo Hg), filter_In.
    fold P Q k. rewrite in_prod_iff. tauto. }
  rewrite (generated_B_filter cfg mo Hg). fold P Q k.
  rewrite length_filter_prod. rewrite HP at 1. rewrite map_app, list_sum_app.
  assert (HcI : (list_sum (map (fun p => length (filter (fun q => k (p, q)) Q)) I)
                 + length I * length J = length I * length Q)%nat).
  { apply list_sum_uniform. intros p Hp.
    assert (HpP : In p P) by (rewrite HP; apply in_or_app; now left).
    rewrite HQ at 1. rewrite filter_app, length_app.
    rewrite filter_all, filter_none.
    - rewrite HQ, length_app. cbn [length]. lia.
    - intros q Hq. destruct (k (p, q)) eqn:E; [| reflexivity].
      assert (HqQ : In q Q) by (rewrite HQ; apply in_or_app; now right).
      apply (Hk p q HpP HqQ) in E.
      apply (generated_B cfg mo p q Hg HpP HqQ) in E.
      destruct E as [E _]. exfalso. apply E. now split.
    - intros q Hq.
      assert (HqQ : In q Q) by (rewrite HQ; apply in_or_app; now left).
      apply (Hk p q HpP HqQ). apply (generated_B cfg mo p q Hg HpP HqQ). split.
      + intros [_ Hj]. exact (generated_S_not_J cfg mo Hg q Hq Hj).
      + intros [_ Hs]. exact (generated_I_not_S cfg mo Hg p Hp Hs). }
  assert (HcS : (list_sum (map (fun p => length (filter (fun q => k (p, q)) Q)) S)
                 + length S * 1 = length S * length Q)%nat).
  { apply list_sum_uniform. intros p Hp.
    assert (HpP : In p P) by (rewrite HP; apply in_or_app; now right).
    assert (HpQ : In p Q) by (rewrite HQ; apply in_or_app; now left).
    apply (length_filter_but_one _ Q p NQ HpQ). intros q Hq.
    rewrite <- not_true_iff_false, (Hk p q HpP Hq),
      (generated_B cfg mo p q Hg HpP Hq). split.
    - intros H. destruct (string_dec q p) as [E | E]; [assumption |].
      exfalso. apply H. split.
      + intros [Hi _]. exact (generated_I_not_S cfg mo Hg p Hi Hp).
      + intros [Epq _]. now apply E.
    - intros -> [_ H]. apply H. now split. }
  rewrite HP, length_app. fold I S. lia.
Qed.

Lemma route_count_witness :
  (length (Pyomo.setB model_1_1_2)
   + length (Pyomo.setI model_1_1_2) * length (Pyomo.setJ model_1_1_2)
   + length (Pyomo.setS model_1_1_2)
   = length (Pyomo.setP model_1_1_2) * length (Pyomo.setQ model_1_1_2))%nat.
Proof.
  apply (route_count cfg_1_1_2 model_1_1_2). vm_compute. reflexivity.
Defined.

(** ** What every feasible assignment satisfies *)

Lemma mapM_Ok_each {A B : Type} (h : A -> result B) (l : list A) (r : list B) :
  mapM h l = Ok r -> forall x, In x l -> exists y, h x = Ok y /\ In y r.
Proof.
  revert r. induction l as [| a l IH]; intros r H x Hx; [contradiction |].
  simpl in H. apply bind_Ok in H. destruct H as (b & Hb & H).
  apply bind_Ok in H. destruct H as (r' & Hr' & H). injection H as <-.
  destruct Hx as [<- | Hx].
  - exists b. split; [assumption | now left].
  - destruct (IH r' Hr' x Hx) as (y & Hy & Hin). exists y.
    split; [assumption | now right].
Qed.

(** A declared comparison of a sum with a number is the equation of the
    two. *)
Lemma declare_sum_equals (terms : list Q) (number : Q) (k : constraint) :
  Pyomo.declare (Pyomo.sum_equals terms number) = Ok k ->
  k = CEq (sum terms) number.
Proof.
  unfold Pyomo.sum_equals. destruct terms as [| x terms]; [discriminate |].
  now intros [= <-].
Qed.

Lemma sum_app (l1 l2 : list Q) : (sum (l1 ++ l2) == sum l1 + sum l2)%Q.
Proof.
  induction l1 as [| a l1 IH]; cbn [app].
  - rewrite sum_nil. ring.
  - rewrite !sum_cons, IH. ring.
Qed.

Lemma sum_map_zero {A : Type} (h : A -> Q) (l : list A) :
  (forall k, In k l -> 0 <= h k)%Q -> (sum (map h l) == 0)%Q ->
  forall k, In k l -> (h k == 0)%Q.
Proof.
  intros Hpos Hsum k Hk.
  pose proof (sum_map_term_le h l k Hpos Hk). specialize (Hpos k Hk). lra.
Qed.

Lemma sum_map_ext {A : Type} (h1 h2 : A -> Q) (l : list A) :
  (forall k, In k l -> h1 k == h2 k)%Q ->
  (sum (map h1 l) == sum (map h2 l))%Q.
Proof.
  intros H. apply Qle_antisym; apply sum_map_le; intros k Hk;
    rewrite (H k Hk); apply Qle_refl.
Qed.

(** A sum of zeros and ones that equals one has exactly one one. *)
Lemma sum_binary_one {A : Type} (h : A -> Z) (l : list A) :
  NoDup l -> (forall r, In r l -> h r = 0 \/ h r = 1)%Z ->
  (sum (map (fun r => inject_Z (h r)) l) == 1)%Q ->
  exists r, In r l /\ h r = 1%Z /\ forall r', In r' l -> h r' = 1%Z -> r' = r.
Proof.
  intros Hnd. induction Hnd as [| r l Hr Hnd IH]; intros Hb Hs.
  - cbn [map] in Hs. rewrite sum_nil in Hs. lra.
  - cbn [map] in Hs. rewrite sum_cons in Hs.
    assert (Hb' : (forall r', In r' l -> h r' = 0 \/ h r' = 1)%Z)
      by (intros r' Hr'; apply Hb; now right).
    assert (Hpos : (forall r', In r' l -> 0 <= inject_Z (h r'))%Q).
    { intros r' Hr'. change 0%Q with (inject_Z 0). rewrite <- Zle_Qle.
      destruct (Hb' r' Hr'); lia. }
    destruct (Hb r) as [E | E]; [now left | |]; rewrite E in Hs; inject_consts.
    + destruct IH as (r0 & Hin & H1 & Huniq); [assumption | lra |].
      exists r0. split; [now right |]. split; [assumption |].
      intros r' [<- | Hr'] Hone; [lia | now apply Huniq].
    + exists r. split; [now left |]. split; [assumption |].
      intros r' [<- | Hr'] Hone; [reflexivity |].
      assert (Z0 : (inject_Z (h r') == 0)%Q).
      { apply (sum_map_zero (fun r => inject_Z (h r)) l Hpos); [lra | assumption]. }
      rewrite Hone in Z0. inject_consts. lra.
Qed.

Section FeasibleConsequences.

Variable cfg : config.
Variable mo : Pyomo.model.
Variable a : Pyomo.assignment.
Hypothesis Hg : Pyomo.generate cfg = Ok mo.
Hypothesis Hf : Pyomo.feasible mo a = true.

Lemma feasible_binary_e (p q : string) :
  In (p, q) (Pyomo.setB mo) -> (Pyomo.e a p q = 0 \/ Pyomo.e a p q = 1)%Z.
Proof.
  intros Hb. destruct (feasible_inv mo a Hf) as (Hd & _).
  unfold Pyomo.domains in Hd. rewrite !andb_true_iff in Hd.
  destruct Hd as (((((((((De & _) & _) & _) & _) & _) & _) & _) & _) & _).
  rewrite forallb_forall in De. apply Binary_cases. exact (De (p, q) Hb).
Qed.

Lemma feasible_domains_v (p q : string) :
  In (p, q) (Pyomo.setB mo) -> (0 <= Pyomo.v a p q /\ Pyomo.v a p q <= 1)%Q.
Proof.
  intros Hb. destruct (feasible_inv mo a Hf) as (Hd & _).
  unfold Pyomo.domains in Hd. rewrite !andb_true_iff in Hd.
  destruct Hd as (((((((((_ & _) & Dv) & _) & _) & _) & _) & _) & _) & _).
  rewrite forallb_forall in Dv. apply PercentFraction_iff. exact (Dv (p, q) Hb).
Qed.

Lemma feasible_domains_aux (s q c : string) :
  In (s, q) (Pyomo.setW mo) -> In c (Pyomo.setC mo) ->
  (0 <= Pyomo.xe a s q c)%Q /\ (0 <= Pyomo.tz a s q c <= 1)%Q.
Proof.
  intros Hw Hc.
  destruct (generate_inv cfg mo Hg) as (ti & to & H).
  assert (HWxC : Pyomo.setWxC mo = list_prod (Pyomo.setW mo) (Pyomo.setC mo)) by tauto.
  clear H. destruct (feasible_inv mo a Hf) as (Hd & _).
  unfold Pyomo.domains in Hd. rewrite !andb_true_iff in Hd.
  destruct Hd as (((((((((_ & _) & _) & _) & _) & _) & _) & _) & Dxe) & Dtz).
  rewrite forallb_forall in Dxe, Dtz.
  assert (Hk : In (s, q, c) (Pyomo.setWxC mo)) by (rewrite HWxC; now apply in_prod).
  specialize (Dxe _ Hk). specialize (Dtz _ Hk). cbn [fst snd] in Dxe, Dtz.
  apply Qle_bool_iff in Dxe. apply PercentFraction_iff in Dtz. tauto.
Qed.

Lemma feasible_linearization (s q c : string) :
  In (s, q) (Pyomo.setW mo) -> In c (Pyomo.setC mo) ->
  linearization mo a s q c = true.
Proof.
  intros Hw Hc.
  destruct (generate_inv cfg mo Hg) as (ti & to & H).
  assert (HWxC : Pyomo.setWxC mo = list_prod (Pyomo.setW mo) (Pyomo.setC mo)) by tauto.
  clear H.
  assert (Hk : In (s, q, c) (Pyomo.setWxC mo)) by (rewrite HWxC; now apply in_prod).
  assert (M : forall rule : string -> string -> string -> constraint,
            In (rule s q c) (Pyomo.over3 rule (Pyomo.setWxC mo))).
  { intros rule. unfold Pyomo.over3.
    apply (in_map (fun k => rule (fst (fst k)) (snd (fst k)) (snd k)) _ _ Hk). }
  unfold linearization. rewrite !andb_true_iff. repeat split;
    apply (feasible_plain mo a Hf); unfold plain_family.
  - do 5 right. left. apply M.
  - do 6 right. left. apply M.
  - do 7 right. left. apply M.
  - do 8 right. left. apply M.
  - do 9 right. left. apply M.
  - do 10 right. left. apply M.
  - do 19 right. apply M.
Qed.

(** The two families of constraints that read a parameter. *)
Lemma feasible_consume (i c : string) :
  In i (Pyomo.setI mo) -> In c (Pyomo.setC mo) ->
  exists fic, Pyomo.param_get (Pyomo.f mo) i c = Ok fic /\
    (sum (map (fun r => Pyomo.t a (fst r) (snd r) c) (Pyomo.routes_from mo i))
     == fic)%Q.
Proof.
  intros Hi Hc.
  destruct (generate_inv cfg mo Hg) as (ti & to & H).
  assert (HIxC : Pyomo.setIxC mo = list_prod (Pyomo.setI mo) (Pyomo.setC mo)) by tauto.
  clear H. destruct (feasible_inv mo a Hf) as (_ & ks & Hks & Hall).
  unfold Pyomo.constraints in Hks.
  apply bind_Ok in Hks. destruct Hks as (connect_in & _ & Hks).
  apply bind_Ok in Hks. destruct Hks as (connect_out & _ & Hks).
  apply bind_Ok in Hks. destruct Hks as (consume & Hcons & Hks).
  apply bind_Ok in Hks. destruct Hks as (produce & _ & Hks).
  injection Hks as <-.
  destruct (mapM_Ok_each _ _ _ Hcons (i, c)) as (k & Hk & Hin);
    [rewrite HIxC; now apply in_prod |].
  cbn [fst snd] in Hk. apply bind_Ok in Hk. destruct Hk as (x & Hx & Hk).
  unfold Pyomo.consume_inbounds_rule in Hx.
  apply bind_Ok in Hx. destruct Hx as (fic & Hfic & Hx). injection Hx as <-.
  apply declare_sum_equals in Hk. subst k.
  exists fic. split; [assumption |]. apply holds_CEq. apply Hall.
  rewrite !in_app_iff. tauto.
Qed.

Lemma feasible_produce (j c : string) :
  In j (Pyomo.setJ mo) -> In c (Pyomo.setC mo) ->
  exists gjc, Pyomo.param_get (Pyomo.g mo) j c = Ok gjc /\
    (sum (map (fun r => Pyomo.t a (fst r) (snd r) c) (Pyomo.routes_into mo j))
     == gjc)%Q.
Proof.
  intros Hj Hc.
  destruct (generate_inv cfg mo Hg) as (ti & to & H).
  assert (HJxC : Pyomo.setJxC mo = list_prod (Pyomo.setJ mo) (Pyomo.setC mo)) by tauto.
  clear H. destruct (feasible_inv mo a Hf) as (_ & ks & Hks & Hall).
  unfold Pyomo.constraints in Hks.
  apply bind_Ok in Hks. destruct Hks as (connect_in & _ & Hks).
  apply bind_Ok in Hks. destruct Hks as (connect_out & _ & Hks).
  apply bind_Ok in Hks. destruct Hks as (consume & _ & Hks).
  apply bind_Ok in Hks. destruct Hks as (produce & Hprod & Hks).
  injection Hks as <-.
  destruct (mapM_Ok_each _ _ _ Hprod (j, c)) as (k & Hk & Hin);
    [rewrite HJxC; now apply in_prod |].
  cbn [fst snd] in Hk. apply bind_Ok in Hk. destruct Hk as (x & Hx & Hk).
  unfold Pyomo.produce_outbounds_rule in Hx.
  apply bind_Ok in Hx. destruct Hx as (gjc & Hgjc & Hx). injection Hx as <-.
  apply declare_sum_equals in Hk. subst k.
  exists gjc. split; [assumption |]. apply holds_CEq. apply Hall.
  rewrite !in_app_iff. tauto.
Qed.

(** The two families of connection constraints. *)
Lemma feasible_connect_inbounds (i : string) :
  In i (Pyomo.setI mo) ->
  (sum (map (fun r => inject_Z (Pyomo.e a (fst r) (snd r)))
          (Pyomo.routes_from mo i)) == 1)%Q.
Proof.
  intros Hi. clear Hg.
  destruct (feasible_inv mo a Hf) as (_ & ks & Hks & Hall).
  unfold Pyomo.constraints in Hks.
  apply bind_Ok in Hks. destruct Hks as (connect_in & Hin & Hks).
  apply bind_Ok in Hks. destruct Hks as (connect_out & _ & Hks).
  apply bind_Ok in Hks. destruct Hks as (consume & _ & Hks).
  apply bind_Ok in Hks. destruct Hks as (produce & _ & Hks).
  injection Hks as <-.
  destruct (mapM_Ok_each _ _ _ Hin i Hi) as (k & Hk & Hink).
  apply declare_sum_equals in Hk. subst k.
  apply holds_CEq. apply Hall. rewrite !in_app_iff. tauto.
Qed.

Lemma feasible_connect_outbounds (j : string) :
  In j (Pyomo.setJ mo) ->
  (sum (map (fun r => inject_Z (Pyomo.e a (fst r) (snd r)))
          (Pyomo.routes_into mo j)) == 1)%Q.
Proof.
  intros Hj. clear Hg.
  destruct (feasible_inv mo a Hf) as (_ & ks & Hks & Hall).
  unfold Pyomo.constraints in Hks.
  apply bind_Ok in Hks. destruct Hks as (connect_in & _ & Hks).
  apply bind_Ok in Hks. destruct Hks as (connect_out & Hout & Hks).
  apply bind_Ok in Hks. destruct Hks as (consume & _ & Hks).
  apply bind_Ok in Hks. destruct Hks as (produce & _ & Hks).
  injection Hks as <-.
  destruct (mapM_Ok_each _ _ _ Hout j Hj) as (k & Hk & Hink).
  apply declare_sum_equals in Hk. subst k.
  apply holds_CEq. apply Hall. rewrite !in_app_iff. tauto.
Qed.

End FeasibleConsequences.

Lemma split_relation
  (cfg : config) (mo : Pyomo.model) (a : Pyomo.assignment) (s q c : string) :
  Pyomo.generate cfg = Ok mo ->
  Pyomo.feasible mo a = true ->
  In (s, q) (Pyomo.setW mo) -> In c (Pyomo.setC mo) ->
  (Pyomo.t a s q c ==
   inject_Z (Pyomo.e a s q) * Pyomo.x a s c / (1 + inject_Z (Pyomo.z a s)))%Q.
Proof.
  intros Hg Hf Hw Hc.
  destruct (generate_inv cfg mo Hg) as (ti & to & H).
  assert (Ut : Pyomo.u_t mo = 1%Q) by tauto.
  assert (Ux : Pyomo.u_x mo = 2%Q) by tauto.
  clear H.
  pose proof (proj1 (generated_W cfg mo Hg s q) Hw) as [Hb Hs].
  pose proof (feasible_linearization cfg mo a Hg Hf s q c Hw Hc) as L.
  apply linearization_iff in L. rewrite Ut, Ux in L.
  destruct L as (L1 & L2 & L3 & L4 & L5 & L6 & L7).
  destruct (feasible_domains_aux cfg mo a Hg Hf s q c Hw Hc) as (Dxe & Dtz & _).
  destruct (feasible_domains_t cfg mo a Hg Hf s q c Hb Hc) as (Dt & _).
  destruct (feasible_binary_e mo a Hf s q Hb) as [E | E];
    destruct (feasible_degrees mo a Hf s Hs) as (_ & _ & _ & _ & [Z | Z]);
    rewrite E in *; rewrite Z in *; inject_consts.
  - assert (T : Pyomo.t a s q c == 0) by lra. rewrite T. field.
  - assert (T : Pyomo.t a s q c == 0) by lra. rewrite T. field.
  - assert (T : Pyomo.t a s q c == Pyomo.x a s c) by lra. rewrite T. field.
  - assert (T : Pyomo.x a s c == 2 * Pyomo.t a s q c) by lra. rewrite T. field.
Qed.

(** X6. In every feasible assignment of a generated model the nonlinear
    relation that the linearization stands for holds on every splitter-output
    route: [t[s,q,c] = e[s,q] * x[s,c] / (1 + z[s])] for [(s, q)] in [W] and
    [c] in [C]. *)
Theorem feasible_even_split
  (cfg : config) (mo : Pyomo.model) (a : Pyomo.assignment) (s q c : string) :
  Pyomo.generate cfg = Ok mo ->
  Pyomo.feasible mo a = true ->
  In (s, q) (Pyomo.setW mo) -> In c (Pyomo.setC mo) ->
  (Pyomo.t a s q c ==
   inject_Z (Pyomo.e a s q) * Pyomo.x a s c / (1 + inject_Z (Pyomo.z a s)))%Q.
Proof.
  apply split_relation.
Qed.

Lemma feasible_even_split_witness :
  (Pyomo.t chain_assignment "s1" "j1" "c1" ==
   inject_Z (Pyomo.e chain_assignment "s1" "j1") * Pyomo.x chain_assignment "s1" "c1"
   / (1 + inject_Z (Pyomo.z chain_assignment "s1")))%Q.
Proof.
  apply (feasible_even_split cfg_1_1_2 model_1_1_2 chain_assignment "s1" "j1" "c1").
  - vm_compute. reflexivity.
  - vm_compute. reflexivity.
  - cbn. right. left. reflexivity.
  - cbn. left. reflexivity.
Defined.

(** X7. A route of [B] that is not built carries nothing: in a feasible
    assignment [e[p,q] = 0] forces [v[p,q] = 0] and [t[p,q,c] = 0] for every
    cargo. *)
Theorem unbuilt_route_carries_nothing
  (cfg : config) (mo : Pyomo.model) (a : Pyomo.assignment) (p q : string) :
  Pyomo.generate cfg = Ok mo ->
  Pyomo.feasible mo a = true ->
  In (p, q) (Pyomo.setB mo) -> Pyomo.e a p q = 0%Z ->
  (Pyomo.v a p q == 0)%Q /\
  forall c, In c (Pyomo.setC mo) -> (Pyomo.t a p q c == 0)%Q.
Proof.
  intros Hg Hf Hb He.
  assert (Hv : (Pyomo.v a p q == 0)%Q).
  { assert (Kc : holds (Pyomo.respect_capacity_rule mo a p q) = true).
    { apply (feasible_plain mo a Hf). do 13 right. left. now apply in_over2. }
    apply holds_CLe in Kc. rewrite He in Kc. inject_consts.
    destruct (feasible_domains_v mo a Hf p q Hb). lra. }
  split; [assumption |]. intros c Hc.
  pose proof (traffic_le_existence cfg mo a Hg Hf p q c Hb Hc) as Ht.
  rewrite He in Ht. inject_consts.
  destruct (feasible_domains_t cfg mo a Hg Hf p q c Hb Hc). lra.
Qed.

Lemma unbuilt_route_carries_nothing_witness :
  (Pyomo.v chain_assignment "s2" "j1" == 0)%Q /\
  forall c, In c (Pyomo.setC model_1_1_2) ->
            (Pyomo.t chain_assignment "s2" "j1" c == 0)%Q.
Proof.
  apply (unbuilt_route_carries_nothing cfg_1_1_2 model_1_1_2 chain_assignment).
  - vm_compute. reflexivity.
  - vm_compute. reflexivity.
  - cbn. do 5 right. left. reflexivity.
  - reflexivity.
Defined.

Lemma inbound_unique_route
  (cfg : config) (mo : Pyomo.model) (a : Pyomo.assignment) (i : string) :
  Pyomo.generate cfg = Ok mo ->
  Pyomo.feasible mo a = true ->
  In i (Pyomo.setI mo) ->
  exists s, In s (Pyomo.setS mo) /\ In (i, s) (Pyomo.setB mo) /\
    Pyomo.e a i s = 1%Z /\
    forall q, In (i, q) (Pyomo.setB mo) -> Pyomo.e a i q = 1%Z -> q = s.
Proof.
  intros Hg Hf Hi.
  pose proof (generated_NoDup_B cfg mo Hg) as NB.
  pose proof (generated_Q cfg mo Hg) as HQ.
  pose proof (feasible_connect_inbounds mo a Hf i Hi) as K.
  destruct (sum_binary_one (fun r => Pyomo.e a (fst r) (snd r))
              (Pyomo.routes_from mo i)) as ([p s] & Hin & H1 & Huniq).
  - now apply NoDup_filter.
  - intros [p q] Hr. apply filter_In in Hr. destruct Hr as [Hr _].
    exact (feasible_binary_e mo a Hf p q Hr).
  - exact K.
  - apply filter_In in Hin. destruct Hin as [Hb E]. cbn [fst snd] in *.
    apply String.eqb_eq in E. subst p.
    destruct (generated_B_sub cfg mo i s Hg Hb) as [HiP HsQ].
    exists s. split; [| split; [assumption | split; [assumption |]]].
    + rewrite HQ in HsQ. apply in_app_or in HsQ.
      destruct HsQ as [Hs | Hj]; [assumption |]. exfalso.
      apply (generated_B cfg mo i s Hg HiP) in Hb;
        [| rewrite HQ; apply in_or_app; now right].
      destruct Hb as [Hb _]. apply Hb. now split.
    + intros q Hq Hone.
      assert (Hr : In (i, q) (Pyomo.routes_from mo i)).
      { apply filter_In. split; [assumption |]. cbn [fst]. apply String.eqb_refl. }
      specialize (Huniq (i, q) Hr Hone). now injection Huniq.
Qed.

Lemma outbound_unique_route
  (cfg : config) (mo : Pyomo.model) (a : Pyomo.assignment) (j : string) :
  Pyomo.generate cfg = Ok mo ->
  Pyomo.feasible mo a = true ->
  In j (Pyomo.setJ mo) ->
  exists s, In s (Pyomo.setS mo) /\ In (s, j) (Pyomo.setB mo) /\
    Pyomo.e a s j = 1%Z /\
    forall p, In (p, j) (Pyomo.setB mo) -> Pyomo.e a p j = 1%Z -> p = s.
Proof.
  intros Hg Hf Hj.
  pose proof (generated_NoDup_B cfg mo Hg) as NB.
  pose proof (generated_P cfg mo Hg) as HP.
  pose proof (feasible_connect_outbounds mo a Hf j Hj) as K.
  destruct (sum_binary_one (fun r => Pyomo.e a (fst r) (snd r))
              (Pyomo.routes_into mo j)) as ([s q] & Hin & H1 & Huniq).
  - now apply NoDup_filter.
  - intros [p q] Hr. apply filter_In in Hr. destruct Hr as [Hr _].
    exact (feasible_binary_e mo a Hf p q Hr).
  - exact K.
  - apply filter_In in Hin. destruct Hin as [Hb E]. cbn [fst snd] in *.
    apply String.eqb_eq in E. subst q.
    destruct (generated_B_sub cfg mo s j Hg Hb) as [HsP HjQ].
    exists s. split; [| split; [assumption | split; [assumption |]]].
    + rewrite HP in HsP. apply in_app_or in HsP.
      destruct HsP as [Hi | Hs]; [| assumption]. exfalso.
      apply (generated_B cfg mo s j Hg) in Hb;
        [| rewrite HP; apply in_or_app; now left | assumption].
      destruct Hb as [Hb _]. apply Hb. now split.
    + intros p Hp Hone.
      assert (Hr : In (p, j) (Pyomo.routes_into mo j)).
      { apply filter_In. split; [assumption |]. cbn [snd]. apply String.eqb_refl. }
      specialize (Huniq (p, j) Hr Hone). now injection Huniq.
Qed.

(** X8. In a feasible assignment every inbound belt is the start of exactly
    one built route, which leads to a splitter, and every outbound belt is
    the end of exactly one built route, which comes from a splitter. *)
Theorem belts_connected_once
  (cfg : config) (mo : Pyomo.model) (a : Pyomo.assignment) :
  Pyomo.generate cfg = Ok mo ->
  Pyomo.feasible mo a = true ->
  (forall i, In i (Pyomo.setI mo) ->
     exists s, In s (Pyomo.setS mo) /\ In (i, s) (Pyomo.setB mo) /\
       Pyomo.e a i s = 1%Z /\
       forall q, In (i, q) (Pyomo.setB mo) -> Pyomo.e a i q = 1%Z -> q = s) /\
  (forall j, In j (Pyomo.setJ mo) ->
     exists s, In s (Pyomo.setS mo) /\ In (s, j) (Pyomo.setB mo) /\
       Pyomo.e a s j = 1%Z /\
       forall p, In (p, j) (Pyomo.setB mo) -> Pyomo.e a p j = 1%Z -> p = s).
Proof.
  intros Hg Hf. split.
  - intros i. now apply inbound_unique_route with (cfg := cfg).
  - intros j. now apply outbound_unique_route with (cfg := cfg).
Qed.

Lemma belts_connected_once_witness :
  (forall i, In i (Pyomo.setI model_1_1_2) ->
     exists s, In s (Pyomo.setS model_1_1_2) /\ In (i, s) (Pyomo.setB model_1_1_2) /\
       Pyomo.e chain_assignment i s = 1%Z /\
       forall q, In (i, q) (Pyomo.setB model_1_1_2) ->
                 Pyomo.e chain_assignment i q = 1%Z -> q = s) /\
  (forall j, In j (Pyomo.setJ model_1_1_2) ->
     exists s, In s (Pyomo.setS model_1_1_2) /\ In (s, j) (Pyomo.setB model_1_1_2) /\
       Pyomo.e chain_assignment s j = 1%Z /\
       forall p, In (p, j) (Pyomo.setB model_1_1_2) ->
                 Pyomo.e chain_assignment p j = 1%Z -> p = s).
Proof.
  apply (belts_connected_once cfg_1_1_2 model_1_1_2 chain_assignment).
  - vm_compute. reflexivity.
  - vm_compute. reflexivity.
Defined.

(** X9. In a feasible assignment an inbound belt carries only its own
    cargo: on every route out of [i], the traffic of a cargo whose number
    differs from that of [i] is zero, and the traffic of its own cargo over
    all routes out of [i] adds up to [t_in], the float that the division
    [throughput / len(I)] returns. *)
Theorem inbound_belt_is_homogeneous
  (cfg : config) (mo : Pyomo.model) (a : Pyomo.assignment) (i c : string) :
  Pyomo.generate cfg = Ok mo ->
  Pyomo.feasible mo a = true ->
  In i (Pyomo.setI mo) -> In c (Pyomo.setC mo) ->
  exists ti,
    truediv (Pyomo.throughput cfg) (inbounds cfg) = Ok (Finite ti) /\
    (Pyomo.get_int i <> Pyomo.get_int c ->
     forall q, In (i, q) (Pyomo.setB mo) -> (Pyomo.t a i q c == 0)%Q) /\
    (Pyomo.get_int i = Pyomo.get_int c ->
     (sum (map (fun r => Pyomo.t a (fst r) (snd r) c) (Pyomo.routes_from mo i))
      == ti)%Q).
Proof.
  intros Hg Hf Hi Hc.
  destruct (generated_traffic cfg mo Hg) as (ti & to & Hd & _ & Hti).
  destruct Hti as (r & -> & _); [intros E; rewrite E in Hi; contradiction |].
  destruct (derived_quotients cfg _ _ Hd) as [Hq _].
  exists r. split; [exact Hq |].
  destruct (generated_f_value cfg mo r (Finite to) i c Hg Hd Hi Hc)
    as (ki & kc & Gi & Gc & Hp).
  destruct (feasible_consume cfg mo a Hg Hf i c Hi Hc) as (fic & Hfic & Hsum).
  rewrite Hp in Hfic. injection Hfic as <-. rewrite Gi, Gc. split.
  - intros Hne q Hq'.
    assert (E : (ki =? kc)%Z = false) by (apply Z.eqb_neq; congruence).
    rewrite E in Hsum.
    assert (Hr : In (i, q) (Pyomo.routes_from mo i)).
    { apply filter_In. split; [assumption | apply String.eqb_refl]. }
    apply (sum_map_zero (fun r => Pyomo.t a (fst r) (snd r) c)
             (Pyomo.routes_from mo i)) with (k := (i, q)); try assumption.
    intros [p' q'] Hr'. apply filter_In in Hr'. destruct Hr' as [Hb _].
    now apply (feasible_domains_t cfg mo a Hg Hf).
  - intros E. injection E as E. apply Z.eqb_eq in E. rewrite E in Hsum.
    exact Hsum.
Qed.

Lemma inbound_belt_is_homogeneous_witness :
  exists ti,
    truediv (Pyomo.throughput cfg_1_1_2) (inbounds cfg_1_1_2) = Ok (Finite ti) /\
    (Pyomo.get_int "i1" <> Pyomo.get_int "c1" ->
     forall q, In ("i1", q) (Pyomo.setB model_1_1_2) ->
               (Pyomo.t chain_assignment "i1" q "c1" == 0)%Q) /\
    (Pyomo.get_int "i1" = Pyomo.get_int "c1" ->
     (sum (map (fun r => Pyomo.t chain_assignment (fst r) (snd r) "c1")
             (Pyomo.routes_from model_1_1_2 "i1"))
      == ti)%Q).
Proof.
  apply (inbound_belt_is_homogeneous cfg_1_1_2 model_1_1_2 chain_assignment).
  - vm_compute. reflexivity.
  - vm_compute. reflexivity.
  - left. reflexivity.
  - left. reflexivity.
Defined.

(** X10. In a feasible assignment every outbound belt receives the same
    amount of every cargo, summed over the routes that end at it: [t_out],
    the float that the two divisions [throughput / len(J) / len(C)] return,
    each one rounded. *)
Theorem outbound_belt_is_balanced
  (cfg : config) (mo : Pyomo.model) (a : Pyomo.assignment) (j c : string) :
  Pyomo.generate cfg = Ok mo ->
  Pyomo.feasible mo a = true ->
  In j (Pyomo.setJ mo) -> In c (Pyomo.setC mo) ->
  exists vo to,
    truediv (Pyomo.throughput cfg) (outbounds cfg) = Ok vo /\
    float_truediv vo (Pyomo.cargos cfg) = Ok (Finite to) /\
    (sum (map (fun r => Pyomo.t a (fst r) (snd r) c) (Pyomo.routes_into mo j))
     == to)%Q.
Proof.
  intros Hg Hf Hj Hc.
  destruct (generated_traffic cfg mo Hg) as (ti & to & Hd & _ & _).
  destruct (derived_quotients cfg _ _ Hd) as (_ & vo & Hvo & Hto).
  exists vo, to. split; [exact Hvo |]. split; [exact Hto |].
  pose proof (generated_g_value cfg mo ti to j c Hg Hd Hj Hc) as Hp.
  destruct (feasible_produce cfg mo a Hg Hf j c Hj Hc) as (gjc & Hgjc & Hsum).
  rewrite Hp in Hgjc. injection Hgjc as <-. exact Hsum.
Qed.

Lemma outbound_belt_is_balanced_witness :
  exists vo to,
    truediv (Pyomo.throughput cfg_1_1_2) (outbounds cfg_1_1_2) = Ok vo /\
    float_truediv vo (Pyomo.cargos cfg_1_1_2) = Ok (Finite to) /\
    (sum (map (fun r => Pyomo.t chain_assignment (fst r) (snd r) "c1")
            (Pyomo.routes_into model_1_1_2 "j1"))
     == to)%Q.
Proof.
  apply (outbound_belt_is_balanced cfg_1_1_2 model_1_1_2 chain_assignment).
  - vm_compute. reflexivity.
  - vm_compute. reflexivity.
  - left. reflexivity.
  - left. reflexivity.
Defined.

Lemma feasible_domains_x (cfg : config) (mo : Pyomo.model) (a : Pyomo.assignment)
  (s c : string) :
  Pyomo.generate cfg = Ok mo -> Pyomo.feasible mo a = true ->
  In s (Pyomo.setS mo) -> In c (Pyomo.setC mo) ->
  (0 <= Pyomo.x a s c)%Q /\ (0 <= Pyomo.y a s c)%Q.
Proof.
  intros Hg Hf Hs Hc.
  destruct (generate_inv cfg mo Hg) as (ti & to & H).
  assert (HSxC : Pyomo.setSxC mo = list_prod (Pyomo.setS mo) (Pyomo.setC mo)) by tauto.
  clear H. destruct (feasible_inv mo a Hf) as (Hd & _).
  unfold Pyomo.domains in Hd. rewrite !andb_true_iff in Hd.
  destruct Hd as (((((((((_ & _) & _) & _) & _) & Dx) & Dy) & _) & _) & _).
  rewrite forallb_forall in Dx, Dy.
  assert (Hk : In (s, c) (Pyomo.setSxC mo)) by (rewrite HSxC; now apply in_prod).
  specialize (Dx _ Hk). specialize (Dy _ Hk). cbn [fst snd] in Dx, Dy.
  apply Qle_bool_iff in Dx, Dy. tauto.
Qed.

(** The outflow of a splitter, route by route. *)
Lemma feasible_outflow (cfg : config) (mo : Pyomo.model) (a : Pyomo.assignment)
  (s c : string) :
  Pyomo.generate cfg = Ok mo -> Pyomo.feasible mo a = true ->
  In s (Pyomo.setS mo) -> In c (Pyomo.setC mo) ->
  (Pyomo.x a s c
   == sum (map (fun r => Pyomo.t a (fst r) (snd r) c) (Pyomo.routes_from mo s)))%Q.
Proof.
  intros Hg Hf Hs Hc.
  destruct (generate_inv cfg mo Hg) as (ti & to & H).
  assert (HSxC : Pyomo.setSxC mo = list_prod (Pyomo.setS mo) (Pyomo.setC mo)) by tauto.
  clear H.
  assert (Hk : In (s, c) (Pyomo.setSxC mo)) by (rewrite HSxC; now apply in_prod).
  assert (Ky : holds (Pyomo.define_outflow_rule mo a s c) = true).
  { apply (feasible_plain mo a Hf). do 4 right. left. now apply in_over2. }
  assert (Kc : holds (Pyomo.splitters_conserve_rule mo a s c) = true).
  { apply (feasible_plain mo a Hf). do 14 right. left. now apply in_over2. }
  apply holds_CEq in Ky, Kc. now rewrite Kc.
Qed.

(** X11. A splitter creates no cargo and keeps none.  In a feasible
    assignment a splitter without a built input route ([n[s] = 0]) has no
    inflow and sends nothing on any of its routes; a splitter without a
    built output route ([m[s] = 0]) has no inflow, so nothing is sent to
    it. *)
Theorem splitter_creates_no_cargo
  (cfg : config) (mo : Pyomo.model) (a : Pyomo.assignment) (s c : string) :
  Pyomo.generate cfg = Ok mo ->
  Pyomo.feasible mo a = true ->
  In s (Pyomo.setS mo) -> In c (Pyomo.setC mo) ->
  (Pyomo.n a s = 0%Z ->
   (Pyomo.x a s c == 0)%Q /\
   forall q, In (s, q) (Pyomo.setB mo) -> (Pyomo.t a s q c == 0)%Q) /\
  (Pyomo.m a s = 0%Z ->
   (Pyomo.x a s c == 0)%Q /\
   forall p, In (p, s) (Pyomo.setB mo) -> (Pyomo.t a p s c == 0)%Q).
Proof.
  intros Hg Hf Hs Hc.
  destruct (feasible_domains_x cfg mo a s c Hg Hf Hs Hc) as [Dx _].
  pose proof (feasible_outflow cfg mo a s c Hg Hf Hs Hc) as Hout.
  assert (Tpos : forall l : list (string * string),
            (forall r, In r l -> In r (Pyomo.setB mo)) ->
            forall r, In r l -> (0 <= Pyomo.t a (fst r) (snd r) c)%Q).
  { intros l Hl [p q] Hr. cbn [fst snd].
    now apply (feasible_domains_t cfg mo a Hg Hf p q c (Hl _ Hr)). }
  split.
  - intros Hn.
    pose proof (inflow_le_inputs cfg mo a Hg Hf s c Hs Hc) as Hx.
    rewrite Hn in Hx. inject_consts.
    assert (X0 : (Pyomo.x a s c == 0)%Q) by lra.
    split; [assumption |]. intros q Hq.
    assert (Hr : In (s, q) (Pyomo.routes_from mo s)).
    { apply filter_In. split; [assumption | apply String.eqb_refl]. }
    apply (sum_map_zero (fun r => Pyomo.t a (fst r) (snd r) c)
             (Pyomo.routes_from mo s)) with (k := (s, q)); try assumption.
    + apply Tpos. intros r Hr'. now apply filter_In in Hr'.
    + now rewrite <- Hout.
  - intros Hm.
    assert (Km : holds (Pyomo.define_num_outputs_rule mo a s) = true).
    { apply (feasible_plain mo a Hf). do 2 right. left. now apply in_map. }
    apply holds_CEq in Km. rewrite Hm in Km. inject_consts.
    assert (Hle :
      (sum (map (fun r => Pyomo.t a (fst r) (snd r) c) (Pyomo.routes_from mo s))
       <= sum (map (fun r => inject_Z (Pyomo.e a (fst r) (snd r)))
                (Pyomo.routes_from mo s)))%Q).
    { apply sum_map_le. intros [p q] Hr. cbn [fst snd].
      apply filter_In in Hr. destruct Hr as [Hr _].
      now apply (traffic_le_existence cfg mo a Hg Hf). }
    assert (X0 : (Pyomo.x a s c == 0)%Q) by lra.
    split; [assumption |]. intros p Hp.
    assert (Kx : holds (Pyomo.define_inflow_rule mo a s c) = true).
    { destruct (generate_inv cfg mo Hg) as (ti & to & H).
      assert (HSxC : Pyomo.setSxC mo = list_prod (Pyomo.setS mo) (Pyomo.setC mo))
        by tauto.
      apply (feasible_plain mo a Hf). do 3 right. left.
      apply in_over2. rewrite HSxC. now apply in_prod. }
    apply holds_CEq in Kx.
    assert (Hr : In (p, s) (Pyomo.routes_into mo s)).
    { apply filter_In. split; [assumption | apply String.eqb_refl]. }
    apply (sum_map_zero (fun r => Pyomo.t a (fst r) (snd r) c)
             (Pyomo.routes_into mo s)) with (k := (p, s)); try assumption.
    + apply Tpos. intros r Hr'. now apply filter_In in Hr'.
    + now rewrite <- Kx.
Qed.

Lemma splitter_creates_no_cargo_witness :
  (Pyomo.n chain_assignment "s2" = 0%Z ->
   (Pyomo.x chain_assignment "s2" "c1" == 0)%Q /\
   forall q, In ("s2", q) (Pyomo.setB model_1_1_2) ->
             (Pyomo.t chain_assignment "s2" q "c1" == 0)%Q) /\
  (Pyomo.m chain_assignment "s2" = 0%Z ->
   (Pyomo.x chain_assignment "s2" "c1" == 0)%Q /\
   forall p, In (p, "s2") (Pyomo.setB model_1_1_2) ->
             (Pyomo.t chain_assignment p "s2" "c1" == 0)%Q).
Proof.
  apply (splitter_creates_no_cargo cfg_1_1_2 model_1_1_2 chain_assignment).
  - vm_compute. reflexivity.
  - vm_compute. reflexivity.
  - right. left. reflexivity.
  - left. reflexivity.
Defined.

(** X12. Without splitters the script does not get to the solver: when the
    splitter budget is not positive the generated model has no route at all,
    and as soon as it has an inbound or an outbound belt the rule of the
    first connection constraint compares two integers and its declaration
    stops the script with [ValueError]. *)
Theorem no_splitter_stops_declaration (cfg : config) (mo : Pyomo.model) :
  Pyomo.generate cfg = Ok mo -> (splitters cfg <= 0)%Z ->
  Pyomo.setB mo = [] /\
  ((0 < inbounds cfg)%Z \/ (0 < outbounds cfg)%Z ->
   forall a, Pyomo.constraints mo a = raise ValueError).
Proof.
  intros Hg HS.
  destruct (generate_inv cfg mo Hg) as (ti & to & _ & EI & EJ & ES & _).
  rewrite init_set_nonpos in ES by assumption.
  assert (HB : Pyomo.setB mo = []).
  { destruct (Pyomo.setB mo) as [| [p q] l] eqn:E; [reflexivity |].
    assert (Hin : In (p, q) (Pyomo.setB mo)) by (rewrite E; now left).
    destruct (generated_B_sub cfg mo p q Hg Hin) as [Hp Hq].
    pose proof (proj1 (generated_B cfg mo p q Hg Hp Hq) Hin) as [Hby _].
    rewrite (generated_P cfg mo Hg), ES, app_nil_r in Hp.
    rewrite (generated_Q cfg mo Hg), ES in Hq. cbn [app] in Hq.
    exfalso. apply Hby. now split. }
  split; [assumption |].
  intros Hpos a. unfold Pyomo.constraints.
  destruct (Z.lt_ge_cases 0 (inbounds cfg)) as [HI | HI].
  - assert (Hi : In ("i" ++ str 1) (Pyomo.setI mo)).
    { rewrite EI. apply in_init_set. exists 1%Z. split; [lia | reflexivity]. }
    destruct (Pyomo.setI mo) as [| i l]; [contradiction |].
    cbn [mapM]. unfold Pyomo.connect_inbounds_rule at 1, Pyomo.routes_from.
    rewrite HB. reflexivity.
  - assert (HJ : (0 < outbounds cfg)%Z) by (destruct Hpos; lia).
    rewrite EI, init_set_nonpos by assumption. cbn [mapM bind Ok].
    assert (Hj : In ("j" ++ str 1) (Pyomo.setJ mo)).
    { rewrite EJ. apply in_init_set. exists 1%Z. split; [lia | reflexivity]. }
    destruct (Pyomo.setJ mo) as [| j l]; [contradiction |].
    cbn [mapM]. unfold Pyomo.connect_outbounds_rule at 1, Pyomo.routes_into.
    rewrite HB. reflexivity.
Qed.

Lemma no_splitter_stops_declaration_witness :
  exists mo, Pyomo.generate (Config 8 8 0) = Ok mo /\
    Pyomo.setB mo = [] /\
    ((0 < inbounds (Config 8 8 0))%Z \/ (0 < outbounds (Config 8 8 0))%Z ->
     forall a, Pyomo.constraints mo a = raise ValueError).
Proof.
  destruct (generate_total (Config 8 8 0)) as [mo Hg];
    [cbn; lia | cbn; lia | cbn; unfold float_limit; lia |].
  exists mo. split; [assumption |].
  apply (no_splitter_stops_declaration (Config 8 8 0) mo Hg). cbn. lia.
Defined.

(** ** The parameter section of [sympy_system.py] on any counts *)

Lemma forM_raise {A : Type} (h : A -> result unit) (err : exception) (l : list A) :
  (forall x, In x l -> h x = Ok tt \/ h x = raise err) ->
  (exists x, In x l /\ h x = raise err) ->
  forM h l = raise err.
Proof.
  induction l as [| a l IH]; intros Hall (x & Hx & Hr); [contradiction |].
  cbn [forM]. destruct (Hall a) as [Ha | Ha]; [now left | |].
  - rewrite Ha. cbn [bind Ok]. apply IH.
    + intros x' Hx'. apply Hall. now right.
    + destruct Hx as [-> | Hx]; [| now exists x].
      rewrite Ha in Hr. discriminate.
  - rewrite Ha. reflexivity.
Qed.

Lemma sympy_f_data (cfg : config) :
  mapM (fun ic => val <- Sympy.f_init cfg (fst ic) (snd ic) ;; Ok (ic, val))
       (Sympy.setIxC cfg)
  = Ok (map (fun ic => (ic, sympy_f_value cfg ic)) (Sympy.setIxC cfg)).
Proof.
  rewrite <- (map_id (Sympy.setIxC cfg)) at 1.
  apply mapM_map_pure. intros [i c] H. unfold id. cbn [fst snd].
  apply in_prod_iff in H. destruct H as [Hi Hc].
  apply in_init_set in Hi. destruct Hi as (ki & Hki & ->).
  apply in_init_set in Hc. destruct Hc as (kc & Hkc & ->).
  rewrite sympy_f_init_members by lia. unfold sympy_f_value. cbn [fst snd bind Ok].
  rewrite (get_int_member _ _ letter_i), (get_int_member _ _ letter_c) by lia.
  reflexivity.
Qed.

Lemma sympy_f_value_members (cfg : config) (ki kc : Z) :
  (0 <= ki)%Z -> (0 <= kc)%Z ->
  sympy_f_value cfg ("i" ++ str ki, "c" ++ str kc)
  = if (ki =? kc)%Z then Sympy.t_in cfg else Some 0%Q.
Proof.
  intros Hi Hc. unfold sympy_f_value. cbn [fst snd].
  now rewrite (get_int_member _ _ letter_i), (get_int_member _ _ letter_c).
Qed.

Lemma assert_fraction_zero : Sympy.assert_fraction (Some 0%Q) = Ok tt.
Proof. reflexivity. Qed.

(** X13. The asserts of the parameter section fail in one case only: with
    a positive inbound count and a negative outbound count the traffic value
    [t_in] is negative and the section stops with [AssertionError].  For all
    other counts, zero included, it ends normally. *)
Theorem sympy_parameter_outcomes (cfg : config) :
  ((0 < inbounds cfg)%Z /\ (outbounds cfg < 0)%Z ->
   Sympy.build_parameters cfg = raise AssertionError) /\
  (~ ((0 < inbounds cfg)%Z /\ (outbounds cfg < 0)%Z) ->
   exists prm, Sympy.build_parameters cfg = Ok prm).
Proof.
  split.
  - intros [HI HJ]. unfold Sympy.build_parameters.
    rewrite sympy_f_data. cbn [bind Ok].
    destruct (sympy_traffic cfg) as [Eti _]; try lia.
    assert (Hti : (inject_Z (Pyomo.throughput cfg) / inject_Z (inbounds cfg) / 1 < 0)%Q).
    { unfold Pyomo.throughput. rewrite Z.min_r by lia.
      assert (inject_Z (outbounds cfg) < 0)%Q
        by (change 0%Q with (inject_Z 0); rewrite <- Zlt_Qlt; lia).
      assert (0 < inject_Z (inbounds cfg))%Q
        by (change 0%Q with (inject_Z 0); rewrite <- Zlt_Qlt; lia).
      assert (inject_Z (outbounds cfg) / inject_Z (inbounds cfg) < 0)%Q
        by (apply Qlt_shift_div_r; lra).
      apply Qlt_shift_div_r; lra. }
    assert (Hbad : Sympy.assert_fraction (Sympy.t_in cfg) = raise AssertionError).
    { rewrite Eti. unfold Sympy.assert_fraction.
      destruct (Qle_bool 0 (inject_Z (Pyomo.throughput cfg) / inject_Z (inbounds cfg) / 1))
        eqn:E; [| reflexivity].
      apply Qle_bool_iff in E. lra. }
    rewrite (forM_raise _ AssertionError); [reflexivity | |].
    + intros kv H. apply in_map_iff in H. destruct H as ([i c] & <- & H).
      apply in_prod_iff in H. destruct H as [Hi Hc].
      apply in_init_set in Hi. destruct Hi as (ki & Hki & ->).
      apply in_init_set in Hc. destruct Hc as (kc & Hkc & ->).
      cbn [snd]. rewrite sympy_f_value_members by lia.
      destruct (ki =? kc)%Z; [now right | now left].
    + exists (("i" ++ str 1, "c" ++ str 1),
              sympy_f_value cfg ("i" ++ str 1, "c" ++ str 1)). split.
      * apply (in_map (fun ic => (ic, sympy_f_value cfg ic))).
        apply in_prod; apply in_init_set; exists 1%Z;
          (split; [unfold Sympy.cargos; lia | reflexivity]).
      * cbn [snd]. rewrite sympy_f_value_members by lia. exact Hbad.
  - intros Hnot. unfold Sympy.build_parameters.
    rewrite sympy_f_data. cbn [bind Ok].
    destruct (Z.lt_ge_cases 0 (inbounds cfg)) as [HI | HI].
    + assert (HJ : (0 <= outbounds cfg)%Z) by lia.
      assert (Hti : exists r, Sympy.t_in cfg = Some r /\ (0 <= r <= 1)%Q).
      { unfold Sympy.t_in, Sympy.v_in, Sympy.sp_div.
        rewrite inject_Z_nonzero by lia. change (Qeq_bool 1 0) with false.
        eexists. split; [reflexivity |].
        assert (0 <= inject_Z (Sympy.throughput cfg))%Q
          by (change 0%Q with (inject_Z 0); rewrite <- Zle_Qle;
              unfold Sympy.throughput; lia).
        assert (inject_Z (Sympy.throughput cfg) <= inject_Z (inbounds cfg))%Q
          by (rewrite <- Zle_Qle; unfold Sympy.throughput; lia).
        assert (0 < inject_Z (inbounds cfg))%Q
          by (change 0%Q with (inject_Z 0); rewrite <- Zlt_Qlt; lia).
        assert (0 <= inject_Z (Sympy.throughput cfg) / inject_Z (inbounds cfg) <= 1)%Q
          by (split; apply Qdiv_fraction; lra).
        split; apply Qdiv_fraction; lra. }
      destruct Hti as (r & Eti & Hr).
      rewrite forM_total.
      2:{ intros kv H. apply in_map_iff in H. destruct H as ([i c] & <- & H).
          apply in_prod_iff in H. destruct H as [Hi Hc].
          apply in_init_set in Hi. destruct Hi as (ki & Hki & ->).
          apply in_init_set in Hc. destruct Hc as (kc & Hkc & ->).
          cbn [snd]. rewrite sympy_f_value_members by lia.
          destruct (ki =? kc)%Z; [| reflexivity].
          rewrite Eti. now apply assert_fraction_Ok. }
      cbn [bind Ok]. rewrite forM_total.
      2:{ intros kv H. apply in_map_iff in H. destruct H as ([j c] & <- & H).
          apply in_prod_iff in H. destruct H as [Hj Hc]. cbn [snd].
          apply in_init_set in Hj. destruct Hj as (kj & Hkj & _).
          assert (HJ' : (0 < outbounds cfg)%Z) by lia.
          destruct (sympy_traffic cfg) as [_ Eto]; try lia.
          destruct (traffic_fractions cfg HI HJ') as (_ & _ & T3 & T4).
          rewrite Eto. apply assert_fraction_Ok. lra. }
      cbn [bind Ok]. eexists. reflexivity.
    + unfold Sympy.setIxC, Sympy.setJxC.
      destruct (sympy_sets cfg) as (-> & _ & ->).
      rewrite (init_set_nonpos "i"), (init_set_nonpos "c") by assumption.
      rewrite !list_prod_nil_r. cbn. eexists. reflexivity.
Qed.

Lemma sympy_parameter_outcomes_witness :
  Sympy.build_parameters (Config 1 (-3) 3) = raise AssertionError /\
  exists prm, Sympy.build_parameters (Config 1 0 3) = Ok prm.
Proof.
  split.
  - apply (sympy_parameter_outcomes (Config 1 (-3) 3)). cbn. lia.
  - apply (sympy_parameter_outcomes (Config 1 0 3)). cbn. lia.
Defined.

(** ** The report of a feasible assignment *)

Lemma built_above_half (k : Z) :
  (k = 0 \/ k = 1)%Z -> negb (Qle_bool (inject_Z k) (1 # 2)) = (k =? 1)%Z.
Proof. intros [-> | ->]; reflexivity. Qed.

Lemma report_of_binary (a : Pyomo.assignment) (B : list (string * string)) :
  (forall p q, In (p, q) B -> Pyomo.e a p q = 0 \/ Pyomo.e a p q = 1)%Z ->
  Pyomo.report (solution_of a) B
  = (map (fun r => (r, Pyomo.v a (fst r) (snd r)))
         (filter (fun r => (Pyomo.e a (fst r) (snd r) =? 1)%Z) B), None).
Proof.
  induction B as [| [p q] B IH]; intros Hb; [reflexivity |].
  cbn [Pyomo.report solution_of Pyomo.e_value Pyomo.v_value Pyomo.value Ok
       filter fst snd].
  rewrite built_above_half by (apply Hb; now left).
  rewrite IH by (intros p' q' H; apply Hb; now right).
  now destruct (Pyomo.e a p q =? 1)%Z.
Qed.

(** X14. Printing a feasible assignment: the final loop raises nothing and
    lists, in the order of [B], exactly the built routes ([e = 1]) with their
    volumes; every inbound belt is the producer of exactly one line and every
    outbound belt the consumer of exactly one line. *)
Theorem report_of_feasible
  (cfg : config) (mo : Pyomo.model) (a : Pyomo.assignment) :
  Pyomo.generate cfg = Ok mo ->
  Pyomo.feasible mo a = true ->
  let out := fst (Pyomo.report (solution_of a) (Pyomo.setB mo)) in
  Pyomo.report (solution_of a) (Pyomo.setB mo)
  = (map (fun r => (r, Pyomo.v a (fst r) (snd r)))
         (filter (fun r => (Pyomo.e a (fst r) (snd r) =? 1)%Z) (Pyomo.setB mo)),
     None) /\
  (forall i, In i (Pyomo.setI mo) ->
     exists s, In (i, s, Pyomo.v a i s) out /\
               forall q vol, In (i, q, vol) out -> q = s) /\
  (forall j, In j (Pyomo.setJ mo) ->
     exists s, In (s, j, Pyomo.v a s j) out /\
               forall p vol, In (p, j, vol) out -> p = s).
Proof.
  intros Hg Hf out.
  assert (Hrep := report_of_binary a (Pyomo.setB mo)
                    (fun p q H => feasible_binary_e mo a Hf p q H)).
  split; [exact Hrep |].
  assert (Hout : forall p q vol,
            In (p, q, vol) out <->
            In (p, q) (Pyomo.setB mo) /\ Pyomo.e a p q = 1%Z /\ vol = Pyomo.v a p q).
  { intros p q vol. unfold out. rewrite Hrep. cbn [fst]. rewrite in_map_iff. split.
    - intros ([p' q'] & E & Hin). injection E as -> -> <-.
      apply filter_In in Hin. cbn [fst snd] in Hin. destruct Hin as [Hb H1].
      apply Z.eqb_eq in H1. tauto.
    - intros (Hb & H1 & ->). exists (p, q). split; [reflexivity |].
      apply filter_In. split; [assumption |]. cbn [fst snd]. now apply Z.eqb_eq. }
  split.
  - intros i Hi.
    destruct (inbound_unique_route cfg mo a i Hg Hf Hi) as (s & _ & Hb & H1 & Hu).
    exists s. split; [apply Hout; tauto |].
    intros q vol H. apply Hout in H. destruct H as (Hq & Hq1 & _). now apply Hu.
  - intros j Hj.
    destruct (outbound_unique_route cfg mo a j Hg Hf Hj) as (s & _ & Hb & H1 & Hu).
    exists s. split; [apply Hout; tauto |].
    intros p vol H. apply Hout in H. destruct H as (Hp & Hp1 & _). now apply Hu.
Qed.

Lemma report_of_feasible_witness :
  let out := fst (Pyomo.report (solution_of chain_assignment)
                    (Pyomo.setB model_1_1_2)) in
  Pyomo.report (solution_of chain_assignment) (Pyomo.setB model_1_1_2)
  = (map (fun r => (r, Pyomo.v chain_assignment (fst r) (snd r)))
         (filter (fun r => (Pyomo.e chain_assignment (fst r) (snd r) =? 1)%Z)
            (Pyomo.setB model_1_1_2)),
     None) /\
  (forall i, In i (Pyomo.setI model_1_1_2) ->
     exists s, In (i, s, Pyomo.v chain_assignment i s) out /\
               forall q vol, In (i, q, vol) out -> q = s) /\
  (forall j, In j (Pyomo.setJ model_1_1_2) ->
     exists s, In (s, j, Pyomo.v chain_assignment s j) out /\
               forall p vol, In (p, j, vol) out -> p = s).
Proof.
  apply (report_of_feasible cfg_1_1_2 model_1_1_2 chain_assignment).
  - vm_compute. reflexivity.
  - vm_compute. reflexivity.
Defined.

(** ** Sums along the rows and columns of the route set *)

Lemma filter_filter {A : Type} (f g : A -> bool) (l : list A) :
  filter f (filter g l) = filter (fun x => g x && f x) l.
Proof.
  induction l as [| x l IH]; [reflexivity |].
  cbn [filter]. destruct (g x); cbn [andb filter]; [| exact IH].
  destruct (f x); now rewrite IH.
Qed.

Lemma filter_same {A : Type} (f g : A -> bool) (l : list A) :
  (forall x, In x l -> f x = g x) -> filter f l = filter g l.
Proof.
  induction l as [| x l IH]; intros H; [reflexivity |].
  cbn [filter]. rewrite (H x) by now left.
  rewrite IH by (intros y Hy; apply H; now right). reflexivity.
Qed.

Lemma filter_eqb_single (l : list string) (s : string) :
  NoDup l -> In s l -> filter (fun q => q =? s) l = [s].
Proof.
  intros Hnd. induction Hnd as [| q l Hq Hnd IH]; intros Hs; [contradiction |].
  cbn [filter]. destruct (String.eqb_spec q s) as [-> | Hne].
  - f_equal. apply filter_none. intros y Hy.
    apply String.eqb_neq. intros ->. contradiction.
  - destruct Hs as [-> | Hs]; [contradiction | now apply IH].
Qed.

(** The routes of a filtered product that start at [p]. *)
Lemma filter_row (k : string * string -> bool) (P Q : list string) (p : string) :
  NoDup P -> In p P ->
  filter (fun r => fst r =? p) (filter k (list_prod P Q))
  = map (pair p) (filter (fun q => k (p, q)) Q).
Proof.
  intros Hnd. induction Hnd as [| p0 P Hp0 Hnd IH]; intros Hp; [contradiction |].
  cbn [list_prod]. rewrite !filter_app.
  destruct (String.eqb_spec p0 p) as [-> | Hne].
  - rewrite (filter_none _ (filter k (list_prod P Q))).
    + rewrite app_nil_r, filter_all.
      * now rewrite filter_map_swap.
      * intros [p' q'] H. apply filter_In in H. destruct H as [H _].
        apply in_map_iff in H. destruct H as (q0 & E & _). injection E as <- _.
        apply String.eqb_refl.
    + intros [p' q'] H. apply filter_In in H. destruct H as [H _].
      apply in_prod_iff in H. destruct H as [H _]. cbn [fst].
      apply String.eqb_neq. intros ->. contradiction.
  - rewrite (filter_none _ (filter k (map (pair p0) Q))).
    + cbn [app]. destruct Hp as [E | Hp]; [contradiction | now apply IH].
    + intros [p' q'] H. apply filter_In in H. destruct H as [H _].
      apply in_map_iff in H. destruct H as (q0 & E & _). injection E as <- _.
      cbn [fst]. now apply String.eqb_neq.
Qed.

(** The routes of a filtered product that end at [s]. *)
Lemma filter_column (k : string * string -> bool) (P Q : list string) (s : string) :
  NoDup Q -> In s Q ->
  filter (fun r => snd r =? s) (filter k (list_prod P Q))
  = map (fun p => (p, s)) (filter (fun p => k (p, s)) P).
Proof.
  intros Hnd Hs. induction P as [| p0 P IH]; [reflexivity |].
  cbn [list_prod]. rewrite !filter_app, IH.
  rewrite filter_filter, filter_map_swap. cbn [fst snd].
  rewrite (filter_same _ (fun q => (q =? s) && k (p0, s)) Q).
  2:{ intros q _. destruct (String.eqb_spec q s) as [-> | Hne].
      - now rewrite andb_true_r.
      - now rewrite andb_false_r. }
  cbn [filter]. destruct (k (p0, s)).
  - rewrite (filter_same _ (fun q => q =? s) Q)
      by (intros q _; now rewrite andb_true_r).
    rewrite filter_eqb_single by assumption. reflexivity.
  - rewrite filter_none by (intros q _; now rewrite andb_false_r). reflexivity.
Qed.

Lemma sum_filter {A : Type} (h : A -> Q) (k : A -> bool) (l : list A) :
  (sum (map h (filter k l)) == sum (map (fun x => if k x then h x else 0) l))%Q.
Proof.
  induction l as [| x l IH]; [reflexivity |].
  cbn [filter map]. destruct (k x); cbn [map]; rewrite !sum_cons, IH; ring.
Qed.

(** ** From the Pyomo model to the symbolic system *)

Lemma dict_get_map (F : string * string -> Sympy.number)
  (l : list (string * string)) (k : string * string) :
  In k l -> Sympy.dict_get (map (fun ic => (ic, F ic)) l) k = Ok (F k).
Proof.
  induction l as [| k0 l IH]; intros Hk; [contradiction |].
  cbn [map Sympy.dict_get]. destruct (route_eqb k k0) eqn:E.
  - apply route_eqb_eq in E. now subst.
  - destruct Hk as [-> | Hk]; [| now apply IH].
    assert (route_eqb k k = true) by now apply route_eqb_eq. congruence.
Qed.

Lemma build_parameters_inv (cfg : config) (prm : Sympy.parameters) :
  Sympy.build_parameters cfg = Ok prm ->
  Sympy.f prm = map (fun ic => (ic, sympy_f_value cfg ic)) (Sympy.setIxC cfg) /\
  Sympy.g prm = map (fun jc => (jc, Sympy.t_out cfg)) (Sympy.setJxC cfg).
Proof.
  unfold Sympy.build_parameters. rewrite sympy_f_data. cbn [bind Ok]. intros H.
  apply bind_Ok in H. destruct H as (u1 & _ & H).
  apply bind_Ok in H. destruct H as (u2 & _ & H).
  apply bind_Ok in H. destruct H as (u3 & _ & H).
  apply bind_Ok in H. destruct H as (u4 & _ & H).
  injection H as <-. split; reflexivity.
Qed.

Section Refinement.

Variable cfg : config.
Variable mo : Pyomo.model.
Variable a : Pyomo.assignment.
Hypothesis Hg : Pyomo.generate cfg = Ok mo.
Hypothesis Hf : Pyomo.feasible mo a = true.

Lemma sympy_sets_of_model :
  Sympy.setI cfg = Pyomo.setI mo /\ Sympy.setJ cfg = Pyomo.setJ mo /\
  Sympy.setS cfg = Pyomo.setS mo /\ Sympy.setC cfg = Pyomo.setC mo /\
  Sympy.setP cfg = Pyomo.setP mo /\
  Sympy.setQ cfg = (Pyomo.setJ mo ++ Pyomo.setS mo)%list.
Proof.
  destruct (generate_inv cfg mo Hg)
    as (ti & to & _ & EI & EJ & ES & EC & EP & _).
  assert (HI : Sympy.setI cfg = Pyomo.setI mo) by (now rewrite EI).
  assert (HJ : Sympy.setJ cfg = Pyomo.setJ mo) by (now rewrite EJ).
  assert (HS : Sympy.setS cfg = Pyomo.setS mo) by (now rewrite ES).
  assert (HC : Sympy.setC cfg = Pyomo.setC mo) by (now rewrite EC).
  repeat split; try assumption.
  - unfold Sympy.setP. now rewrite HI, HS, EP.
  - unfold Sympy.setQ. rewrite HJ, HS. apply union_disjoint.
    intros p Hs Hj. exact (generated_S_not_J cfg mo Hg p Hs Hj).
Qed.

Lemma mem_B_kept (p q : string) :
  In p (Pyomo.setP mo) -> In q (Pyomo.setQ mo) ->
  mem_route (p, q) (Pyomo.setB mo)
  = match Pyomo.B_filter p q with inr b => b | inl _ => false end.
Proof.
  intros Hp Hq. apply eq_true_iff_eq. rewrite mem_route_In.
  rewrite (generated_B_filter cfg mo Hg) at 1. rewrite filter_In, in_prod_iff.
  cbn [fst snd]. tauto.
Qed.

Lemma sum_Q_order (h : string -> Q) :
  (sum (map h (Sympy.setQ cfg)) == sum (map h (Pyomo.setQ mo)))%Q.
Proof.
  destruct sympy_sets_of_model as (_ & _ & _ & _ & _ & ->).
  rewrite (generated_Q cfg mo Hg), !map_app, !sum_app. ring.
Qed.

(** A sum along the row of [p], over all of [Q], of a quantity that is zero
    off [B]. *)
Lemma row_sum (h : string -> string -> Q) (p : string) :
  In p (Pyomo.setP mo) ->
  (sum (map (fun q => if mem_route (p, q) (Pyomo.setB mo) then h p q else 0)
          (Sympy.setQ cfg))
   == sum (map (fun r => h (fst r) (snd r)) (Pyomo.routes_from mo p)))%Q.
Proof.
  intros Hp. rewrite sum_Q_order.
  assert (E : Pyomo.routes_from mo p
              = map (pair p)
                  (filter (fun q => match Pyomo.B_filter p q with
                                    | inr b => b
                                    | inl _ => false
                                    end) (Pyomo.setQ mo))).
  { unfold Pyomo.routes_from. rewrite (generated_B_filter cfg mo Hg).
    now rewrite filter_row by
      (exact (generated_NoDup_P cfg mo Hg) || assumption). }
  rewrite E, map_map. cbn [fst snd]. rewrite sum_filter.
  apply sum_map_ext. intros q Hq. rewrite (mem_B_kept p q Hp Hq). reflexivity.
Qed.

(** A sum along the column of [s], over all of [P]. *)
Lemma column_sum (h : string -> string -> Q) (s : string) :
  In s (Pyomo.setQ mo) ->
  (sum (map (fun p => if mem_route (p, s) (Pyomo.setB mo) then h p s else 0)
          (Sympy.setP cfg))
   == sum (map (fun r => h (fst r) (snd r)) (Pyomo.routes_into mo s)))%Q.
Proof.
  intros Hs. destruct sympy_sets_of_model as (_ & _ & _ & _ & -> & _).
  assert (E : Pyomo.routes_into mo s
              = map (fun p => (p, s))
                  (filter (fun p => match Pyomo.B_filter p s with
                                    | inr b => b
                                    | inl _ => false
                                    end) (Pyomo.setP mo))).
  { unfold Pyomo.routes_into. rewrite (generated_B_filter cfg mo Hg).
    now rewrite filter_column by
      (exact (generated_NoDup_Q cfg mo Hg) || assumption). }
  rewrite E, map_map. cbn [fst snd]. rewrite sum_filter.
  apply sum_map_ext. intros p Hp. rewrite (mem_B_kept p s Hp Hs). reflexivity.
Qed.

Lemma S_in_P (s : string) : In s (Pyomo.setS mo) -> In s (Pyomo.setP mo).
Proof.
  intros H. rewrite (generated_P cfg mo Hg). apply in_or_app. now right.
Qed.

Lemma S_in_Q (s : string) : In s (Pyomo.setS mo) -> In s (Pyomo.setQ mo).
Proof.
  intros H. rewrite (generated_Q cfg mo Hg). apply in_or_app. now left.
Qed.

Lemma I_in_P (i : string) : In i (Pyomo.setI mo) -> In i (Pyomo.setP mo).
Proof.
  intros H. rewrite (generated_P cfg mo Hg). apply in_or_app. now left.
Qed.

Lemma J_in_Q (j : string) : In j (Pyomo.setJ mo) -> In j (Pyomo.setQ mo).
Proof.
  intros H. rewrite (generated_Q cfg mo Hg). apply in_or_app. now right.
Qed.

Lemma inject_if (b : bool) (k : Z) :
  inject_Z (if b then k else 0%Z) = if b then inject_Z k else 0%Q.
Proof. now destruct b. Qed.

Lemma restrict_n (s : string) :
  In s (Pyomo.setS mo) ->
  (Sympy.n cfg (restrict mo a) s == inject_Z (Pyomo.n a s))%Q.
Proof.
  intros Hs. unfold Sympy.n, restrict. cbn [Sympy.e].
  assert (K : holds (Pyomo.define_num_inputs_rule mo a s) = true).
  { apply (feasible_plain mo a Hf). right. left. now apply in_map. }
  apply holds_CEq in K. rewrite K.
  rewrite <- (column_sum (fun p q => inject_Z (Pyomo.e a p q)) s (S_in_Q s Hs)).
  apply sum_map_ext. intros p _. now rewrite inject_if.
Qed.

Lemma restrict_m (s : string) :
  In s (Pyomo.setS mo) ->
  (Sympy.m cfg (restrict mo a) s == inject_Z (Pyomo.m a s))%Q.
Proof.
  intros Hs. unfold Sympy.m, restrict. cbn [Sympy.e].
  assert (K : holds (Pyomo.define_num_outputs_rule mo a s) = true).
  { apply (feasible_plain mo a Hf). do 2 right. left. now apply in_map. }
  apply holds_CEq in K. rewrite K.
  rewrite <- (row_sum (fun p q => inject_Z (Pyomo.e a p q)) s (S_in_P s Hs)).
  apply sum_map_ext. intros q _. now rewrite inject_if.
Qed.

Lemma restrict_x (s c : string) :
  In s (Pyomo.setS mo) -> In c (Pyomo.setC mo) ->
  (Sympy.x cfg (restrict mo a) s c == Pyomo.x a s c)%Q.
Proof.
  intros Hs Hc. unfold Sympy.x, restrict. cbn [Sympy.t].
  destruct (generate_inv cfg mo Hg) as (ti & to & H).
  assert (HSxC : Pyomo.setSxC mo = list_prod (Pyomo.setS mo) (Pyomo.setC mo)) by tauto.
  clear H.
  assert (K : holds (Pyomo.define_inflow_rule mo a s c) = true).
  { apply (feasible_plain mo a Hf). do 3 right. left.
    apply in_over2. rewrite HSxC. now apply in_prod. }
  apply holds_CEq in K. rewrite K.
  exact (column_sum (fun p q => Pyomo.t a p q c) s (S_in_Q s Hs)).
Qed.

Lemma restrict_y (s c : string) :
  In s (Pyomo.setS mo) -> In c (Pyomo.setC mo) ->
  (Sympy.y cfg (restrict mo a) s c == Pyomo.y a s c)%Q.
Proof.
  intros Hs Hc. unfold Sympy.y, restrict. cbn [Sympy.t].
  destruct (generate_inv cfg mo Hg) as (ti & to & H).
  assert (HSxC : Pyomo.setSxC mo = list_prod (Pyomo.setS mo) (Pyomo.setC mo)) by tauto.
  clear H.
  assert (K : holds (Pyomo.define_outflow_rule mo a s c) = true).
  { apply (feasible_plain mo a Hf). do 4 right. left.
    apply in_over2. rewrite HSxC. now apply in_prod. }
  apply holds_CEq in K. rewrite K.
  exact (row_sum (fun p q => Pyomo.t a p q c) s (S_in_P s Hs)).
Qed.

Lemma restrict_v (p q : string) :
  (Sympy.v cfg (restrict mo a) p q
   == if mem_route (p, q) (Pyomo.setB mo) then Pyomo.v a p q else 0)%Q.
Proof.
  unfold Sympy.v, restrict. cbn [Sympy.t].
  destruct sympy_sets_of_model as (_ & _ & _ & -> & _).
  destruct (mem_route (p, q) (Pyomo.setB mo)) eqn:E.
  - apply mem_route_In in E.
    assert (K : holds (Pyomo.define_volume_rule mo a p q) = true).
    { apply (feasible_plain mo a Hf). left. now apply in_over2. }
    apply holds_CEq in K. now rewrite K.
  - rewrite sum_const. ring.
Qed.

End Refinement.

Lemma forallb_map_holds {A : Type} (rule : A -> constraint) (l : list A) :
  (forall k, In k l -> holds (rule k) = true) ->
  forallb holds (map rule l) = true.
Proof.
  intros H. apply forallb_forall. intros k Hk.
  apply in_map_iff in Hk. destruct Hk as (k0 & <- & Hk0). now apply H.
Qed.

(** What [exact_traffic] says: both scripts computed their traffic values,
    and the floats of one are the rationals of the other. *)
Lemma exact_traffic_inv (cfg : config) :
  exact_traffic cfg = true ->
  exists ti to si so,
    Pyomo.derived cfg = Ok (Finite ti, Finite to) /\
    Sympy.t_in cfg = Some si /\ Sympy.t_out cfg = Some so /\
    (ti == si)%Q /\ (to == so)%Q.
Proof.
  unfold exact_traffic. intros H.
  destruct (Pyomo.derived cfg) as [err | [[ti | ?] [to | ?]]]; try discriminate.
  destruct (Sympy.t_in cfg) as [si |]; try discriminate.
  destruct (Sympy.t_out cfg) as [so |]; try discriminate.
  apply andb_true_iff in H. destruct H as [H1 H2].
  apply Qeq_bool_iff in H1. apply Qeq_bool_iff in H2.
  exists ti, to, si, so. repeat split; assumption.
Qed.

Section RefinementSystem.

Variable cfg : config.
Variable mo : Pyomo.model.
Variable prm : Sympy.parameters.
Variable a : Pyomo.assignment.
Hypothesis Hg : Pyomo.generate cfg = Ok mo.
Hypothesis Hb : Sympy.build_parameters cfg = Ok prm.
Hypothesis Hx : exact_traffic cfg = true.
Hypothesis Hf : Pyomo.feasible mo a = true.

Lemma restrict_assumptions : Sympy.assumptions cfg (restrict mo a) = true.
Proof.
  destruct (sympy_sets_of_model cfg mo Hg) as (_ & _ & ES & EC & _).
  unfold Sympy.assumptions. rewrite !andb_true_iff. repeat split;
    apply forallb_forall.
  - intros [p q] _. cbn [restrict Sympy.e fst snd]. apply Z.leb_le.
    destruct (mem_route (p, q) (Pyomo.setB mo)) eqn:E; [| lia].
    apply mem_route_In in E. destruct (feasible_binary_e mo a Hf p q E); lia.
  - intros [[p q] c] H. cbn [restrict Sympy.t fst snd]. apply Qle_bool_iff.
    unfold Sympy.setBxC in H. apply in_prod_iff in H. destruct H as [_ Hc].
    rewrite EC in Hc.
    destruct (mem_route (p, q) (Pyomo.setB mo)) eqn:E; [| lra].
    apply mem_route_In in E.
    now destruct (feasible_domains_t cfg mo a Hg Hf p q c E Hc).
  - intros s Hs. cbn [restrict Sympy.z]. apply Z.leb_le. rewrite ES in Hs.
    destruct (feasible_degrees mo a Hf s Hs) as (_ & _ & _ & _ & [Z | Z]); lia.
Qed.

Lemma restrict_connect_inbounds (i : string) :
  In i (Pyomo.setI mo) ->
  (sum (map (fun q => inject_Z (Sympy.e (restrict mo a) i q)) (Sympy.setQ cfg))
   == 1)%Q.
Proof.
  intros Hi. cbn [restrict Sympy.e].
  pose proof (feasible_connect_inbounds mo a Hf i Hi) as K. rewrite <- K.
  rewrite <- (row_sum cfg mo Hg (fun p q => inject_Z (Pyomo.e a p q)) i
                (I_in_P cfg mo Hg i Hi)).
  apply sum_map_ext. intros q _. now rewrite inject_if.
Qed.

Lemma restrict_connect_outbounds (j : string) :
  In j (Pyomo.setJ mo) ->
  (sum (map (fun p => inject_Z (Sympy.e (restrict mo a) p j)) (Sympy.setP cfg))
   == 1)%Q.
Proof.
  intros Hj. cbn [restrict Sympy.e].
  pose proof (feasible_connect_outbounds mo a Hf j Hj) as K. rewrite <- K.
  rewrite <- (column_sum cfg mo Hg (fun p q => inject_Z (Pyomo.e a p q)) j
                (J_in_Q cfg mo Hg j Hj)).
  apply sum_map_ext. intros p _. now rewrite inject_if.
Qed.

Lemma restrict_consume (i c : string) :
  In i (Pyomo.setI mo) -> In c (Pyomo.setC mo) ->
  holds (Sympy.eq_number
           (sum (map (fun q => Sympy.t (restrict mo a) i q c) (Sympy.setQ cfg)))
           (sympy_f_value cfg (i, c))) = true.
Proof.
  intros Hi Hc. cbn [restrict Sympy.t].
  destruct (exact_traffic_inv cfg Hx)
    as (ti & to & si & so & Hd & Esi & _ & Eti & _).
  destruct (generated_f_value cfg mo ti (Finite to) i c Hg Hd Hi Hc)
    as (ki & kc & Gi & Gc & Hp).
  destruct (feasible_consume cfg mo a Hg Hf i c Hi Hc) as (fic & Hfic & Hsum).
  rewrite Hp in Hfic. injection Hfic as <-.
  unfold sympy_f_value. cbn [fst snd]. rewrite Gi, Gc. unfold Ok. rewrite Esi.
  pose proof (row_sum cfg mo Hg (fun p q => Pyomo.t a p q c) i
                (I_in_P cfg mo Hg i Hi)) as Hrow. cbv beta in Hrow.
  destruct (ki =? kc)%Z; cbn [Sympy.eq_number]; apply holds_CEq;
    rewrite Hrow, Hsum; [exact Eti | reflexivity].
Qed.

Lemma restrict_produce (j c : string) :
  In j (Pyomo.setJ mo) -> In c (Pyomo.setC mo) ->
  holds (Sympy.eq_number
           (sum (map (fun p => Sympy.t (restrict mo a) p j c) (Sympy.setP cfg)))
           (Sympy.t_out cfg)) = true.
Proof.
  intros Hj Hc. cbn [restrict Sympy.t].
  destruct (exact_traffic_inv cfg Hx)
    as (ti & to & si & so & Hd & _ & Eso & _ & Eto).
  pose proof (generated_g_value cfg mo (Finite ti) to j c Hg Hd Hj Hc) as Hp.
  destruct (feasible_produce cfg mo a Hg Hf j c Hj Hc) as (gjc & Hgjc & Hsum).
  rewrite Hp in Hgjc. injection Hgjc as <-.
  rewrite Eso. cbn [Sympy.eq_number]. apply holds_CEq.
  pose proof (column_sum cfg mo Hg (fun p q => Pyomo.t a p q c) j
                (J_in_Q cfg mo Hg j Hj)) as Hcol. cbv beta in Hcol.
  rewrite Hcol, Hsum. exact Eto.
Qed.

Lemma restrict_split (s q c : string) :
  In s (Pyomo.setS mo) -> In c (Pyomo.setC mo) ->
  (Sympy.t (restrict mo a) s q c
   == inject_Z (Sympy.e (restrict mo a) s q) * Sympy.x cfg (restrict mo a) s c
      / (1 + inject_Z (Sympy.z (restrict mo a) s)))%Q.
Proof.
  intros Hs Hc. rewrite (restrict_x cfg mo a Hg Hf s c Hs Hc).
  cbn [restrict Sympy.t Sympy.e Sympy.z].
  destruct (mem_route (s, q) (Pyomo.setB mo)) eqn:E.
  - apply mem_route_In in E. apply (split_relation cfg mo a s q c Hg Hf);
      [| assumption].
    apply (generated_W cfg mo Hg). now split.
  - destruct (feasible_degrees mo a Hf s Hs) as (_ & _ & _ & _ & [Z | Z]);
      rewrite Z; inject_consts; field.
Qed.

End RefinementSystem.

(** X15. Where the float quotients of [pyomo_model_1.py] are the exact
    rationals of [sympy_system.py], the linearized, filtered model is a
    restriction of the symbolic system: every feasible assignment of the
    model generated by [pyomo_model_1.py], extended by zero on the bypasses
    and self-loops, satisfies the whole system of [sympy_system.py] built
    from the same counts, its nonlinear even-split equations included. *)
Theorem pyomo_solution_solves_sympy_system
  (cfg : config) (mo : Pyomo.model) (prm : Sympy.parameters)
  (a : Pyomo.assignment) :
  Pyomo.generate cfg = Ok mo ->
  Sympy.build_parameters cfg = Ok prm ->
  exact_traffic cfg = true ->
  Pyomo.feasible mo a = true ->
  Sympy.satisfies cfg prm (restrict mo a) = true.
Proof.
  intros Hg Hb Hexact Hf.
  destruct (sympy_sets_of_model cfg mo Hg) as (EI & EJ & ES & EC & EP & EQ).
  destruct (build_parameters_inv cfg prm Hb) as (Ef & Eg).
  unfold Sympy.satisfies.
  rewrite (restrict_assumptions cfg mo a Hg Hf). cbn [andb].
  unfold Sympy.system.
  rewrite (mapM_pure _
             (fun ic => Sympy.eq_number
                          (sum (map (fun q => Sympy.t (restrict mo a) (fst ic) q (snd ic))
                                  (Sympy.setQ cfg)))
                          (sympy_f_value cfg ic))).
  2:{ intros ic Hic. rewrite Ef, dict_get_map by assumption. reflexivity. }
  cbn [bind Ok].
  rewrite (mapM_pure _
             (fun jc => Sympy.eq_number
                          (sum (map (fun p => Sympy.t (restrict mo a) p (fst jc) (snd jc))
                                  (Sympy.setP cfg)))
                          (Sympy.t_out cfg))).
  2:{ intros jc Hjc. rewrite Eg, (dict_get_map (fun _ => Sympy.t_out cfg))
        by assumption. reflexivity. }
  cbn [bind Ok]. unfold Ok. rewrite !forallb_app, !andb_true_iff.
  repeat split; apply forallb_map_holds.
  - (* e <= 1 *)
    intros [p q] _. cbn [fst snd restrict Sympy.e]. apply holds_CLe.
    change 1%Q with (inject_Z 1). rewrite <- Zle_Qle.
    destruct (mem_route (p, q) (Pyomo.setB mo)) eqn:E; [| lia].
    apply mem_route_In in E. destruct (feasible_binary_e mo a Hf p q E); lia.
  - (* t <= 1 *)
    intros [[p q] c] H. cbn [fst snd restrict Sympy.t]. apply holds_CLe.
    unfold Sympy.setBxC in H. apply in_prod_iff in H. destruct H as [_ Hc].
    rewrite EC in Hc.
    destruct (mem_route (p, q) (Pyomo.setB mo)) eqn:E; [| lra].
    apply mem_route_In in E.
    now destruct (feasible_domains_t cfg mo a Hg Hf p q c E Hc).
  - (* v <= 1 *)
    intros [p q] _. cbn [fst snd]. apply holds_CLe.
    rewrite (restrict_v cfg mo a Hg Hf p q).
    destruct (mem_route (p, q) (Pyomo.setB mo)) eqn:E; [| lra].
    apply mem_route_In in E. now destruct (feasible_domains_v mo a Hf p q E).
  - (* z <= 1 *)
    intros s Hs. cbn [restrict Sympy.z]. apply holds_CLe. rewrite ES in Hs.
    change 1%Q with (inject_Z 1). rewrite <- Zle_Qle.
    destruct (feasible_degrees mo a Hf s Hs) as (_ & _ & _ & _ & [Z | Z]); lia.
  - (* inbound belts connected once *)
    intros i Hi. apply holds_CEq. rewrite EI in Hi.
    exact (restrict_connect_inbounds cfg mo a Hg Hf i Hi).
  - (* outbound belts connected once *)
    intros j Hj. apply holds_CEq. rewrite EJ in Hj.
    exact (restrict_connect_outbounds cfg mo a Hg Hf j Hj).
  - (* inbound traffic *)
    intros [i c] H. cbn [fst snd]. unfold Sympy.setIxC in H.
    apply in_prod_iff in H. destruct H as [Hi Hc]. rewrite EI in Hi. rewrite EC in Hc.
    exact (restrict_consume cfg mo a Hg Hexact Hf i c Hi Hc).
  - (* outbound traffic *)
    intros [j c] H. cbn [fst snd]. unfold Sympy.setJxC in H.
    apply in_prod_iff in H. destruct H as [Hj Hc]. rewrite EJ in Hj. rewrite EC in Hc.
    exact (restrict_produce cfg mo a Hg Hexact Hf j c Hj Hc).
  - (* v <= e *)
    intros [p q] _. cbn [fst snd]. apply holds_CLe.
    rewrite (restrict_v cfg mo a Hg Hf p q). cbn [restrict Sympy.e].
    destruct (mem_route (p, q) (Pyomo.setB mo)) eqn:E; [| inject_consts; lra].
    apply mem_route_In in E.
    assert (Kc : holds (Pyomo.respect_capacity_rule mo a p q) = true).
    { apply (feasible_plain mo a Hf). do 13 right. left. now apply in_over2. }
    now apply holds_CLe in Kc.
  - (* x = y *)
    intros [s c] H. cbn [fst snd]. apply holds_CEq. unfold Sympy.setSxC in H.
    apply in_prod_iff in H. destruct H as [Hs Hc]. rewrite ES in Hs. rewrite EC in Hc.
    rewrite (restrict_x cfg mo a Hg Hf s c Hs Hc), (restrict_y cfg mo a Hg Hf s c Hs Hc).
    destruct (feasible_domains_x cfg mo a s c Hg Hf Hs Hc) as [_ _].
    pose proof (feasible_outflow cfg mo a s c Hg Hf Hs Hc) as Hx.
    destruct (generate_inv cfg mo Hg) as (ti & to & Hinv).
    assert (HSxC : Pyomo.setSxC mo = list_prod (Pyomo.setS mo) (Pyomo.setC mo))
      by tauto.
    assert (Kc : holds (Pyomo.splitters_conserve_rule mo a s c) = true).
    { apply (feasible_plain mo a Hf). do 14 right. left.
      apply in_over2. rewrite HSxC. now apply in_prod. }
    now apply holds_CEq in Kc.
  - (* n >= z *)
    intros s Hs. apply holds_CGe. rewrite ES in Hs.
    rewrite (restrict_n cfg mo a Hg Hf s Hs). cbn [restrict Sympy.z].
    rewrite <- Zle_Qle. destruct (feasible_degrees mo a Hf s Hs). lia.
  - (* n <= 2 *)
    intros s Hs. apply holds_CLe. rewrite ES in Hs.
    rewrite (restrict_n cfg mo a Hg Hf s Hs).
    change 2%Q with (inject_Z 2). rewrite <- Zle_Qle.
    destruct (feasible_degrees mo a Hf s Hs). lia.
  - (* m >= 2 z *)
    intros s Hs. apply holds_CGe. rewrite ES in Hs.
    rewrite (restrict_m cfg mo a Hg Hf s Hs). cbn [restrict Sympy.z].
    change 2%Q with (inject_Z 2). rewrite <- inject_Z_mult, <- Zle_Qle.
    destruct (feasible_degrees mo a Hf s Hs) as (_ & ? & _). lia.
  - (* m <= 1 + z *)
    intros s Hs. apply holds_CLe. rewrite ES in Hs.
    rewrite (restrict_m cfg mo a Hg Hf s Hs). cbn [restrict Sympy.z].
    change 1%Q with (inject_Z 1). rewrite <- inject_Z_plus, <- Zle_Qle.
    destruct (feasible_degrees mo a Hf s Hs) as (_ & ? & _). lia.
  - (* even split *)
    intros [[s q] c] H. cbn [fst snd]. apply holds_CEq.
    unfold Sympy.setSxQxC in H. apply filter_In in H. destruct H as [H _].
    apply in_prod_iff in H. destruct H as [H Hc].
    apply in_prod_iff in H. destruct H as [Hs _].
    rewrite ES in Hs. rewrite EC in Hc.
    exact (restrict_split cfg mo a Hg Hf s q c Hs Hc).
Qed.

Lemma pyomo_solution_solves_sympy_system_witness :
  Sympy.satisfies cfg_1_1_2 (Sympy.Parameters [("i1", "c1", Some 1%Q)]
                               [("j1", "c1", Some 1%Q)] 1 2)
    (restrict model_1_1_2 chain_assignment) = true.
Proof.
  apply (pyomo_solution_solves_sympy_system cfg_1_1_2 model_1_1_2).
  - vm_compute. reflexivity.
  - vm_compute. reflexivity.
  - vm_compute. reflexivity.
  - vm_compute. reflexivity.
Defined.

(** The condition on the quotients is needed: with three inbound belts, one
    outbound belt and two splitters, [t_in] and [t_out] are both the float
    nearest to one third.  The network that merges the three belts with
    every cargo at this value is feasible for the model, and its restriction
    does not solve the system, which asks for one third. *)
Example rounded_third_is_feasible_only :
  exists mo prm,
    Pyomo.generate (Config 3 1 2) = Ok mo /\
    Sympy.build_parameters (Config 3 1 2) = Ok prm /\
    Pyomo.derived (Config 3 1 2) = Ok (Finite float_third, Finite float_third) /\
    exact_traffic (Config 3 1 2) = false /\
    Pyomo.feasible mo (lift (Config 3 1 2) merge_network) = true /\
    Sympy.satisfies (Config 3 1 2) prm
      (restrict mo (lift (Config 3 1 2) merge_network)) = false.
Proof.
  eexists. eexists. split; [vm_compute; reflexivity |].
  split; [vm_compute; reflexivity |].
  split; [vm_compute; reflexivity |].
  split; [vm_compute; reflexivity |].
  split; vm_compute; reflexivity.
Qed.

(** ** A lower bound on the objective *)

Lemma sum_map_add {A : Type} (h1 h2 : A -> Q) (l : list A) :
  (sum (map (fun k => h1 k + h2 k) l) == sum (map h1 l) + sum (map h2 l))%Q.
Proof.
  induction l as [| k l IH]; cbn [map].
  - rewrite !sum_nil. ring.
  - rewrite !sum_cons, IH. ring.
Qed.

Lemma sum_swap {A B : Type} (h : A -> B -> Q) (la : list A) (lb : list B) :
  (sum (map (fun x => sum (map (fun y => h x y) lb)) la)
   == sum (map (fun y => sum (map (fun x => h x y) la)) lb))%Q.
Proof.
  induction la as [| x la IH]; cbn [map].
  - rewrite sum_nil. rewrite (sum_const 0 lb). ring.
  - rewrite sum_cons, IH.
    rewrite <- sum_map_add. apply sum_map_ext. intros y _.
    now rewrite sum_cons.
Qed.

Lemma sum_single (K : list string) (k : string) (v : Q) :
  NoDup K ->
  (sum (map (fun k' => if k =? k' then v else 0) K)
   == if mem_str k K then v else 0)%Q.
Proof.
  intros Hnd. induction Hnd as [| k0 K Hk0 Hnd IH]; [reflexivity |].
  cbn [map]. rewrite sum_cons, IH. unfold mem_str. cbn [existsb].
  destruct (String.eqb_spec k k0) as [-> | Hne]; cbn [orb].
  - fold (mem_str k0 K). destruct (mem_str k0 K) eqn:E; [| ring].
    apply mem_str_In in E. contradiction.
  - fold (mem_str k K). destruct (mem_str k K); ring.
Qed.

(** Grouping the members of a list by a key: the groups of the keys of [K]
    together hold each member whose key is in [K] once. *)
Lemma sum_groups {A : Type} (key : A -> string) (h : A -> Q)
  (K : list string) (l : list A) :
  NoDup K ->
  (sum (map (fun k => sum (map h (filter (fun r => key r =? k) l))) K)
   == sum (map (fun r => if mem_str (key r) K then h r else 0) l))%Q.
Proof.
  intros Hnd. induction l as [| r l IH].
  - cbn [filter map]. rewrite sum_nil. rewrite (sum_const 0 K).
    change (sum []) with 0%Q. ring.
  - cbn [map]. rewrite sum_cons, <- IH, <- (sum_single K (key r) (h r) Hnd).
    rewrite <- sum_map_add. apply sum_map_ext. intros k _.
    cbn [filter]. destruct (key r =? k); cbn [map].
    + now rewrite sum_cons.
    + ring.
Qed.

Section ObjectiveBound.

Variable cfg : config.
Variable mo : Pyomo.model.
Variable a : Pyomo.assignment.
Hypothesis Hg : Pyomo.generate cfg = Ok mo.
Hypothesis Hf : Pyomo.feasible mo a = true.
Hypothesis HI : (0 < inbounds cfg)%Z.
Hypothesis HJ : (0 < outbounds cfg)%Z.
Variable ti to : Q.
Hypothesis Hd : Pyomo.derived cfg = Ok (Finite ti, Finite to).

Lemma route_volume (p q : string) :
  In (p, q) (Pyomo.setB mo) ->
  (Pyomo.v a p q == sum (map (fun c => Pyomo.t a p q c) (Pyomo.setC mo)))%Q.
Proof.
  intros Hb.
  assert (K : holds (Pyomo.define_volume_rule mo a p q) = true).
  { apply (feasible_plain mo a Hf). left. now apply in_over2. }
  now apply holds_CEq in K.
Qed.

(** The value of [f[i, c]] summed over the cargos. *)
Lemma own_cargo_sum (G : string -> Q) (ki : Z) (w : Q) :
  (1 <= ki <= inbounds cfg)%Z ->
  (forall kc, (1 <= kc <= inbounds cfg)%Z ->
              (G ("c" ++ str kc) == if (ki =? kc)%Z then w else 0)%Q) ->
  (sum (map G (Pyomo.init_set "c" (inbounds cfg))) == w)%Q.
Proof.
  intros Hki HG. unfold Pyomo.init_set, range. rewrite !map_map.
  rewrite (sum_map_ext _ (fun i => if (Z.of_nat i + 1 =? ki)%Z then w else 0%Q)).
  - rewrite sum_indicator.
    replace ((Z.of_nat 0 + 1 <=? ki)
             && (ki <=? Z.of_nat 0 + Z.of_nat (Z.to_nat (inbounds cfg))))%Z
      with true by (symmetry; apply andb_true_iff; rewrite !Z.leb_le; lia).
    reflexivity.
  - intros i Hi. apply in_seq in Hi. rewrite HG by lia.
    now rewrite Z.eqb_sym.
Qed.

(** The volume that leaves an inbound belt. *)
Lemma inbound_volume (i : string) :
  In i (Pyomo.setI mo) ->
  (sum (map (fun r => Pyomo.v a (fst r) (snd r)) (Pyomo.routes_from mo i))
   == ti)%Q.
Proof.
  intros Hi.
  destruct (generate_inv cfg mo Hg) as (ti' & to' & _ & EI & _ & _ & EC & _).
  rewrite (sum_map_ext _ (fun r => sum (map (fun c => Pyomo.t a (fst r) (snd r) c)
                                          (Pyomo.setC mo)))).
  2:{ intros [p q] Hr. cbn [fst snd]. apply route_volume.
      now apply filter_In in Hr. }
  rewrite (sum_swap (fun r c => Pyomo.t a (fst r) (snd r) c)).
  pose proof Hi as Hi'. rewrite EI in Hi'.
  apply in_init_set in Hi'. destruct Hi' as (ki & Hki & Ei).
  rewrite EC. unfold Pyomo.cargos.
  apply (own_cargo_sum _ ki ti Hki).
  intros kc Hkc.
  assert (Hc : In ("c" ++ str kc) (Pyomo.setC mo)).
  { rewrite EC. apply in_init_set. exists kc. split; [assumption | reflexivity]. }
  destruct (generated_f_value cfg mo ti (Finite to) i _ Hg Hd Hi Hc)
    as (ki' & kc' & Gi & Gc & Hp).
  rewrite Ei, (get_int_member _ _ letter_i) in Gi by lia.
  rewrite (get_int_member _ _ letter_c) in Gc by lia.
  injection Gi as <-. injection Gc as <-.
  destruct (feasible_consume cfg mo a Hg Hf i _ Hi Hc) as (fic & Hfic & Hsum).
  rewrite Hp in Hfic. injection Hfic as <-. exact Hsum.
Qed.

(** The volume that reaches an outbound belt. *)
Lemma outbound_volume (j : string) :
  In j (Pyomo.setJ mo) ->
  (sum (map (fun r => Pyomo.v a (fst r) (snd r)) (Pyomo.routes_into mo j))
   == inject_Z (Pyomo.cargos cfg) * to)%Q.
Proof.
  intros Hj.
  destruct (generate_inv cfg mo Hg) as (ti' & to' & _ & _ & _ & _ & EC & _).
  rewrite (sum_map_ext _ (fun r => sum (map (fun c => Pyomo.t a (fst r) (snd r) c)
                                          (Pyomo.setC mo)))).
  2:{ intros [p q] Hr. cbn [fst snd]. apply route_volume.
      now apply filter_In in Hr. }
  rewrite (sum_swap (fun r c => Pyomo.t a (fst r) (snd r) c)).
  rewrite (sum_map_ext _ (fun _ => to)).
  2:{ intros c Hc.
      pose proof (generated_g_value cfg mo (Finite ti) to j c Hg Hd Hj Hc) as Hp.
      destruct (feasible_produce cfg mo a Hg Hf j c Hj Hc) as (gjc & Hgjc & Hsum).
      rewrite Hp in Hgjc. injection Hgjc as <-. exact Hsum. }
  rewrite sum_const, EC, length_init_set. unfold Pyomo.cargos.
  rewrite Z2Nat.id by lia. ring.
Qed.

Lemma objective_bound :
  (inject_Z (inbounds cfg) * ti
   + inject_Z (outbounds cfg) * (inject_Z (Pyomo.cargos cfg) * to)
   <= Pyomo.simultaneous_volume_rule mo a)%Q.
Proof.
  destruct (generate_inv cfg mo Hg) as (ti' & to' & _ & EI & EJ & _).
  destruct (generated_NoDup_basic cfg mo Hg) as (NI & NJ & _ & _).
  set (h := fun r : string * string => Pyomo.v a (fst r) (snd r)).
  assert (Hin : (sum (map (fun i => sum (map h (Pyomo.routes_from mo i)))
                        (Pyomo.setI mo))
                 == inject_Z (inbounds cfg) * ti)%Q).
  { rewrite (sum_map_ext _ (fun _ => ti))
      by (intros i Hi; now apply inbound_volume).
    rewrite sum_const, EI, length_init_set, Z2Nat.id by lia. ring. }
  assert (Hout : (sum (map (fun j => sum (map h (Pyomo.routes_into mo j)))
                         (Pyomo.setJ mo))
                  == inject_Z (outbounds cfg) * (inject_Z (Pyomo.cargos cfg) * to))%Q).
  { rewrite (sum_map_ext _ (fun _ => inject_Z (Pyomo.cargos cfg) * to)%Q)
      by (intros j Hj; now apply outbound_volume).
    rewrite sum_const, EJ, length_init_set, Z2Nat.id by lia. ring. }
  unfold Pyomo.routes_from in Hin. unfold Pyomo.routes_into in Hout.
  rewrite (sum_groups fst h _ _ NI) in Hin.
  rewrite (sum_groups snd h _ _ NJ) in Hout.
  unfold Pyomo.simultaneous_volume_rule. fold h.
  assert (Hle : (sum (map (fun r => (if mem_str (fst r) (Pyomo.setI mo) then h r else 0)
                                    + (if mem_str (snd r) (Pyomo.setJ mo) then h r else 0))
                        (Pyomo.setB mo))
                 <= sum (map h (Pyomo.setB mo)))%Q).
  { apply sum_map_le. intros [p q] Hb. cbn [fst snd].
    destruct (feasible_domains_v mo a Hf p q Hb) as [Hv _]. unfold h. cbn [fst snd].
    destruct (mem_str p (Pyomo.setI mo)) eqn:Ei;
      destruct (mem_str q (Pyomo.setJ mo)) eqn:Ej; try lra.
    exfalso. apply mem_str_In in Ei, Ej.
    destruct (generated_B_sub cfg mo p q Hg Hb) as [Hp Hq].
    apply (generated_B cfg mo p q Hg Hp Hq) in Hb. destruct Hb as [Hb _].
    apply Hb. now split. }
  rewrite sum_map_add in Hle. lra.
Qed.

End ObjectiveBound.

(** X16. The objective of a feasible assignment is at least what leaves the
    inbound belts plus what reaches the outbound belts, which travel on
    different routes since no route joins an inbound belt to an outbound
    belt: [len(I) * t_in + len(J) * len(C) * t_out], with the floats [t_in]
    and [t_out] of the script.  Where the two floats are the exact
    quotients, this is twice the throughput, [2 * min(len(I), len(J))]. *)
Theorem objective_lower_bound
  (cfg : config) (mo : Pyomo.model) (a : Pyomo.assignment) :
  Pyomo.generate cfg = Ok mo ->
  Pyomo.feasible mo a = true ->
  (0 < inbounds cfg)%Z -> (0 < outbounds cfg)%Z ->
  exists ti to,
    Pyomo.derived cfg = Ok (Finite ti, Finite to) /\
    (inject_Z (inbounds cfg) * ti
     + inject_Z (outbounds cfg) * (inject_Z (Pyomo.cargos cfg) * to)
     <= Pyomo.simultaneous_volume_rule mo a)%Q /\
    ((ti == exact_t_in cfg)%Q -> (to == exact_t_out cfg)%Q ->
     (2 * inject_Z (Z.min (inbounds cfg) (outbounds cfg))
      <= Pyomo.simultaneous_volume_rule mo a)%Q).
Proof.
  intros Hg Hf HI HJ.
  destruct (generated_traffic cfg mo Hg) as (ti & to & Hd & _ & Hti).
  destruct Hti as (r & -> & _).
  { destruct (generated_sizes cfg mo Hg) as (E & _). intros N.
    rewrite N in E. cbn [length] in E. lia. }
  exists r, to. split; [exact Hd |].
  pose proof (objective_bound cfg mo a Hg Hf HI HJ r to Hd) as Hb.
  split; [exact Hb |].
  intros Ei Eo. rewrite Ei, Eo in Hb.
  unfold exact_t_in, exact_t_out, Pyomo.cargos in Hb.
  fold (Pyomo.throughput cfg).
  pose proof (throughput_bounds cfg HI HJ) as T.
  assert (E1 : (inject_Z (inbounds cfg)
                * (inject_Z (Pyomo.throughput cfg) / inject_Z (inbounds cfg))
                == inject_Z (Pyomo.throughput cfg))%Q) by (field; lra).
  assert (E2 : (inject_Z (outbounds cfg)
                * (inject_Z (inbounds cfg)
                   * (inject_Z (Pyomo.throughput cfg) / inject_Z (outbounds cfg)
                      / inject_Z (inbounds cfg)))
                == inject_Z (Pyomo.throughput cfg))%Q) by (field; lra).
  rewrite E1, E2 in Hb. lra.
Qed.

Lemma objective_lower_bound_witness :
  exists ti to,
    Pyomo.derived cfg_1_1_2 = Ok (Finite ti, Finite to) /\
    (inject_Z (inbounds cfg_1_1_2) * ti
     + inject_Z (outbounds cfg_1_1_2) * (inject_Z (Pyomo.cargos cfg_1_1_2) * to)
     <= Pyomo.simultaneous_volume_rule model_1_1_2 chain_assignment)%Q /\
    ((ti == exact_t_in cfg_1_1_2)%Q -> (to == exact_t_out cfg_1_1_2)%Q ->
     (2 * inject_Z (Z.min (inbounds cfg_1_1_2) (outbounds cfg_1_1_2))
      <= Pyomo.simultaneous_volume_rule model_1_1_2 chain_assignment)%Q).
Proof.
  apply (objective_lower_bound cfg_1_1_2 model_1_1_2 chain_assignment).
  - vm_compute. reflexivity.
  - vm_compute. reflexivity.
  - cbn. lia.
  - cbn. lia.
Defined.

(** ** Names that are not members *)

Lemma lstrip_all (chars s : string) : all_in chars s -> lstrip chars s = "".
Proof.
  induction s as [| c s IH]; intros H; [reflexivity |].
  cbn [lstrip]. rewrite (H c) by now left.
  apply IH. intros b Hb. apply H. now right.
Qed.

Lemma letter_not_digit (a : ascii) :
  mem a ascii_letters = true -> mem a digits = false.
Proof.
  intros H. simpl in H.
  repeat (apply orb_true_iff in H; destruct H as [H | H];
          [apply Ascii.eqb_eq in H; subst a; reflexivity |]).
  discriminate.
Qed.

Lemma rstrip_letters_digits (w d : string) :
  all_in ascii_letters w -> all_in digits d -> rstrip digits (w ++ d) = w.
Proof.
  intros Hw Hd. induction w as [| c w IH]; cbn [append].
  - now apply rstrip_all.
  - cbn [rstrip]. rewrite IH by (intros b Hb; apply Hw; now right).
    rewrite (letter_not_digit c) by (apply Hw; now left).
    now destruct w.
Qed.

Lemma lstrip_letters_digits (w d : string) :
  all_in ascii_letters w -> all_in digits d ->
  lstrip ascii_letters (w ++ d) = d.
Proof.
  intros Hw Hd. induction w as [| c w IH]; cbn [append].
  - now apply lstrip_digits.
  - cbn [lstrip]. rewrite (Hw c) by now left.
    apply IH. intros b Hb. apply Hw. now right.
Qed.

(** X17. Names are decoded whatever the length of their prefix: for a
    prefix made of letters only (the empty one included) and a number
    [k >= 0], [get_letter] gives back the prefix and [get_int] the number;
    on a name without a number [get_int] raises [ValueError], the exception
    of [int('')]. *)
Theorem name_decoding (prefix : string) (k : Z) :
  all_in ascii_letters prefix -> (0 <= k)%Z ->
  Pyomo.get_letter (prefix ++ str k) = prefix /\
  Pyomo.get_int (prefix ++ str k) = Ok k /\
  Pyomo.get_int prefix = raise ValueError.
Proof.
  intros Hw Hk. pose proof (str_digits k Hk) as Hd. split; [| split].
  - unfold Pyomo.get_letter. now apply rstrip_letters_digits.
  - unfold Pyomo.get_int. rewrite lstrip_letters_digits by assumption.
    apply int_str.
  - unfold Pyomo.get_int. rewrite lstrip_all by assumption. reflexivity.
Qed.

Lemma name_decoding_witness :
  Pyomo.get_letter ("belt" ++ str 12) = "belt" /\
  Pyomo.get_int ("belt" ++ str 12) = Ok 12%Z /\
  Pyomo.get_int "belt" = raise ValueError.
Proof.
  apply (name_decoding "belt" 12).
  - intros c Hc. cbn in Hc.
    repeat (destruct Hc as [<- | Hc]; [reflexivity |]). contradiction.
  - lia.
Defined.

(** ** The index set of the even-split equations of [sympy_system.py] *)

Lemma triple_eqb_refl (k : string * string * string) : Sympy.triple_eqb k k = true.
Proof.
  unfold Sympy.triple_eqb. rewrite String.eqb_refl, andb_true_r.
  now apply route_eqb_eq.
Qed.

Lemma sympy_split_index_eq (cfg : config) :
  Sympy.setSxQxC cfg
  = list_prod (list_prod (Sympy.setS cfg) (Sympy.setQ cfg)) (Sympy.setC cfg).
Proof.
  unfold Sympy.setSxQxC. apply filter_all. intros [[s q] c] H.
  apply in_prod_iff in H. destruct H as [H Hc].
  apply in_prod_iff in H. destruct H as [Hs Hq].
  apply existsb_exists. exists (s, q, c). split; [| apply triple_eqb_refl].
  unfold Sympy.setBxC, Sympy.setB. apply in_prod; [| assumption].
  apply in_prod; [| assumption].
  unfold Sympy.setP. apply in_union. now right.
Qed.

(** X18. In [sympy_system.py] the intersection with [BxC] removes nothing
    from [S x Q x C]: the even-split equation is written for every splitter
    [s], every consumer [q] and every cargo, the self-loop [(s, s)]
    included. *)
Theorem sympy_split_index (cfg : config) :
  Sympy.setSxQxC cfg
  = list_prod (list_prod (Sympy.setS cfg) (Sympy.setQ cfg)) (Sympy.setC cfg) /\
  (forall s c, In s (Sympy.setS cfg) -> In c (Sympy.setC cfg) ->
               In (s, s, c) (Sympy.setSxQxC cfg)).
Proof.
  pose proof (sympy_split_index_eq cfg) as E.
  split; [assumption |]. intros s c Hs Hc. rewrite E.
  apply in_prod; [| assumption]. apply in_prod; [assumption |].
  unfold Sympy.setQ. apply in_union. now right.
Qed.

Lemma sympy_split_index_witness :
  In ("s1", "s1", "c1") (Sympy.setSxQxC (Config 1 3 3)).
Proof.
  apply (sympy_split_index (Config 1 3 3)); left; reflexivity.
Defined.

(** ** From the symbolic system to the Pyomo model *)

Lemma zsum_acc (l : list Z) (acc : Z) :
  fold_left Z.add l acc = (acc + fold_left Z.add l 0)%Z.
Proof.
  revert acc. induction l as [| k l IH]; intros acc; cbn [fold_left]; [lia |].
  rewrite IH, (IH (0 + k)%Z). lia.
Qed.

Lemma zsum_cons (k : Z) (l : list Z) : zsum (k :: l) = (k + zsum l)%Z.
Proof. unfold zsum. cbn [fold_left]. rewrite zsum_acc. lia. Qed.

Lemma inject_zsum {A : Type} (h : A -> Z) (l : list A) :
  (inject_Z (zsum (map h l)) == sum (map (fun k => inject_Z (h k)) l))%Q.
Proof.
  induction l as [| k l IH]; [reflexivity |].
  cbn [map]. rewrite zsum_cons, sum_cons, inject_Z_plus, IH. reflexivity.
Qed.

Lemma zsum_nonneg {A : Type} (h : A -> Z) (l : list A) :
  (forall k, In k l -> 0 <= h k)%Z -> (0 <= zsum (map h l))%Z.
Proof.
  induction l as [| k l IH]; intros H; [reflexivity |].
  cbn [map]. rewrite zsum_cons.
  assert (0 <= h k)%Z by (apply H; now left).
  assert (0 <= zsum (map h l))%Z by (apply IH; intros k' Hk'; apply H; now right).
  lia.
Qed.

(** What an assignment that satisfies the symbolic system satisfies, family
    by family. *)
Lemma sympy_system_inv (cfg : config) (prm : Sympy.parameters)
  (sa : Sympy.assignment) :
  Sympy.build_parameters cfg = Ok prm ->
  Sympy.satisfies cfg prm sa = true ->
  (forall p q, In p (Sympy.setP cfg) -> In q (Sympy.setQ cfg) ->
     (0 <= Sympy.e sa p q <= 1)%Z /\
     (Sympy.v cfg sa p q <= 1 /\ Sympy.v cfg sa p q <= inject_Z (Sympy.e sa p q))%Q /\
     forall c, In c (Sympy.setC cfg) -> (0 <= Sympy.t sa p q c <= 1)%Q) /\
  (forall s, In s (Sympy.setS cfg) ->
     (0 <= Sympy.z sa s <= 1)%Z /\
     (inject_Z (Sympy.z sa s) <= Sympy.n cfg sa s /\ Sympy.n cfg sa s <= 2 /\
      2 * inject_Z (Sympy.z sa s) <= Sympy.m cfg sa s /\
      Sympy.m cfg sa s <= 1 + inject_Z (Sympy.z sa s))%Q /\
     forall c, In c (Sympy.setC cfg) ->
       (Sympy.x cfg sa s c == Sympy.y cfg sa s c)%Q /\
       forall q, In q (Sympy.setQ cfg) ->
         (Sympy.t sa s q c
          == inject_Z (Sympy.e sa s q) * Sympy.x cfg sa s c
             / (1 + inject_Z (Sympy.z sa s)))%Q) /\
  (forall i, In i (Sympy.setI cfg) ->
     (sum (map (fun q => inject_Z (Sympy.e sa i q)) (Sympy.setQ cfg)) == 1)%Q /\
     forall c, In c (Sympy.setC cfg) ->
       holds (Sympy.eq_number
                (sum (map (fun q => Sympy.t sa i q c) (Sympy.setQ cfg)))
                (sympy_f_value cfg (i, c))) = true) /\
  (forall j, In j (Sympy.setJ cfg) ->
     (sum (map (fun p => inject_Z (Sympy.e sa p j)) (Sympy.setP cfg)) == 1)%Q /\
     forall c, In c (Sympy.setC cfg) ->
       holds (Sympy.eq_number
                (sum (map (fun p => Sympy.t sa p j c) (Sympy.setP cfg)))
                (Sympy.t_out cfg)) = true).
Proof.
  intros Hb H.
  destruct (build_parameters_inv cfg prm Hb) as (Ef & Eg).
  unfold Sympy.satisfies in H. apply andb_true_iff in H. destruct H as [Ha H].
  unfold Sympy.assumptions in Ha. rewrite !andb_true_iff in Ha.
  destruct Ha as ((Ae & At) & Az). rewrite forallb_forall in Ae, At, Az.
  unfold Sympy.system in H.
  rewrite (mapM_pure _
             (fun ic => Sympy.eq_number
                          (sum (map (fun q => Sympy.t sa (fst ic) q (snd ic))
                                  (Sympy.setQ cfg)))
                          (sympy_f_value cfg ic))) in H.
  2:{ intros ic Hic. rewrite Ef, dict_get_map by assumption. reflexivity. }
  cbn [bind Ok] in H.
  rewrite (mapM_pure _
             (fun jc => Sympy.eq_number
                          (sum (map (fun p => Sympy.t sa p (fst jc) (snd jc))
                                  (Sympy.setP cfg)))
                          (Sympy.t_out cfg))) in H.
  2:{ intros jc Hjc. rewrite Eg, (dict_get_map (fun _ => Sympy.t_out cfg))
        by assumption. reflexivity. }
  cbn [bind Ok] in H. unfold Ok in H. rewrite !forallb_app, !andb_true_iff in H.
  destruct H as (F1 & F2 & F3 & F4 & F5 & F6 & F7 & F8 & F9 & F10 & F11 & F12
                 & F13 & F14 & F15).
  rewrite forallb_forall in F1, F2, F3, F4, F5, F6, F7, F8, F9, F10, F11, F12,
    F13, F14, F15.
  assert (InB : forall p q, In p (Sympy.setP cfg) -> In q (Sympy.setQ cfg) ->
                  In (p, q) (Sympy.setB cfg))
    by (intros p q Hp Hq; now apply in_prod).
  split; [| split; [| split]].
  - intros p q Hp Hq. pose proof (InB p q Hp Hq) as HB. repeat split.
    + apply Z.leb_le. exact (Ae (p, q) HB).
    + rewrite Zle_Qle. apply holds_CLe.
      apply F1. exact (in_map (fun r => CLe (inject_Z (Sympy.e sa (fst r) (snd r))) 1)
                         _ (p, q) HB).
    + apply holds_CLe. apply F3.
      exact (in_map (fun r => CLe (Sympy.v cfg sa (fst r) (snd r)) 1) _ (p, q) HB).
    + apply holds_CLe. apply F9.
      exact (in_map (fun r => CLe (Sympy.v cfg sa (fst r) (snd r))
                                  (inject_Z (Sympy.e sa (fst r) (snd r))))
               _ (p, q) HB).
    + apply Qle_bool_iff. apply (At (p, q, c)). now apply in_prod.
    + apply holds_CLe. apply F2.
      apply (in_map (fun k => CLe (Sympy.t sa (fst (fst k)) (snd (fst k)) (snd k)) 1)
               _ (p, q, c)). now apply in_prod.
  - intros s Hs. repeat split.
    + apply Z.leb_le. exact (Az s Hs).
    + rewrite Zle_Qle. apply holds_CLe. apply F4.
      exact (in_map (fun s => CLe (inject_Z (Sympy.z sa s)) 1) _ s Hs).
    + apply holds_CGe. apply F11.
      exact (in_map (fun s => CGe (Sympy.n cfg sa s) (inject_Z (Sympy.z sa s))) _ s Hs).
    + apply holds_CLe. apply F12.
      exact (in_map (fun s => CLe (Sympy.n cfg sa s) 2) _ s Hs).
    + apply holds_CGe. apply F13.
      exact (in_map (fun s => CGe (Sympy.m cfg sa s) (2 * inject_Z (Sympy.z sa s)))
               _ s Hs).
    + apply holds_CLe. apply F14.
      exact (in_map (fun s => CLe (Sympy.m cfg sa s) (1 + inject_Z (Sympy.z sa s)))
               _ s Hs).
    + apply holds_CEq. apply F10.
      apply (in_map (fun k => CEq (Sympy.x cfg sa (fst k) (snd k))
                                  (Sympy.y cfg sa (fst k) (snd k))) _ (s, c)).
      now apply in_prod.
    + intros q Hq. apply holds_CEq. apply F15.
      apply (in_map (fun k =>
                CEq (Sympy.t sa (fst (fst k)) (snd (fst k)) (snd k))
                    (inject_Z (Sympy.e sa (fst (fst k)) (snd (fst k)))
                     * Sympy.x cfg sa (fst (fst k)) (snd k)
                     / (1 + inject_Z (Sympy.z sa (fst (fst k))))))
               _ (s, q, c)).
      rewrite (sympy_split_index_eq cfg).
      apply in_prod; [| assumption]. now apply in_prod.
  - intros i Hi. split.
    + apply holds_CEq. apply F5.
      exact (in_map (fun i => CEq (sum (map (fun q => inject_Z (Sympy.e sa i q))
                                          (Sympy.setQ cfg))) 1) _ i Hi).
    + intros c Hc. apply F7.
      apply (in_map (fun ic => Sympy.eq_number
                                 (sum (map (fun q => Sympy.t sa (fst ic) q (snd ic))
                                         (Sympy.setQ cfg)))
                                 (sympy_f_value cfg ic)) _ (i, c)).
      now apply in_prod.
  - intros j Hj. split.
    + apply holds_CEq. apply F6.
      exact (in_map (fun j => CEq (sum (map (fun p => inject_Z (Sympy.e sa p j))
                                          (Sympy.setP cfg))) 1) _ j Hj).
    + intros c Hc. apply F8.
      apply (in_map (fun jc => Sympy.eq_number
                                 (sum (map (fun p => Sympy.t sa p (fst jc) (snd jc))
                                         (Sympy.setP cfg)))
                                 (Sympy.t_out cfg)) _ (j, c)).
      now apply in_prod.
Qed.

Section Lifting.

Variable cfg : config.
Variable mo : Pyomo.model.
Variable prm : Sympy.parameters.
Variable sa : Sympy.assignment.
Hypothesis Hg : Pyomo.generate cfg = Ok mo.
Hypothesis Hb : Sympy.build_parameters cfg = Ok prm.
Hypothesis Hs : Sympy.satisfies cfg prm sa = true.
Hypothesis Hoff :
  forall p q, In p (Pyomo.setP mo) -> In q (Pyomo.setQ mo) ->
              ~ In (p, q) (Pyomo.setB mo) -> Sympy.e sa p q = 0%Z.

Lemma lifting_Q (q : string) :
  In q (Sympy.setQ cfg) <-> In q (Pyomo.setQ mo).
Proof.
  destruct (sympy_sets_of_model cfg mo Hg) as (_ & _ & _ & _ & _ & ->).
  rewrite (generated_Q cfg mo Hg), !in_app_iff. tauto.
Qed.

Lemma lifting_P (p : string) :
  In p (Sympy.setP cfg) <-> In p (Pyomo.setP mo).
Proof.
  destruct (sympy_sets_of_model cfg mo Hg) as (_ & _ & _ & _ & -> & _). tauto.
Qed.

Lemma lifting_route (p q : string) :
  In p (Pyomo.setP mo) -> In q (Pyomo.setQ mo) ->
  (0 <= Sympy.e sa p q <= 1)%Z /\
  (Sympy.v cfg sa p q <= 1 /\ Sympy.v cfg sa p q <= inject_Z (Sympy.e sa p q))%Q /\
  forall c, In c (Pyomo.setC mo) ->
    (0 <= Sympy.t sa p q c <= 1)%Q /\
    (Sympy.t sa p q c <= inject_Z (Sympy.e sa p q))%Q.
Proof.
  intros Hp Hq.
  destruct (sympy_system_inv cfg prm sa Hb Hs) as (R & _).
  destruct (sympy_sets_of_model cfg mo Hg) as (_ & _ & _ & EC & _).
  apply lifting_P in Hp. apply lifting_Q in Hq.
  destruct (R p q Hp Hq) as (He & Hv & Ht).
  split; [assumption |]. split; [assumption |].
  intros c Hc. rewrite <- EC in Hc. split; [now apply Ht |].
  assert (Hle : (Sympy.t sa p q c <= Sympy.v cfg sa p q)%Q).
  { unfold Sympy.v.
    apply (sum_map_term_le (fun c' => Sympy.t sa p q c')); [| assumption].
    intros c' Hc'. now apply Ht. }
  lra.
Qed.

Lemma lifting_t_off (p q c : string) :
  In p (Pyomo.setP mo) -> In q (Pyomo.setQ mo) -> In c (Pyomo.setC mo) ->
  mem_route (p, q) (Pyomo.setB mo) = false -> (Sympy.t sa p q c == 0)%Q.
Proof.
  intros Hp Hq Hc E.
  assert (He : Sympy.e sa p q = 0%Z).
  { apply Hoff; try assumption. intros H. apply mem_route_In in H. congruence. }
  destruct (lifting_route p q Hp Hq) as (_ & _ & Ht).
  destruct (Ht c Hc) as [[H0 _] Hle]. rewrite He in Hle. inject_consts. lra.
Qed.

Lemma lifting_row_e (p : string) :
  In p (Pyomo.setP mo) ->
  (sum (map (fun q => inject_Z (Sympy.e sa p q)) (Sympy.setQ cfg))
   == sum (map (fun r => inject_Z (Sympy.e sa (fst r) (snd r)))
           (Pyomo.routes_from mo p)))%Q.
Proof.
  intros Hp.
  rewrite <- (row_sum cfg mo Hg (fun p q => inject_Z (Sympy.e sa p q)) p Hp).
  apply sum_map_ext. intros q Hq. apply lifting_Q in Hq.
  destruct (mem_route (p, q) (Pyomo.setB mo)) eqn:E; [reflexivity |].
  rewrite (Hoff p q Hp Hq); [reflexivity |].
  intros H. apply mem_route_In in H. congruence.
Qed.

Lemma lifting_column_e (s : string) :
  In s (Pyomo.setQ mo) ->
  (sum (map (fun p => inject_Z (Sympy.e sa p s)) (Sympy.setP cfg))
   == sum (map (fun r => inject_Z (Sympy.e sa (fst r) (snd r)))
           (Pyomo.routes_into mo s)))%Q.
Proof.
  intros Hq.
  rewrite <- (column_sum cfg mo Hg (fun p q => inject_Z (Sympy.e sa p q)) s Hq).
  apply sum_map_ext. intros p Hp. apply lifting_P in Hp.
  destruct (mem_route (p, s) (Pyomo.setB mo)) eqn:E; [reflexivity |].
  rewrite (Hoff p s Hp Hq); [reflexivity |].
  intros H. apply mem_route_In in H. congruence.
Qed.

Lemma lifting_row_t (p c : string) :
  In p (Pyomo.setP mo) -> In c (Pyomo.setC mo) ->
  (sum (map (fun q => Sympy.t sa p q c) (Sympy.setQ cfg))
   == sum (map (fun r => Sympy.t sa (fst r) (snd r) c) (Pyomo.routes_from mo p)))%Q.
Proof.
  intros Hp Hc.
  rewrite <- (row_sum cfg mo Hg (fun p q => Sympy.t sa p q c) p Hp).
  apply sum_map_ext. intros q Hq. apply lifting_Q in Hq.
  destruct (mem_route (p, q) (Pyomo.setB mo)) eqn:E; [reflexivity |].
  now apply lifting_t_off.
Qed.

Lemma lifting_column_t (s c : string) :
  In s (Pyomo.setQ mo) -> In c (Pyomo.setC mo) ->
  (sum (map (fun p => Sympy.t sa p s c) (Sympy.setP cfg))
   == sum (map (fun r => Sympy.t sa (fst r) (snd r) c) (Pyomo.routes_into mo s)))%Q.
Proof.
  intros Hq Hc.
  rewrite <- (column_sum cfg mo Hg (fun p q => Sympy.t sa p q c) s Hq).
  apply sum_map_ext. intros p Hp. apply lifting_P in Hp.
  destruct (mem_route (p, s) (Pyomo.setB mo)) eqn:E; [reflexivity |].
  now apply lifting_t_off.
Qed.

(** The facts on one splitter. *)
Lemma lifting_splitter (s : string) :
  In s (Pyomo.setS mo) ->
  (Sympy.z sa s = 0 \/ Sympy.z sa s = 1)%Z /\
  (inject_Z (Sympy.z sa s) <= Sympy.n cfg sa s /\ Sympy.n cfg sa s <= 2 /\
   2 * inject_Z (Sympy.z sa s) <= Sympy.m cfg sa s /\
   Sympy.m cfg sa s <= 1 + inject_Z (Sympy.z sa s))%Q /\
  forall c, In c (Pyomo.setC mo) ->
    (0 <= Sympy.x cfg sa s c <= 2)%Q /\
    (Sympy.x cfg sa s c == Sympy.y cfg sa s c)%Q /\
    forall q, In q (Pyomo.setQ mo) ->
      (Sympy.t sa s q c
       == inject_Z (Sympy.e sa s q) * Sympy.x cfg sa s c
          / (1 + inject_Z (Sympy.z sa s)))%Q.
Proof.
  intros HS.
  destruct (sympy_system_inv cfg prm sa Hb Hs) as (_ & R & _).
  destruct (sympy_sets_of_model cfg mo Hg) as (_ & _ & ES & EC & _).
  rewrite <- ES in HS. destruct (R s HS) as (Hz & Hd & Hc).
  rewrite ES in HS.
  split; [lia |]. split; [assumption |].
  intros c HC. rewrite <- EC in HC. destruct (Hc c HC) as [Hxy Hsplit].
  rewrite EC in HC. split; [| split; [assumption |]].
  - unfold Sympy.x. split.
    + apply sum_map_nonneg. intros p Hp. apply lifting_P in Hp.
      destruct (lifting_route p s Hp (S_in_Q cfg mo Hg s HS)) as (_ & _ & Ht).
      now destruct (Ht c HC) as [[? _] _].
    + assert (Hle : (sum (map (fun p => Sympy.t sa p s c) (Sympy.setP cfg))
                     <= Sympy.n cfg sa s)%Q).
      { unfold Sympy.n. apply sum_map_le. intros p Hp. apply lifting_P in Hp.
        destruct (lifting_route p s Hp (S_in_Q cfg mo Hg s HS)) as (_ & _ & Ht).
        now destruct (Ht c HC). }
      lra.
  - intros q Hq. apply Hsplit. now apply lifting_Q.
Qed.

End Lifting.

Lemma sum_equals_relational {A : Type} (h : A -> Q) (l : list A) (number : Q) :
  l <> [] ->
  Pyomo.declare (Pyomo.sum_equals (map h l) number)
  = Ok (CEq (sum (map h l)) number).
Proof. destruct l as [| k l]; [contradiction | reflexivity]. Qed.

(** Where every inbound belt has a route out of it and every outbound belt a
    route into it, the constraints of a generated model are all declared: no
    rule returns a plain bool and no parameter read fails. *)
Lemma constraints_defined (cfg : config) (mo : Pyomo.model) (a : Pyomo.assignment) :
  Pyomo.generate cfg = Ok mo ->
  (forall i, In i (Pyomo.setI mo) -> Pyomo.routes_from mo i <> []) ->
  (forall j, In j (Pyomo.setJ mo) -> Pyomo.routes_into mo j <> []) ->
  Pyomo.constraints mo a =
  Ok (Pyomo.over2 (Pyomo.define_volume_rule mo a) (Pyomo.setB mo)
      ++ map (Pyomo.define_num_inputs_rule mo a) (Pyomo.setS mo)
      ++ map (Pyomo.define_num_outputs_rule mo a) (Pyomo.setS mo)
      ++ Pyomo.over2 (Pyomo.define_inflow_rule mo a) (Pyomo.setSxC mo)
      ++ Pyomo.over2 (Pyomo.define_outflow_rule mo a) (Pyomo.setSxC mo)
      ++ Pyomo.over3 (Pyomo.force_xe_1_rule mo a) (Pyomo.setWxC mo)
      ++ Pyomo.over3 (Pyomo.force_xe_2_rule mo a) (Pyomo.setWxC mo)
      ++ Pyomo.over3 (Pyomo.force_xe_3_rule mo a) (Pyomo.setWxC mo)
      ++ Pyomo.over3 (Pyomo.force_tz_1_rule mo a) (Pyomo.setWxC mo)
      ++ Pyomo.over3 (Pyomo.force_tz_2_rule mo a) (Pyomo.setWxC mo)
      ++ Pyomo.over3 (Pyomo.force_tz_3_rule mo a) (Pyomo.setWxC mo)
      ++ map (fun i =>
                CEq (sum (map (fun r => inject_Z (Pyomo.e a (fst r) (snd r)))
                            (Pyomo.routes_from mo i))) 1)
           (Pyomo.setI mo)
      ++ map (fun j =>
                CEq (sum (map (fun r => inject_Z (Pyomo.e a (fst r) (snd r)))
                            (Pyomo.routes_into mo j))) 1)
           (Pyomo.setJ mo)
      ++ map (fun k =>
                CEq (sum (map (fun r => Pyomo.t a (fst r) (snd r) (snd k))
                            (Pyomo.routes_from mo (fst k))))
                    (param_value (Pyomo.f mo) k))
           (Pyomo.setIxC mo)
      ++ map (fun k =>
                CEq (sum (map (fun r => Pyomo.t a (fst r) (snd r) (snd k))
                            (Pyomo.routes_into mo (fst k))))
                    (param_value (Pyomo.g mo) k))
           (Pyomo.setJxC mo)
      ++ Pyomo.over2 (Pyomo.respect_capacity_rule mo a) (Pyomo.setB mo)
      ++ Pyomo.over2 (Pyomo.splitters_conserve_rule mo a) (Pyomo.setSxC mo)
      ++ map (Pyomo.min_inputs_rule mo a) (Pyomo.setS mo)
      ++ map (Pyomo.max_inputs_rule mo a) (Pyomo.setS mo)
      ++ map (Pyomo.min_outputs_rule mo a) (Pyomo.setS mo)
      ++ map (Pyomo.max_outputs_rule mo a) (Pyomo.setS mo)
      ++ Pyomo.over3 (Pyomo.split_evenly_rule mo a) (Pyomo.setWxC mo))%list.
Proof.
  intros Hg HIr HJr.
  destruct (generated_traffic cfg mo Hg) as (ti & to & Hd & _ & Hti).
  destruct (generate_inv cfg mo Hg) as (ti' & to' & _ & H).
  assert (HIxC : Pyomo.setIxC mo = list_prod (Pyomo.setI mo) (Pyomo.setC mo)) by tauto.
  assert (HJxC : Pyomo.setJxC mo = list_prod (Pyomo.setJ mo) (Pyomo.setC mo)) by tauto.
  clear H ti' to'. unfold Pyomo.constraints.
  rewrite (mapM_pure _
             (fun i => CEq (sum (map (fun r => inject_Z (Pyomo.e a (fst r) (snd r)))
                                   (Pyomo.routes_from mo i))) 1)).
  2:{ intros i Hi. unfold Pyomo.connect_inbounds_rule.
      apply sum_equals_relational. now apply HIr. }
  cbn [bind Ok].
  rewrite (mapM_pure _
             (fun j => CEq (sum (map (fun r => inject_Z (Pyomo.e a (fst r) (snd r)))
                                   (Pyomo.routes_into mo j))) 1)).
  2:{ intros j Hj. unfold Pyomo.connect_outbounds_rule.
      apply sum_equals_relational. now apply HJr. }
  cbn [bind Ok].
  rewrite (mapM_pure _
             (fun k => CEq (sum (map (fun r => Pyomo.t a (fst r) (snd r) (snd k))
                                   (Pyomo.routes_from mo (fst k))))
                           (param_value (Pyomo.f mo) k))).
  2:{ intros [i c] Hic. rewrite HIxC in Hic. apply in_prod_iff in Hic.
      destruct Hic as [Hi Hc].
      destruct Hti as (r & -> & _); [intros E; rewrite E in Hi; contradiction |].
      destruct (generated_f_value cfg mo r (Finite to) i c Hg Hd Hi Hc)
        as (ki & kc & _ & _ & Hp).
      unfold Pyomo.consume_inbounds_rule, param_value. cbn [fst snd].
      rewrite Hp. cbn [bind Ok]. apply sum_equals_relational. now apply HIr. }
  cbn [bind Ok].
  rewrite (mapM_pure _
             (fun k => CEq (sum (map (fun r => Pyomo.t a (fst r) (snd r) (snd k))
                                   (Pyomo.routes_into mo (fst k))))
                           (param_value (Pyomo.g mo) k))).
  2:{ intros [j c] Hjc. rewrite HJxC in Hjc. apply in_prod_iff in Hjc.
      destruct Hjc as [Hj Hc].
      pose proof (generated_g_value cfg mo ti to j c Hg Hd Hj Hc) as Hp.
      unfold Pyomo.produce_outbounds_rule, param_value. cbn [fst snd].
      rewrite Hp. cbn [bind Ok]. apply sum_equals_relational. now apply HJr. }
  reflexivity.
Qed.

Section LiftingModel.

Variable cfg : config.
Variable mo : Pyomo.model.
Variable prm : Sympy.parameters.
Variable sa : Sympy.assignment.
Hypothesis Hg : Pyomo.generate cfg = Ok mo.
Hypothesis Hb : Sympy.build_parameters cfg = Ok prm.
Hypothesis Hs : Sympy.satisfies cfg prm sa = true.
Hypothesis Hoff :
  forall p q, In p (Pyomo.setP mo) -> In q (Pyomo.setQ mo) ->
              ~ In (p, q) (Pyomo.setB mo) -> Sympy.e sa p q = 0%Z.
Hypothesis Hexact : exact_traffic cfg = true.

Lemma lifting_W (s q c : string) :
  In (s, q, c) (Pyomo.setWxC mo) ->
  In s (Pyomo.setS mo) /\ In q (Pyomo.setQ mo) /\ In c (Pyomo.setC mo).
Proof.
  intros H.
  destruct (generate_inv cfg mo Hg) as (ti & to & G).
  assert (E : Pyomo.setWxC mo = list_prod (Pyomo.setW mo) (Pyomo.setC mo)) by tauto.
  clear G. rewrite E in H. apply in_prod_iff in H. destruct H as [HW HC].
  apply (generated_W cfg mo Hg) in HW. destruct HW as [HB HS].
  apply (generated_B_sub cfg mo s q Hg) in HB. tauto.
Qed.

Lemma lifting_SxC (s c : string) :
  In (s, c) (Pyomo.setSxC mo) -> In s (Pyomo.setS mo) /\ In c (Pyomo.setC mo).
Proof.
  intros H.
  destruct (generate_inv cfg mo Hg) as (ti & to & G).
  assert (E : Pyomo.setSxC mo = list_prod (Pyomo.setS mo) (Pyomo.setC mo)) by tauto.
  clear G. rewrite E in H. now apply in_prod_iff in H.
Qed.

Lemma lifting_n (s : string) :
  (inject_Z (Pyomo.n (lift cfg sa) s) == Sympy.n cfg sa s)%Q.
Proof. cbn [lift Pyomo.n]. apply inject_zsum. Qed.

Lemma lifting_m (s : string) :
  (inject_Z (Pyomo.m (lift cfg sa) s) == Sympy.m cfg sa s)%Q.
Proof. cbn [lift Pyomo.m]. apply inject_zsum. Qed.

(** The facts on one splitter output that the linearization needs. *)
Lemma lifting_output (s q c : string) :
  In (s, q, c) (Pyomo.setWxC mo) ->
  (Sympy.e sa s q = 0 \/ Sympy.e sa s q = 1)%Z /\
  (Sympy.z sa s = 0 \/ Sympy.z sa s = 1)%Z /\
  (0 <= Sympy.x cfg sa s c <= 2)%Q /\
  (0 <= Sympy.t sa s q c <= 1)%Q /\
  (Sympy.t sa s q c * (1 + inject_Z (Sympy.z sa s))
   == inject_Z (Sympy.e sa s q) * Sympy.x cfg sa s c)%Q.
Proof.
  intros H. apply lifting_W in H. destruct H as (HS & HQ & HC).
  destruct (lifting_route cfg mo prm sa Hg Hb Hs s q (S_in_P cfg mo Hg s HS) HQ)
    as (He & _ & Ht).
  destruct (Ht c HC) as [Ht01 _].
  destruct (lifting_splitter cfg mo prm sa Hg Hb Hs s HS) as (Hz & _ & Hc).
  destruct (Hc c HC) as (Hx & _ & Hsplit).
  split; [lia |]. split; [assumption |]. split; [assumption |].
  split; [assumption |].
  rewrite (Hsplit q HQ).
  destruct Hz as [-> | ->]; inject_consts; field.
Qed.

Lemma lifting_domains : Pyomo.domains mo (lift cfg sa) = true.
Proof.
  destruct (generate_inv cfg mo Hg) as (ti & to & G).
  assert (EBxC : Pyomo.setBxC mo = list_prod (Pyomo.setB mo) (Pyomo.setC mo)) by tauto.
  clear G.
  destruct (sympy_sets_of_model cfg mo Hg) as (_ & _ & _ & EC & EP & _).
  unfold Pyomo.domains. rewrite !andb_true_iff. repeat split;
    apply forallb_forall.
  - intros [p q] HB. cbn [fst snd lift Pyomo.e].
    destruct (generated_B_sub cfg mo p q Hg HB) as [HP HQ].
    destruct (lifting_route cfg mo prm sa Hg Hb Hs p q HP HQ) as (He & _).
    apply Binary_cases. lia.
  - intros [[p q] c] H. cbn [fst snd lift Pyomo.t].
    rewrite EBxC in H. apply in_prod_iff in H. destruct H as [HB HC].
    destruct (generated_B_sub cfg mo p q Hg HB) as [HP HQ].
    destruct (lifting_route cfg mo prm sa Hg Hb Hs p q HP HQ) as (_ & _ & Ht).
    apply PercentFraction_iff. now apply Ht.
  - intros [p q] HB. cbn [fst snd lift Pyomo.v].
    destruct (generated_B_sub cfg mo p q Hg HB) as [HP HQ].
    destruct (lifting_route cfg mo prm sa Hg Hb Hs p q HP HQ) as (_ & [Hv _] & Ht).
    apply PercentFraction_iff. split; [| assumption].
    unfold Sympy.v. apply sum_map_nonneg. intros c HC. rewrite EC in HC.
    now apply Ht.
  - intros s HS. cbn [lift Pyomo.n]. unfold Pyomo.NonNegativeIntegers.
    apply Z.leb_le. apply zsum_nonneg. intros p HP. rewrite EP in HP.
    destruct (lifting_route cfg mo prm sa Hg Hb Hs p s HP (S_in_Q cfg mo Hg s HS))
      as (He & _).
    lia.
  - intros s HS. cbn [lift Pyomo.m]. unfold Pyomo.NonNegativeIntegers.
    apply Z.leb_le. apply zsum_nonneg. intros q HQ.
    apply (lifting_Q cfg mo Hg) in HQ.
    destruct (lifting_route cfg mo prm sa Hg Hb Hs s q (S_in_P cfg mo Hg s HS) HQ)
      as (He & _).
    lia.
  - intros [s c] H. cbn [fst snd lift Pyomo.x].
    apply lifting_SxC in H. destruct H as [HS HC].
    destruct (lifting_splitter cfg mo prm sa Hg Hb Hs s HS) as (_ & _ & Hc).
    destruct (Hc c HC) as (Hx & _).
    unfold Pyomo.NonNegativeReals. apply Qle_bool_iff. tauto.
  - intros [s c] H. cbn [fst snd lift Pyomo.y].
    apply lifting_SxC in H. destruct H as [HS HC].
    destruct (lifting_splitter cfg mo prm sa Hg Hb Hs s HS) as (_ & _ & Hc).
    destruct (Hc c HC) as (Hx & Hxy & _).
    unfold Pyomo.NonNegativeReals. apply Qle_bool_iff. rewrite <- Hxy. tauto.
  - intros s HS. cbn [lift Pyomo.z].
    destruct (lifting_splitter cfg mo prm sa Hg Hb Hs s HS) as (Hz & _).
    now apply Binary_cases.
  - intros [[s q] c] H. cbn [fst snd lift Pyomo.xe].
    destruct (lifting_output s q c H) as (He & _ & Hx & _).
    unfold Pyomo.NonNegativeReals. apply Qle_bool_iff.
    destruct He as [-> | ->]; inject_consts; lra.
  - intros [[s q] c] H. cbn [fst snd lift Pyomo.tz].
    destruct (lifting_output s q c H) as (_ & Hz & _ & Ht & _).
    apply PercentFraction_iff.
    destruct Hz as [-> | ->]; inject_consts; lra.
Qed.

Lemma lifting_consume (i c : string) :
  In (i, c) (Pyomo.setIxC mo) ->
  (sum (map (fun r => Sympy.t sa (fst r) (snd r) c) (Pyomo.routes_from mo i))
   == param_value (Pyomo.f mo) (i, c))%Q.
Proof.
  intros H.
  destruct (generate_inv cfg mo Hg) as (ti & to & G).
  assert (E : Pyomo.setIxC mo = list_prod (Pyomo.setI mo) (Pyomo.setC mo)) by tauto.
  clear G ti to. rewrite E in H. apply in_prod_iff in H. destruct H as [Hi Hc].
  destruct (exact_traffic_inv cfg Hexact)
    as (ti & to & si & so & Hd & Esi & _ & Eti & _).
  destruct (generated_f_value cfg mo ti (Finite to) i c Hg Hd Hi Hc)
    as (ki & kc & Gi & Gc & Hp).
  unfold param_value. cbn [fst snd]. rewrite Hp. unfold Ok.
  destruct (sympy_sets_of_model cfg mo Hg) as (EI & _ & _ & EC & _).
  destruct (sympy_system_inv cfg prm sa Hb Hs) as (_ & _ & R & _).
  rewrite <- EI in Hi. rewrite <- EC in Hc.
  destruct (R i Hi) as [_ Hf]. specialize (Hf c Hc).
  rewrite EI in Hi. rewrite EC in Hc.
  unfold sympy_f_value in Hf. cbn [fst snd] in Hf. rewrite Gi, Gc in Hf.
  unfold Ok in Hf. rewrite Esi in Hf.
  rewrite <- (lifting_row_t cfg mo prm sa Hg Hb Hs Hoff i c (I_in_P cfg mo Hg i Hi) Hc).
  destruct (ki =? kc)%Z; cbn [Sympy.eq_number] in Hf; apply holds_CEq in Hf;
    rewrite Hf; [symmetry; exact Eti | reflexivity].
Qed.

Lemma lifting_produce (j c : string) :
  In (j, c) (Pyomo.setJxC mo) ->
  (sum (map (fun r => Sympy.t sa (fst r) (snd r) c) (Pyomo.routes_into mo j))
   == param_value (Pyomo.g mo) (j, c))%Q.
Proof.
  intros H.
  destruct (generate_inv cfg mo Hg) as (ti & to & G).
  assert (E : Pyomo.setJxC mo = list_prod (Pyomo.setJ mo) (Pyomo.setC mo)) by tauto.
  clear G ti to. rewrite E in H. apply in_prod_iff in H. destruct H as [Hj Hc].
  destruct (exact_traffic_inv cfg Hexact)
    as (ti & to & si & so & Hd & _ & Eso & _ & Eto).
  pose proof (generated_g_value cfg mo (Finite ti) to j c Hg Hd Hj Hc) as Hp.
  unfold param_value. cbn [fst snd]. rewrite Hp. unfold Ok.
  destruct (sympy_sets_of_model cfg mo Hg) as (_ & EJ & _ & EC & _).
  destruct (sympy_system_inv cfg prm sa Hb Hs) as (_ & _ & _ & R).
  rewrite <- EJ in Hj. rewrite <- EC in Hc.
  destruct (R j Hj) as [_ Hf]. specialize (Hf c Hc).
  rewrite EJ in Hj. rewrite EC in Hc.
  rewrite Eso in Hf. cbn [Sympy.eq_number] in Hf. apply holds_CEq in Hf.
  rewrite <- (lifting_column_t cfg mo prm sa Hg Hb Hs Hoff j c (J_in_Q cfg mo Hg j Hj) Hc).
  rewrite Hf. symmetry. exact Eto.
Qed.

(** An inbound belt of a solution has a route out of it, and an outbound
    belt a route into it: the belt is connected once, and not by a route
    that the model lacks. *)
Lemma lifting_routes_from (i : string) :
  In i (Pyomo.setI mo) -> Pyomo.routes_from mo i <> [].
Proof.
  intros Hi E.
  destruct (sympy_sets_of_model cfg mo Hg) as (EI & _).
  destruct (sympy_system_inv cfg prm sa Hb Hs) as (_ & _ & RI & _).
  pose proof (lifting_row_e cfg mo sa Hg Hoff i (I_in_P cfg mo Hg i Hi)) as R.
  rewrite E in R. cbn [map] in R. rewrite sum_nil in R.
  rewrite <- EI in Hi. destruct (RI i Hi) as [R1 _]. rewrite R in R1. lra.
Qed.

Lemma lifting_routes_into (j : string) :
  In j (Pyomo.setJ mo) -> Pyomo.routes_into mo j <> [].
Proof.
  intros Hj E.
  destruct (sympy_sets_of_model cfg mo Hg) as (_ & EJ & _).
  destruct (sympy_system_inv cfg prm sa Hb Hs) as (_ & _ & _ & RJ).
  pose proof (lifting_column_e cfg mo sa Hg Hoff j (J_in_Q cfg mo Hg j Hj)) as R.
  rewrite E in R. cbn [map] in R. rewrite sum_nil in R.
  rewrite <- EJ in Hj. destruct (RJ j Hj) as [R1 _]. rewrite R in R1. lra.
Qed.

Lemma lifting_feasible : Pyomo.feasible mo (lift cfg sa) = true.
Proof.
  unfold Pyomo.feasible. rewrite lifting_domains.
  rewrite (constraints_defined cfg mo (lift cfg sa) Hg
             lifting_routes_from lifting_routes_into). unfold Ok.
  cbn [andb].
  destruct (generate_inv cfg mo Hg) as (ti & to & G).
  assert (Eut : Pyomo.u_t mo = 1%Q) by tauto.
  assert (Eux : Pyomo.u_x mo = 2%Q) by tauto.
  clear G ti to.
  destruct (sympy_sets_of_model cfg mo Hg) as (EI & EJ & ES & EC & EP & _).
  destruct (sympy_system_inv cfg prm sa Hb Hs) as (_ & _ & RI & RJ).
  unfold Pyomo.over2, Pyomo.over3.
  rewrite !forallb_app, !andb_true_iff.
  repeat split; apply forallb_map_holds.
  - (* define_volume *)
    intros [p q] HB. cbn [fst snd]. unfold Pyomo.define_volume_rule.
    apply holds_CEq. cbn [lift Pyomo.v Pyomo.t]. unfold Sympy.v. rewrite EC.
    reflexivity.
  - (* define_num_inputs *)
    intros s HS. unfold Pyomo.define_num_inputs_rule. apply holds_CEq.
    rewrite lifting_n. cbn [lift Pyomo.e]. unfold Sympy.n.
    apply (lifting_column_e cfg mo sa Hg Hoff s (S_in_Q cfg mo Hg s HS)).
  - (* define_num_outputs *)
    intros s HS. unfold Pyomo.define_num_outputs_rule. apply holds_CEq.
    rewrite lifting_m. cbn [lift Pyomo.e]. unfold Sympy.m.
    apply (lifting_row_e cfg mo sa Hg Hoff s (S_in_P cfg mo Hg s HS)).
  - (* define_inflow *)
    intros [s c] H. cbn [fst snd]. apply lifting_SxC in H. destruct H as [HS HC].
    unfold Pyomo.define_inflow_rule. apply holds_CEq.
    cbn [lift Pyomo.x Pyomo.t]. unfold Sympy.x.
    apply (lifting_column_t cfg mo prm sa Hg Hb Hs Hoff s c (S_in_Q cfg mo Hg s HS) HC).
  - (* define_outflow *)
    intros [s c] H. cbn [fst snd]. apply lifting_SxC in H. destruct H as [HS HC].
    unfold Pyomo.define_outflow_rule. apply holds_CEq.
    cbn [lift Pyomo.y Pyomo.t]. unfold Sympy.y.
    apply (lifting_row_t cfg mo prm sa Hg Hb Hs Hoff s c (S_in_P cfg mo Hg s HS) HC).
  - (* force_xe_1 *)
    intros [[s q] c] H. cbn [fst snd].
    destruct (lifting_output s q c H) as (He & _ & Hx & _).
    unfold Pyomo.force_xe_1_rule. apply holds_CLe. rewrite Eux.
    cbn [lift Pyomo.xe Pyomo.e].
    destruct He as [-> | ->]; inject_consts; lra.
  - (* force_xe_2 *)
    intros [[s q] c] H. cbn [fst snd].
    destruct (lifting_output s q c H) as (He & _ & Hx & _).
    unfold Pyomo.force_xe_2_rule. apply holds_CLe.
    cbn [lift Pyomo.xe Pyomo.x].
    destruct He as [-> | ->]; inject_consts; lra.
  - (* force_xe_3 *)
    intros [[s q] c] H. cbn [fst snd].
    destruct (lifting_output s q c H) as (He & _ & Hx & _).
    unfold Pyomo.force_xe_3_rule. apply holds_CGe. rewrite Eux.
    cbn [lift Pyomo.xe Pyomo.x Pyomo.e].
    destruct He as [-> | ->]; inject_consts; lra.
  - (* force_tz_1 *)
    intros [[s q] c] H. cbn [fst snd].
    destruct (lifting_output s q c H) as (_ & Hz & _ & Ht & _).
    unfold Pyomo.force_tz_1_rule. apply holds_CLe. rewrite Eut.
    cbn [lift Pyomo.tz Pyomo.z].
    destruct Hz as [-> | ->]; inject_consts; lra.
  - (* force_tz_2 *)
    intros [[s q] c] H. cbn [fst snd].
    destruct (lifting_output s q c H) as (_ & Hz & _ & Ht & _).
    unfold Pyomo.force_tz_2_rule. apply holds_CLe.
    cbn [lift Pyomo.tz Pyomo.t].
    destruct Hz as [-> | ->]; inject_consts; lra.
  - (* force_tz_3 *)
    intros [[s q] c] H. cbn [fst snd].
    destruct (lifting_output s q c H) as (_ & Hz & _ & Ht & _).
    unfold Pyomo.force_tz_3_rule. apply holds_CGe. rewrite Eut.
    cbn [lift Pyomo.tz Pyomo.t Pyomo.z].
    destruct Hz as [-> | ->]; inject_consts; lra.
  - (* connect_inbounds *)
    intros i Hi. apply holds_CEq.
    cbn [lift Pyomo.e].
    rewrite <- (lifting_row_e cfg mo sa Hg Hoff i (I_in_P cfg mo Hg i Hi)).
    rewrite <- EI in Hi. now apply RI.
  - (* connect_outbounds *)
    intros j Hj. apply holds_CEq.
    cbn [lift Pyomo.e].
    rewrite <- (lifting_column_e cfg mo sa Hg Hoff j (J_in_Q cfg mo Hg j Hj)).
    rewrite <- EJ in Hj. now apply RJ.
  - (* consume_inbounds *)
    intros [i c] H. cbn [fst snd]. apply holds_CEq. cbn [lift Pyomo.t].
    now apply lifting_consume.
  - (* produce_outbounds *)
    intros [j c] H. cbn [fst snd]. apply holds_CEq. cbn [lift Pyomo.t].
    now apply lifting_produce.
  - (* respect_capacity *)
    intros [p q] HB. cbn [fst snd]. unfold Pyomo.respect_capacity_rule.
    apply holds_CLe. cbn [lift Pyomo.v Pyomo.e].
    destruct (generated_B_sub cfg mo p q Hg HB) as [HP HQ].
    destruct (lifting_route cfg mo prm sa Hg Hb Hs p q HP HQ) as (_ & [_ Hv] & _).
    exact Hv.
  - (* splitters_conserve *)
    intros [s c] H. cbn [fst snd]. apply lifting_SxC in H. destruct H as [HS HC].
    unfold Pyomo.splitters_conserve_rule. apply holds_CEq.
    cbn [lift Pyomo.x Pyomo.y].
    destruct (lifting_splitter cfg mo prm sa Hg Hb Hs s HS) as (_ & _ & Hc).
    now destruct (Hc c HC) as (_ & Hxy & _).
  - (* min_inputs *)
    intros s HS. unfold Pyomo.min_inputs_rule. apply holds_CGe.
    rewrite lifting_n. cbn [lift Pyomo.z].
    destruct (lifting_splitter cfg mo prm sa Hg Hb Hs s HS) as (_ & Hd & _). tauto.
  - (* max_inputs *)
    intros s HS. unfold Pyomo.max_inputs_rule. apply holds_CLe.
    rewrite lifting_n.
    destruct (lifting_splitter cfg mo prm sa Hg Hb Hs s HS) as (_ & Hd & _). tauto.
  - (* min_outputs *)
    intros s HS. unfold Pyomo.min_outputs_rule. apply holds_CGe.
    rewrite lifting_m. cbn [lift Pyomo.z].
    destruct (lifting_splitter cfg mo prm sa Hg Hb Hs s HS) as (_ & Hd & _). tauto.
  - (* max_outputs *)
    intros s HS. unfold Pyomo.max_outputs_rule. apply holds_CLe.
    rewrite lifting_m. cbn [lift Pyomo.z].
    destruct (lifting_splitter cfg mo prm sa Hg Hb Hs s HS) as (_ & Hd & _). tauto.
  - (* split_evenly *)
    intros [[s q] c] H. cbn [fst snd].
    destruct (lifting_output s q c H) as (He & Hz & Hx & Ht & Hsplit).
    unfold Pyomo.split_evenly_rule. apply holds_CEq.
    cbn [lift Pyomo.xe Pyomo.t Pyomo.tz].
    destruct He as [E | E]; destruct Hz as [Z | Z]; rewrite E, Z in *;
      inject_consts; lra.
Qed.

End LiftingModel.

(** X19. Conversely, where the float quotients of [pyomo_model_1.py] are
    the exact rationals of [sympy_system.py], a solution of the system of
    [sympy_system.py] that builds none of the routes [B_filter] excludes (no
    bypass from an inbound to an outbound belt, no splitter feeding itself)
    gives a feasible assignment of the model generated by
    [pyomo_model_1.py] from the same counts: the expressions [v], [n], [m],
    [x], [y] of the script become the values of the variables of the same
    names, and the products [x * e] and [t * z] the values of the auxiliary
    variables [xe] and [tz]. *)
Theorem sympy_solution_solves_pyomo_model
  (cfg : config) (mo : Pyomo.model) (prm : Sympy.parameters)
  (sa : Sympy.assignment) :
  Pyomo.generate cfg = Ok mo ->
  Sympy.build_parameters cfg = Ok prm ->
  exact_traffic cfg = true ->
  Sympy.satisfies cfg prm sa = true ->
  (forall p q, In p (Pyomo.setP mo) -> In q (Pyomo.setQ mo) ->
               ~ In (p, q) (Pyomo.setB mo) -> Sympy.e sa p q = 0%Z) ->
  Pyomo.feasible mo (lift cfg sa) = true.
Proof.
  intros Hg Hb Hexact Hs Hoff.
  exact (lifting_feasible cfg mo prm sa Hg Hb Hs Hoff Hexact).
Qed.

Lemma sympy_solution_solves_pyomo_model_witness :
  Pyomo.feasible model_1_1_2
    (lift cfg_1_1_2 (restrict model_1_1_2 chain_assignment)) = true.
Proof.
  apply (sympy_solution_solves_pyomo_model cfg_1_1_2 model_1_1_2
           (Sympy.Parameters [("i1", "c1", Some 1%Q)] [("j1", "c1", Some 1%Q)] 1 2)).
  - vm_compute. reflexivity.
  - vm_compute. reflexivity.
  - vm_compute. reflexivity.
  - vm_compute. reflexivity.
  - intros p q _ _ Hn. cbn [restrict Sympy.e].
    destruct (mem_route (p, q) (Pyomo.setB model_1_1_2)) eqn:E; [| reflexivity].
    apply mem_route_In in E. contradiction.
Defined.

(** The restriction on the routes is needed: with one inbound belt, one
    outbound belt and no splitter the system is solved by the direct belt
    from [i1] to [j1], a route the model does not have. *)
Example bypass_solves_system_only :
  exists mo prm,
    Pyomo.generate (Config 1 1 0) = Ok mo /\
    Sympy.build_parameters (Config 1 1 0) = Ok prm /\
    Sympy.satisfies (Config 1 1 0) prm direct_assignment = true /\
    Pyomo.feasible mo (lift (Config 1 1 0) direct_assignment) = false.
Proof.
  eexists. eexists. split; [vm_compute; reflexivity |].
  split; [vm_compute; reflexivity |].
  split; vm_compute; reflexivity.
Qed.
